(** * script-exporter: a verification development

    A shallow embedding of the three cores of script-exporter
    (runCommand, ScriptHandler.Start, and the OpenTSDB translation of
    metrics.go) and of the HTTP handler around them (ServeHTTP,
    serveMetricsFromText, the regatherer and the sliceCollector), together
    with the properties stated about them.

    Conventions.
    - A Go [string] is a byte sequence: Rocq's [string].  Runes and Go
      integers are [Z]; [int] arithmetic wraps at 64 bits.
    - A Go [map[string]T] is a [gmap string T]; reading a missing key of a
      [map[string]int] gives 0.
    - [error] values produced by [fmt.Errorf] are their message.
    - Functions of the Go standard library are written out from their
      documented behaviour, in modules named after their packages.
    - Library functions whose result the program only consumes
      ([opentsdb.ValidTSDBString], [opentsdb.ParseTags],
      [strconv.ParseFloat], [sort.Sort], and the two checks of names that
      [prometheus.NewDesc] makes, [model.IsValidMetricName] and
      [checkLabelName]) and the order in which Go visits a map are Section
      variables; a concrete instance of each is given where a statement
      is evaluated.
    - [prometheus.NewDesc] and [exec.Cmd.Wait] are written out as far as
      the program depends on them: a descriptor whose names are refused
      carries an error and no constant label, and [Wait] blocks until the
      child has ended. *)

From Stdlib Require Import ZArith Ascii String List PrimFloat Uint63 DecimalString Lia.
From Stdlib Require OrderedTypeEx.
From stdpp Require Import gmap strings list sorting.

Local Open Scope Z_scope.

(** ** Bytes and runes *)

Definition byte_of (a : ascii) : Z := Z.of_N (N_of_ascii a).
Definition ascii_of (b : Z) : ascii := ascii_of_N (Z.to_N b).

Definition bytes_of (s : string) : list Z := map byte_of (list_ascii_of_string s).
Definition string_of (bs : list Z) : string := string_of_list_ascii (map ascii_of bs).

(** Go's [int]: 64-bit two's complement. *)
Definition wrap_int (z : Z) : Z := (z + 2 ^ 63) mod 2 ^ 64 - 2 ^ 63.

(** ** unicode/utf8 and unicode *)
Module utf8.

Definition RuneError : Z := 0xFFFD.
Definition RuneSelf : Z := 0x80.
Definition MaxRune : Z := 0x10FFFF.

(** The [first] table of the package: the width of the sequence a first
    byte announces (0 for a byte that cannot start one). *)
Definition size_of_first (s0 : Z) : nat :=
  if s0 <? 0xC2 then 0
  else if s0 <? 0xE0 then 2
  else if s0 <? 0xF0 then 3
  else if s0 <? 0xF5 then 4
  else 0.

(** [acceptRanges]: the interval allowed for the second byte. *)
Definition accept (s0 : Z) : Z * Z :=
  if s0 =? 0xE0 then (0xA0, 0xBF)
  else if s0 =? 0xED then (0x80, 0x9F)
  else if s0 =? 0xF0 then (0x90, 0xBF)
  else if s0 =? 0xF4 then (0x80, 0x8F)
  else (0x80, 0xBF).

Definition cont (b : Z) : bool := (0x80 <=? b) && (b <=? 0xBF).

(** [utf8.DecodeRuneInString]: the rune at the head of [p] and its width;
    an invalid or truncated sequence is [RuneError] of width 1. *)
Definition DecodeRune (p : list Z) : Z * nat :=
  match p with
  | [] => (RuneError, 0%nat)
  | s0 :: t =>
    if s0 <? RuneSelf then (s0, 1%nat)
    else
      match size_of_first s0, t with
      | 2%nat, s1 :: _ =>
        let '(lo, hi) := accept s0 in
        if (s1 <? lo) || (hi <? s1) then (RuneError, 1%nat)
        else (Z.lor (Z.shiftl (Z.land s0 0x1F) 6) (Z.land s1 0x3F), 2%nat)
      | 3%nat, s1 :: s2 :: _ =>
        let '(lo, hi) := accept s0 in
        if (s1 <? lo) || (hi <? s1) then (RuneError, 1%nat)
        else if negb (cont s2) then (RuneError, 1%nat)
        else (Z.lor (Z.shiftl (Z.land s0 0x0F) 12)
                (Z.lor (Z.shiftl (Z.land s1 0x3F) 6) (Z.land s2 0x3F)), 3%nat)
      | 4%nat, s1 :: s2 :: s3 :: _ =>
        let '(lo, hi) := accept s0 in
        if (s1 <? lo) || (hi <? s1) then (RuneError, 1%nat)
        else if negb (cont s2) then (RuneError, 1%nat)
        else if negb (cont s3) then (RuneError, 1%nat)
        else (Z.lor (Z.shiftl (Z.land s0 0x07) 18)
                (Z.lor (Z.shiftl (Z.land s1 0x3F) 12)
                   (Z.lor (Z.shiftl (Z.land s2 0x3F) 6) (Z.land s3 0x3F))), 4%nat)
      | _, _ => (RuneError, 1%nat)
      end
  end.

(** [utf8.EncodeRune]; surrogates and out-of-range runes encode as
    [RuneError]. *)
Definition EncodeRune (r : Z) : list Z :=
  if (0 <=? r) && (r <? 0x80) then [r]
  else if (0 <=? r) && (r <? 0x800) then
    [Z.lor 0xC0 (Z.shiftr r 6); Z.lor 0x80 (Z.land r 0x3F)]
  else if (r <? 0) || (MaxRune <? r) || ((0xD800 <=? r) && (r <=? 0xDFFF)) then
    [0xEF; 0xBF; 0xBD]
  else if r <? 0x10000 then
    [Z.lor 0xE0 (Z.shiftr r 12); Z.lor 0x80 (Z.land (Z.shiftr r 6) 0x3F);
     Z.lor 0x80 (Z.land r 0x3F)]
  else
    [Z.lor 0xF0 (Z.shiftr r 18); Z.lor 0x80 (Z.land (Z.shiftr r 12) 0x3F);
     Z.lor 0x80 (Z.land (Z.shiftr r 6) 0x3F); Z.lor 0x80 (Z.land r 0x3F)].

(** [for i, c := range s]: the runes of a byte sequence, each with the
    bytes it was decoded from.  [skip] counts the bytes of the current
    rune still to be passed over. *)
Fixpoint range_from (skip : nat) (p : list Z) : list (Z * list Z) :=
  match p with
  | [] => []
  | _ :: t =>
    match skip with
    | S k => range_from k t
    | O => let '(r, w) := DecodeRune p in (r, take w p) :: range_from (w - 1) t
    end
  end.

Definition range (s : string) : list (Z * list Z) := range_from 0 (bytes_of s).

End utf8.

Module unicode.

(** [unicode.IsSpace]: the White_Space property. *)
Definition IsSpace (r : Z) : bool :=
  ((0x09 <=? r) && (r <=? 0x0D)) || (r =? 0x20) || (r =? 0x85) || (r =? 0xA0)
  || (r =? 0x1680) || ((0x2000 <=? r) && (r <=? 0x200A))
  || (r =? 0x2028) || (r =? 0x2029) || (r =? 0x202F) || (r =? 0x205F)
  || (r =? 0x3000).

End unicode.

(** ** strings *)
Module strings.

(** [strings.Map].  The mapping function of the program is a closure over a
    counter, so the mapping threads a state [St]; a negative result drops
    the rune. *)
Fixpoint Map_runes {St : Type} (mapping : St -> Z -> St * Z) (st : St)
    (rs : list (Z * list Z)) : list Z :=
  match rs with
  | [] => []
  | (c, _) :: rest =>
    let '(st', r) := mapping st c in
    (if 0 <=? r then utf8.EncodeRune r else []) ++ Map_runes mapping st' rest
  end.

Definition Map {St : Type} (mapping : St -> Z -> St * Z) (st : St) (s : string) : string :=
  string_of (Map_runes mapping st (utf8.range s)).

(** [strings.Fields]: the maximal runs of non-space runes.  [cur] is the
    field being read, last byte first; it is empty between fields. *)
Fixpoint Fields_from (cur : list Z) (rs : list (Z * list Z)) : list string :=
  match rs with
  | [] => match cur with [] => [] | _ => [string_of (reverse cur)] end
  | (c, bs) :: rest =>
    if unicode.IsSpace c then
      match cur with
      | [] => Fields_from [] rest
      | _ => string_of (reverse cur) :: Fields_from [] rest
      end
    else Fields_from (rev_append bs cur) rest
  end.

Definition Fields (s : string) : list string := Fields_from [] (utf8.range s).

Fixpoint TrimLeft_space (rs : list (Z * list Z)) : list (Z * list Z) :=
  match rs with
  | (c, bs) :: rest => if unicode.IsSpace c then TrimLeft_space rest else rs
  | [] => []
  end.

(** [strings.TrimSpace]: leading and trailing space runes removed. *)
Definition TrimSpace (s : string) : string :=
  let l := TrimLeft_space (utf8.range s) in
  string_of (concat (map snd (reverse (TrimLeft_space (reverse l))))).

(** [strings.HasPrefix]. *)
Fixpoint HasPrefix (s prefix : string) {struct prefix} : bool :=
  match prefix, s with
  | EmptyString, _ => true
  | String p prefix', String c s' => Ascii.eqb c p && HasPrefix s' prefix'
  | String _ _, EmptyString => false
  end.

(** [s[n:]], for [n] within the string. *)
Fixpoint from (n : nat) (s : string) : string :=
  match n, s with
  | O, _ => s
  | S n', String _ s' => from n' s'
  | S _, EmptyString => EmptyString
  end.

(** [strings.TrimPrefix]: [s] without the leading [prefix], or [s] itself
    when it does not start with [prefix]. *)
Definition TrimPrefix (s prefix : string) : string :=
  if HasPrefix s prefix then from (String.length prefix) s else s.

End strings.

(** ** strconv *)
Module strconv.

Definition digit (b : Z) : option Z :=
  if (48 <=? b) && (b <=? 57) then Some (b - 48) else None.

Fixpoint ParseUint_from (acc : Z) (p : list Z) : option Z :=
  match p with
  | [] => Some acc
  | b :: t =>
    match digit b with
    | Some d => ParseUint_from (10 * acc + d) t
    | None => None
    end
  end.

(** [strconv.ParseInt(s, 10, 64)]: [None] stands for any [*NumError]
    (syntax or range). *)
Definition ParseInt (s : string) : option Z :=
  match bytes_of s with
  | [] => None
  | s0 :: t =>
    let neg := s0 =? 45 in
    let body := if (s0 =? 43) || (s0 =? 45) then t else s0 :: t in
    match body with
    | [] => None
    | _ =>
      match ParseUint_from 0 body with
      | None => None
      | Some un =>
        let cutoff := 2 ^ 63 in
        if negb neg && (cutoff <=? un) then None
        else if neg && (cutoff <? un) then None
        else Some (if neg then - un else un)
      end
    end
  end.

End strconv.

(** ** bufio *)
Module bufio.

Definition MaxScanTokenSize : Z := 64 * 1024.
Definition ErrTooLong : string := "bufio.Scanner: token too long".

(** The lines of the input: the text between newlines, and a last
    unterminated line when it is not empty.  [cur] is the line being read,
    last byte first. *)
Fixpoint lines_from (cur : list Z) (p : list Z) : list (list Z) :=
  match p with
  | [] => match cur with [] => [] | _ => [reverse cur] end
  | b :: t => if b =? 10 then reverse cur :: lines_from [] t else lines_from (b :: cur) t
  end.

Definition dropCR (l : list Z) : list Z :=
  match reverse l with
  | 13 :: r => reverse r
  | _ => l
  end.

(** A [Scanner] with the [ScanLines] split function over an in-memory
    reader: the tokens [Scan] delivers, and what [Err] returns once [Scan]
    has returned false.  A line of [MaxScanTokenSize] bytes or more does not
    fit the buffer: scanning stops there with [ErrTooLong]. *)
Fixpoint scan (ls : list (list Z)) : list string * option string :=
  match ls with
  | [] => ([], None)
  | l :: rest =>
    if MaxScanTokenSize <=? Z.of_nat (length l) then ([], Some ErrTooLong)
    else let '(ts, e) := scan rest in (string_of (dropCR l) :: ts, e)
  end.

Definition Scanner (input : string) : list string * option string :=
  scan (lines_from [] (bytes_of input)).

End bufio.

(** ** makeValidPromName *)

(** The closure passed to [strings.Map]: [i] is the captured counter. *)
Definition promNameRune (i : Z) (r : Z) : Z * Z :=
  let i := wrap_int (i + 1) in
  if ((97 <=? r) && (r <=? 122)) || ((65 <=? r) && (r <=? 90)) || (r =? 95) then (i, r)
  else if (0 <? i) && ((48 <=? r) && (r <=? 57)) then (i, r)
  else (i, 95).

Definition makeValidPromName (s : string) : string :=
  strings.Map promNameRune 0 s.

(** The runes the closure keeps, the counter being positive, and what it
    makes of a rune then. *)
Definition keeps (r : Z) : bool :=
  ((97 <=? r) && (r <=? 122)) || ((65 <=? r) && (r <=? 90)) || (r =? 95)
  || ((48 <=? r) && (r <=? 57)).

Definition sanitize_byte (b : Z) : Z := if keeps b then b else 95.

(** ** The data of the translation *)

(** [opentsdb.TagSet] is a [map[string]string]. *)
Abbreviation TagSet := (gmap string string).

(** [DataPoint.Value] is an [interface{}]: the dynamic types
    [dpointsToMetrics] switches on, and any other. *)
Inductive Value :=
  | VFloat64 (x : float)
  | VInt (x : Z)
  | VInt32 (x : Z)
  | VInt64 (x : Z)
  | VOther.

Record DataPoint := {
  dp_Metric : string;
  dp_Timestamp : Z;
  dp_Value : Value;
  dp_Tags : TagSet
}.

(** [prometheus.ValueType]. *)
Inductive ValueType := CounterValue | GaugeValue | UntypedValue.

(** Why [prometheus.NewDesc] marks a descriptor as unusable.  The text of
    the error names the offending name; which label name it is depends on
    the order in which the map is visited, so the kind alone is kept. *)
Inductive desc_error :=
  | EmptyHelp
  | InvalidMetricName
  | InvalidLabelName
  | DuplicateLabelNames.

(** [prometheus.Desc]: the three fields [NewDesc] copies from its
    arguments, [constLabelPairs] (a list sorted by name of pairs with
    distinct names, here a map) and [err]. *)
Record Desc := {
  fqName : string;
  help : string;
  variableLabels : list string;
  constLabels : gmap string string;
  desc_err : option desc_error
}.

(** The metric [MustNewConstMetric] builds: its descriptor, kind and value.
    There is no timestamp among its fields. *)
Record constMetric := {
  desc : Desc;
  valType : ValueType;
  val : float
}.

Section Descriptors.

(** [model.IsValidMetricName] and [checkLabelName] of the client library. *)
Variable IsValidMetricName : string -> bool.
Variable checkLabelName : string -> bool.

(** [prometheus.NewDesc].  The name, the help text and the variable labels
    are stored first; at the first check that fails the error is set and
    the descriptor returned as it is, without constant labels.  The checks,
    in order: the help text is not empty, the name is a metric name, every
    constant label name passes [checkLabelName], every variable label name
    does, and no name occurs twice among them. *)
Definition NewDesc (fqName help : string) (variableLabels : list string)
    (constLabels : gmap string string) : Desc :=
  let d (err : option desc_error) (pairs : gmap string string) :=
    {| fqName := fqName; help := help; variableLabels := variableLabels;
       constLabels := pairs; desc_err := err |} in
  if decide (help = "") then d (Some EmptyHelp) ∅
  else if negb (IsValidMetricName fqName) then d (Some InvalidMetricName) ∅
  else if negb (forallb checkLabelName (map_to_list constLabels).*1)
  then d (Some InvalidLabelName) ∅
  else if negb (forallb checkLabelName variableLabels)
  then d (Some InvalidLabelName) ∅
  else if negb (bool_decide (NoDup ((map_to_list constLabels).*1 ++ variableLabels)))
  then d (Some DuplicateLabelNames) ∅
  else d None constLabels.

End Descriptors.

(** [prometheus.MustNewConstMetric] without label values: the metric holds
    the descriptor as it is, marked or not. *)
Definition MustNewConstMetric (d : Desc) (t : ValueType) (v : float) : constMetric :=
  {| desc := d; valType := t; val := v |}.

(** A call that returns a pointer and an [error], exactly one of them nil. *)
Inductive result (A : Type) :=
  | Ok (a : A)
  | Err (msg : string).
Arguments Ok {A} a.
Arguments Err {A} msg.

(** [float64(x)] for an integer [x] of at most 64 bits. *)
Definition float64_of_int (x : Z) : float :=
  if x =? - 2 ^ 63 then (-9223372036854775808)%float
  else if x <? 0 then PrimFloat.opp (PrimFloat.of_uint63 (Uint63.of_Z (- x)))
  else PrimFloat.of_uint63 (Uint63.of_Z x).

(** [TagSet.Merge]: every entry of [o] is written into [t]. *)
Definition Merge (t o : TagSet) : TagSet := o ∪ t.

(** ** The translation *)
Section Translation.

(** [strconv.ParseFloat(s, 64)]; [None] is any error. *)
Variable ParseFloat : string -> option float.
(** [opentsdb.ValidTSDBString]. *)
Variable ValidTSDBString : string -> bool.
(** [opentsdb.ParseTags]: a tag set, or the message of its error. *)
Variable ParseTags : string -> result TagSet.
(** The order in which the [range] statement of [dpointsToMetrics] visits
    the tags of its [i]-th data point: Go leaves it unspecified. *)
Variable rangeTags : nat -> TagSet -> list (string * string).
(** [model.IsValidMetricName] and [checkLabelName], as [prometheus.NewDesc]
    calls them. *)
Variable IsValidMetricName : string -> bool.
Variable checkLabelName : string -> bool.

(** The loop over [sp[3:]] of [parseTcollectorValue]. *)
Fixpoint parse_tags (sp0 : string) (tokens : list string) (tags : TagSet) : result TagSet :=
  match tokens with
  | [] => Ok tags
  | tag :: rest =>
    match ParseTags tag with
    | Err err => Err ("bad tag, metric " ++ sp0 ++ ": " ++ tag ++ ": " ++ err)
    | Ok ts => parse_tags sp0 rest (Merge tags ts)
    end
  end.

Definition parseTcollectorValue (line : string) : result DataPoint :=
  match strings.Fields line with
  | sp0 :: sp1 :: sp2 :: rest =>
    match strconv.ParseInt sp1 with
    | None => Err ("bad timestamp: " ++ sp1)
    | Some ts =>
      match ParseFloat sp2 with
      | None => Err ("bad value: " ++ sp2)
      | Some val =>
        if negb (ValidTSDBString sp0) then Err ("bad metric: " ++ sp0)
        else
          match parse_tags sp0 rest ∅ with
          | Err err => Err err
          | Ok tags =>
            Ok {| dp_Metric := sp0; dp_Timestamp := ts;
                  dp_Value := VFloat64 val; dp_Tags := tags |}
          end
      end
    end
  | _ => Err ("bad line: " ++ line)
  end.

(** The inner loop of [dpointsToMetrics]: [labels[makeValidPromName(k)] = v]
    for the tags in the order they are visited. *)
Definition make_labels (kvs : list (string * string)) : gmap string string :=
  foldl (fun labels kv => <[makeValidPromName kv.1 := kv.2]> labels) ∅ kvs.

(** The type switch of [dpointsToMetrics]; [v] keeps its zero value when no
    case matches. *)
Definition value_of (x : Value) : float :=
  match x with
  | VFloat64 x => x
  | VInt x => float64_of_int x
  | VInt32 x => float64_of_int x
  | VInt64 x => float64_of_int x
  | VOther => 0%float
  end.

Definition metric_of (i : nat) (dpoint : DataPoint) : constMetric :=
  let labels := make_labels (rangeTags i (dp_Tags dpoint)) in
  let v := value_of (dp_Value dpoint) in
  MustNewConstMetric
    (NewDesc IsValidMetricName checkLabelName
       (makeValidPromName (dp_Metric dpoint)) "help" [] labels)
    GaugeValue v.

Fixpoint dpointsToMetrics_from (i : nat) (dpoints : list DataPoint) : list constMetric :=
  match dpoints with
  | [] => []
  | dpoint :: rest => metric_of i dpoint :: dpointsToMetrics_from (S i) rest
  end.

Definition dpointsToMetrics (dpoints : list DataPoint) : list constMetric * option string :=
  (dpointsToMetrics_from 0 dpoints, None).

(** The [for scanner.Scan()] loop of [translateOpenTsdb] over the lines the
    scanner delivers: the data points, or the error of the first line that
    does not parse. *)
Fixpoint scan_loop (lines : list string) (dpoints : list DataPoint) : result (list DataPoint) :=
  match lines with
  | [] => Ok dpoints
  | line :: rest =>
    if decide (strings.TrimSpace line = "") then scan_loop rest dpoints
    else
      match parseTcollectorValue line with
      | Err err => Err err
      | Ok dpoint => scan_loop rest (dpoints ++ [dpoint])
      end
  end.

Definition translateOpenTsdb (input : string) : list constMetric * option string :=
  let '(lines, scanErr) := bufio.Scanner input in
  match scan_loop lines [] with
  | Err err => ([], Some err)
  | Ok dpoints =>
    match scanErr with
    | Some err => ([], Some err)
    | None => dpointsToMetrics dpoints
    end
  end.

End Translation.

(** ** Instances of the library functions

    The theorems below hold for every behaviour of the library functions
    they are parametric in.  To evaluate the translation on a given text,
    the functions are instantiated here after the packages' sources:
    [bosun.org/opentsdb] for the tag functions, and the fragment of
    [strconv.ParseFloat] on which the conversion is a single correctly
    rounded integer conversion. *)
Module opentsdb.

(** [unicode.IsLetter] on Latin-1; the instance knows no letter beyond. *)
Definition IsLetter (c : Z) : bool :=
  ((65 <=? c) && (c <=? 90)) || ((97 <=? c) && (c <=? 122))
  || (c =? 0xAA) || (c =? 0xB5) || (c =? 0xBA)
  || ((0xC0 <=? c) && (c <=? 0xD6)) || ((0xD8 <=? c) && (c <=? 0xF6))
  || ((0xF8 <=? c) && (c <=? 0xFF)).

Definition valid_rune (c : Z) : bool :=
  ((97 <=? c) && (c <=? 122)) || ((65 <=? c) && (c <=? 90))
  || ((48 <=? c) && (c <=? 57))
  || (c =? 45) || (c =? 95) || (c =? 46) || (c =? 47)
  || IsLetter c.

Definition ValidTSDBString (s : string) : bool :=
  negb (String.eqb s "") && forallb (fun rc => valid_rune rc.1) (utf8.range s).

(** [strings.Split(s, sep)] for a one-byte separator. *)
Fixpoint split_on (sep : Z) (cur : list Z) (p : list Z) : list (list Z) :=
  match p with
  | [] => [reverse cur]
  | b :: t => if b =? sep then reverse cur :: split_on sep [] t else split_on sep (b :: cur) t
  end.

(** [strings.SplitN(s, sep, 2)] for a one-byte separator: the text before
    and after its first occurrence, if any. *)
Fixpoint cut (sep : Z) (cur : list Z) (p : list Z) : option (list Z * list Z) :=
  match p with
  | [] => None
  | b :: t => if b =? sep then Some (reverse cur, t) else cut sep (b :: cur) t
  end.

Fixpoint ParseTags_loop (vs : list (list Z)) (ts : TagSet) (err : option string)
    : result TagSet :=
  match vs with
  | [] => match err with Some e => Err e | None => Ok ts end
  | v :: rest =>
    match cut 61 [] v with
    | None => Err ("opentsdb: bad tag: " ++ string_of v)
    | Some (k0, v0) =>
      let k := strings.TrimSpace (string_of k0) in
      let x := strings.TrimSpace (string_of v0) in
      let err := if ValidTSDBString (string_of k0) then err
                 else Some ("opentsdb: invalid character in " ++ string_of k0)%string in
      if String.eqb k "" || String.eqb x "" then
        Err ("opentsdb: bad tag: " ++ string_of v)
      else
        match ts !! k with
        | Some _ => Err ("opentsdb: duplicated tag: " ++ string_of v)
        | None => ParseTags_loop rest (<[k := x]> ts) err
        end
    end
  end.

Definition ParseTags (t : string) : result TagSet :=
  ParseTags_loop (split_on 44 [] (bytes_of t)) ∅ None.

End opentsdb.

Module prometheus.

(** [model.IsValidMetricName]: a name that is not empty, made of letters,
    [_] and [:], and of digits past its first byte. *)
Definition metric_name_byte (first : bool) (b : Z) : bool :=
  ((97 <=? b) && (b <=? 122)) || ((65 <=? b) && (b <=? 90)) || (b =? 95) || (b =? 58)
  || (negb first && ((48 <=? b) && (b <=? 57))).

Definition IsValidMetricName (n : string) : bool :=
  match bytes_of n with
  | [] => false
  | b :: bs => metric_name_byte true b && forallb (metric_name_byte false) bs
  end.

(** [model.LabelName.IsValid]: the same without [:]. *)
Definition label_name_byte (first : bool) (b : Z) : bool :=
  ((97 <=? b) && (b <=? 122)) || ((65 <=? b) && (b <=? 90)) || (b =? 95)
  || (negb first && ((48 <=? b) && (b <=? 57))).

Definition LabelName_IsValid (n : string) : bool :=
  match bytes_of n with
  | [] => false
  | b :: bs => label_name_byte true b && forallb (label_name_byte false) bs
  end.

(** [checkLabelName]: a valid label name outside the reserved names, which
    start with two underscores. *)
Definition checkLabelName (l : string) : bool :=
  LabelName_IsValid l && negb (strings.HasPrefix l "__").

End prometheus.

(** [strconv.ParseFloat] on plain decimal integers below [2^63], where the
    result is the integer converted to [float64]; the instance gives an
    error elsewhere. *)
Definition ParseFloat_integers (s : string) : option float :=
  match strconv.ParseInt s with
  | Some z => if z =? - 2 ^ 63 then None else Some (float64_of_int z)
  | None => None
  end.

(** The instance of the translation used for evaluation: tags are visited
    in the order [map_to_list] lists them. *)
Definition translate_eval (input : string) : list constMetric * option string :=
  translateOpenTsdb ParseFloat_integers opentsdb.ValidTSDBString opentsdb.ParseTags
    (fun _ m => map_to_list m)
    prometheus.IsValidMetricName prometheus.checkLabelName input.

Definition newline : string := String (ascii_of 10) EmptyString.

(** The runes of a blank text. *)
Definition all_space (rs : list (Z * list Z)) : Prop :=
  Forall (fun rc : Z * list Z => unicode.IsSpace rc.1 = true) rs.

(** The lines of an input as [ScanLines] cuts them, and the inputs all of
    whose lines fit the scanner's buffer. *)
Definition input_lines (input : string) : list string :=
  map (fun l => string_of (bufio.dropCR l)) (bufio.lines_from [] (bytes_of input)).

Definition fits_scanner (input : string) : Prop :=
  Forall (fun l => Z.of_nat (length l) < bufio.MaxScanTokenSize)
    (bufio.lines_from [] (bytes_of input)).

(** The lines [translateOpenTsdb] does not skip. *)
Definition blank (line : string) : Prop := strings.TrimSpace line = "".
Definition data_lines (lines : list string) : list string :=
  filter (fun l => ¬ blank l) lines.

(** A data point with its timestamp erased. *)
Definition erase_timestamp (dp : DataPoint) : DataPoint :=
  {| dp_Metric := dp_Metric dp; dp_Timestamp := 0;
     dp_Value := dp_Value dp; dp_Tags := dp_Tags dp |}.

(** ** runCommand *)

(** How a child process ended, as [cmd.Wait] learns it. *)
Inductive ProcessState :=
  | Exited (code : Z)
  | Signaled (sig : Z).

(** The [error] values [runCommand] can return, as far as the program
    tells them apart. *)
Inductive context_error :=
  | Canceled            (* context.Canceled *)
  | DeadlineExceeded.   (* context.DeadlineExceeded *)

Inductive error :=
  | ContextError (e : context_error)
  | ExitError (st : ProcessState)
  | Errorf (msg : string).

(** The case a [select] statement of the wait loop takes. *)
Inductive select_case :=
  | CtxDone   (* <-ctx.Done() *)
  | ChDone.   (* <-chdone *)

(** What one invocation meets: the outcome of every call [runCommand]
    makes on the operating system and on its context.  [ctx_Done] tells
    whether the context has reached its Done state by the time
    [runCommand] returns; the code learns of it only through a select
    that takes the [<-ctx.Done()] case. *)
Record Env := {
  StdoutPipe_err : option string;    (* the error of [cmd.StdoutPipe], if any *)
  StderrPipe_err : option string;    (* the error of [cmd.StderrPipe], if any *)
  Start_err : option string;         (* the error of [cmd.Start], if any *)
  selects : list select_case;        (* the cases the successive selects take *)
  state : option ProcessState;       (* how the child ends, if it ever does *)
  ctx_Done : bool;                   (* [ctx.Done()] is closed in the end *)
  ctx_Err : context_error;           (* [ctx.Err()] once [Done] is closed *)
  stdout : string;                   (* the buffers when [runCommand] reads them *)
  stderr : string
}.

(** [cmd.Wait] blocks until the child has exited: [None] when it never
    does.  Its error is nil exactly when the child exits with status
    zero. *)
Definition cmd_Wait (st : option ProcessState) : option (option error) :=
  match st with
  | None => None
  | Some (Exited 0) => Some None
  | Some st => Some (Some (ExitError st))
  end.

(** The loop [for !ctxdone && closed < 2 { select ... }].  A select with no
    case left to take blocks for ever: [None]. *)
Fixpoint wait_loop (sel : list select_case) (closed : Z) (ctxdone : bool)
    : option (Z * bool) :=
  if negb ctxdone && (closed <? 2) then
    match sel with
    | [] => None
    | CtxDone :: rest => wait_loop rest closed true
    | ChDone :: rest => wait_loop rest (closed + 1) ctxdone
    end
  else Some (closed, ctxdone).

Definition runCommand (env : Env) : option (string * option error) :=
  match StdoutPipe_err env with
  | Some err => Some ("", Some (Errorf ("unable to create stdout pipe: " ++ err)))
  | None =>
    match StderrPipe_err env with
    | Some err => Some ("", Some (Errorf ("unable to create stderr pipe: " ++ err)))
    | None =>
      match Start_err env with
      | Some err => Some ("", Some (Errorf ("failed to start child: " ++ err)))
      | None =>
        match wait_loop (selects env) 0 false with
        | None => None
        | Some (_, ctxdone) =>
          match cmd_Wait (state env) with
          | None => None
          | Some err =>
            let err := if ctxdone then Some (ContextError (ctx_Err env)) else err in
            let err :=
              match err with
              | None =>
                if negb (Z.of_nat (String.length (stderr env)) =? 0)
                then Some (Errorf ("got stderr output: " ++ stderr env))
                else None
              | Some _ => err
              end in
            Some (stdout env, err)
          end
        end
      end
    end
  end.

(** Whether the wait loop of an invocation leaves through the
    [<-ctx.Done()] case. *)
Definition ctxdone (env : Env) : bool :=
  match wait_loop (selects env) 0 false with
  | Some (_, true) => true
  | _ => false
  end.

(** The invocation reaches [cmd.Wait]. *)
Definition started (env : Env) : Prop :=
  StdoutPipe_err env = None ∧ StderrPipe_err env = None ∧ Start_err env = None.

(** A select takes the [<-ctx.Done()] case only of a context that is done,
    and a context that is done remains so. *)
Definition coherent (env : Env) : Prop :=
  ctxdone env = true -> ctx_Done env = true.

(** ** ScriptHandler.Start *)

(** A [runresult]. *)
Record runresult := {
  output : string;
  err : option error
}.

(** A [runreq]: the script to run and, standing for its context and for
    the script's behaviour, what the invocation will meet.  The result
    channel of a request is the slot with the number of its arrival. *)
Record runreq := {
  script : string;
  child : Env
}.

(** The threads: the admission loop and the goroutines it starts, numbered
    in the order they are started. *)
Inductive tid :=
  | Loop
  | Task (i : nat).

(** Where the admission loop stands: the line of main.go it executes next,
    with the request in hand, its number, and [curChildCount] once read.
    An increment is a load followed by a store. *)
Inductive loop_pc :=
  | L148                                          (* for req := range sh.reqchan *)
  | L149 (id : nat) (req : runreq)                (* sh.mtx.Lock() *)
  | L150 (id : nat) (req : runreq)                (* curChildCount := ... *)
  | L151 (id : nat) (req : runreq) (cur : Z)      (* sh.mtx.Unlock() *)
  | L153 (id : nat) (req : runreq) (cur : Z)      (* if curChildCount >= ... *)
  | L154 (id : nat) (req : runreq) (cur : Z)      (* mConcExceeds ... Add(1) *)
  | L156 (id : nat) (req : runreq) (cur : Z)      (* req.result <- ...; continue *)
  | L160 (id : nat) (req : runreq)                (* sh.mtx.Lock() *)
  | L161 (id : nat) (req : runreq)                (* sh.numChildren[...]++: load *)
  | L161w (id : nat) (req : runreq) (n : Z)       (* sh.numChildren[...]++: store *)
  | L162 (id : nat) (req : runreq)                (* sh.mtx.Unlock() *)
  | L164 (id : nat) (req : runreq)                (* mRunning ... Add(1) *)
  | L166 (id : nat) (req : runreq).               (* go func(req runreq) {...}(req) *)

(** Where a goroutine stands, with [output] and [err] once [runCommand]
    has returned. *)
Inductive task_pc :=
  | T167                                          (* mRuns ... Add(1) *)
  | T172                                          (* output, err := runCommand(...) *)
  | T176 (out : string) (e : option error)        (* if err != nil {mErrors ...} *)
  | T179 (out : string) (e : option error)        (* if err == DeadlineExceeded ... *)
  | T183 (out : string) (e : option error)        (* sh.mtx.Lock() *)
  | T184 (out : string) (e : option error)        (* sh.numChildren[...]--: load *)
  | T184w (out : string) (e : option error) (n : Z) (* sh.numChildren[...]--: store *)
  | T185 (out : string) (e : option error)        (* sh.mtx.Unlock() *)
  | T186 (out : string) (e : option error)        (* mRunning ... Add(-1) *)
  | T188 (out : string) (e : option error)        (* req.result <- ... *)
  | TDone.

Record task := {
  t_id : nat;
  t_req : runreq;
  t_pc : task_pc
}.

(** The counter vectors, by script name.  Their values are integral, so
    they are kept in [Z]. *)
Record counters := {
  mConcExceeds : gmap string Z;
  mRunning : gmap string Z;
  mRuns : gmap string Z;
  mErrors : gmap string Z;
  mTimeouts : gmap string Z
}.

Record State := {
  numChildren : gmap string Z;       (* sh.numChildren *)
  mtx : option tid;                  (* who holds sh.mtx *)
  pc : loop_pc;
  tasks : list task;
  queue : list runreq;               (* the senders blocked on sh.reqchan *)
  next : nat;                        (* the requests received so far *)
  slots : gmap nat (list runresult); (* what each result channel was sent *)
  ctrs : counters
}.

(** Reading a [map[string]int]: zero for a missing key. *)
Definition get (m : gmap string Z) (k : string) : Z := default 0 (m !! k).
Definition add (m : gmap string Z) (k : string) (d : Z) : gmap string Z :=
  <[k := get m k + d]> m.

Definition sent (sl : gmap nat (list runresult)) (id : nat) : list runresult :=
  default [] (sl !! id).
Definition send (sl : gmap nat (list runresult)) (id : nat) (r : runresult)
    : gmap nat (list runresult) :=
  <[id := sent sl id ++ [r]]> sl.

Definition with_pc (s : State) (p : loop_pc) : State :=
  {| numChildren := numChildren s; mtx := mtx s; pc := p; tasks := tasks s;
     queue := queue s; next := next s; slots := slots s; ctrs := ctrs s |}.
Definition with_mtx (s : State) (m : option tid) : State :=
  {| numChildren := numChildren s; mtx := m; pc := pc s; tasks := tasks s;
     queue := queue s; next := next s; slots := slots s; ctrs := ctrs s |}.
Definition with_numChildren (s : State) (n : gmap string Z) : State :=
  {| numChildren := n; mtx := mtx s; pc := pc s; tasks := tasks s;
     queue := queue s; next := next s; slots := slots s; ctrs := ctrs s |}.
Definition with_tasks (s : State) (ts : list task) : State :=
  {| numChildren := numChildren s; mtx := mtx s; pc := pc s; tasks := ts;
     queue := queue s; next := next s; slots := slots s; ctrs := ctrs s |}.
Definition with_slots (s : State) (sl : gmap nat (list runresult)) : State :=
  {| numChildren := numChildren s; mtx := mtx s; pc := pc s; tasks := tasks s;
     queue := queue s; next := next s; slots := sl; ctrs := ctrs s |}.
Definition with_ctrs (s : State) (c : counters) : State :=
  {| numChildren := numChildren s; mtx := mtx s; pc := pc s; tasks := tasks s;
     queue := queue s; next := next s; slots := slots s; ctrs := c |}.
Definition receive (s : State) (req : runreq) (q : list runreq) : State :=
  {| numChildren := numChildren s; mtx := mtx s; pc := L149 (next s) req;
     tasks := tasks s; queue := q; next := S (next s); slots := slots s;
     ctrs := ctrs s |}.

Definition add_ConcExceeds (c : counters) (k : string) : counters :=
  {| mConcExceeds := add (mConcExceeds c) k 1; mRunning := mRunning c;
     mRuns := mRuns c; mErrors := mErrors c; mTimeouts := mTimeouts c |}.
Definition add_Running (c : counters) (k : string) (d : Z) : counters :=
  {| mConcExceeds := mConcExceeds c; mRunning := add (mRunning c) k d;
     mRuns := mRuns c; mErrors := mErrors c; mTimeouts := mTimeouts c |}.
Definition add_Runs (c : counters) (k : string) : counters :=
  {| mConcExceeds := mConcExceeds c; mRunning := mRunning c;
     mRuns := add (mRuns c) k 1; mErrors := mErrors c; mTimeouts := mTimeouts c |}.
Definition add_Errors (c : counters) (k : string) : counters :=
  {| mConcExceeds := mConcExceeds c; mRunning := mRunning c;
     mRuns := mRuns c; mErrors := add (mErrors c) k 1; mTimeouts := mTimeouts c |}.
Definition add_Timeouts (c : counters) (k : string) : counters :=
  {| mConcExceeds := mConcExceeds c; mRunning := mRunning c;
     mRuns := mRuns c; mErrors := mErrors c; mTimeouts := add (mTimeouts c) k 1 |}.

(** The error of line 155. *)
Definition rejected (req : runreq) (cur : Z) : runresult :=
  {| output := "";
     err := Some (Errorf ("can't spawn a new instance of script '" ++ script req
                          ++ "': already have " ++ NilZero.string_of_int (Z.to_int cur)
                          ++ " running")) |}.

Section Dispatcher.

(** [sh.scriptWorkers]. *)
Variable scriptWorkers : Z.

(** One step of the admission loop; [None] when it is blocked (on the
    channel, or on the mutex). *)
Definition loop_step (s : State) : option State :=
  match pc s with
  | L148 =>
    match queue s with
    | [] => None
    | req :: q => Some (receive s req q)
    end
  | L149 id req =>
    match mtx s with
    | None => Some (with_pc (with_mtx s (Some Loop)) (L150 id req))
    | Some _ => None
    end
  | L150 id req => Some (with_pc s (L151 id req (get (numChildren s) (script req))))
  | L151 id req cur => Some (with_pc (with_mtx s None) (L153 id req cur))
  | L153 id req cur =>
    if scriptWorkers <=? cur then Some (with_pc s (L154 id req cur))
    else Some (with_pc s (L160 id req))
  | L154 id req cur =>
    Some (with_pc (with_ctrs s (add_ConcExceeds (ctrs s) (script req))) (L156 id req cur))
  | L156 id req cur =>
    Some (with_pc (with_slots s (send (slots s) id (rejected req cur))) L148)
  | L160 id req =>
    match mtx s with
    | None => Some (with_pc (with_mtx s (Some Loop)) (L161 id req))
    | Some _ => None
    end
  | L161 id req => Some (with_pc s (L161w id req (get (numChildren s) (script req))))
  | L161w id req n =>
    Some (with_pc
            (with_numChildren s (<[script req := wrap_int (n + 1)]> (numChildren s)))
            (L162 id req))
  | L162 id req => Some (with_pc (with_mtx s None) (L164 id req))
  | L164 id req =>
    Some (with_pc (with_ctrs s (add_Running (ctrs s) (script req) 1)) (L166 id req))
  | L166 id req =>
    Some (with_pc
            (with_tasks s (tasks s ++ [{| t_id := id; t_req := req; t_pc := T167 |}]))
            L148)
  end.

Definition at_pc (t : task) (p : task_pc) : task :=
  {| t_id := t_id t; t_req := t_req t; t_pc := p |}.

(** One step of the [i]-th goroutine; [None] when it does not exist, is
    blocked (on the mutex, or in a [runCommand] that never returns), or
    has finished. *)
Definition task_step (i : nat) (s : State) : option State :=
  match tasks s !! i with
  | None => None
  | Some t =>
    let k := script (t_req t) in
    let move s p := with_tasks s (<[i := at_pc t p]> (tasks s)) in
    match t_pc t with
    | T167 => Some (move (with_ctrs s (add_Runs (ctrs s) k)) T172)
    | T172 =>
      match runCommand (child (t_req t)) with
      | None => None
      | Some (out, e) => Some (move s (T176 out e))
      end
    | T176 out e =>
      match e with
      | Some _ => Some (move (with_ctrs s (add_Errors (ctrs s) k)) (T179 out e))
      | None => Some (move s (T179 out e))
      end
    | T179 out e =>
      match e with
      | Some (ContextError DeadlineExceeded) =>
        Some (move (with_ctrs s (add_Timeouts (ctrs s) k)) (T183 out e))
      | _ => Some (move s (T183 out e))
      end
    | T183 out e =>
      match mtx s with
      | None => Some (move (with_mtx s (Some (Task i))) (T184 out e))
      | Some _ => None
      end
    | T184 out e => Some (move s (T184w out e (get (numChildren s) k)))
    | T184w out e n =>
      Some (move (with_numChildren s (<[k := wrap_int (n - 1)]> (numChildren s)))
              (T185 out e))
    | T185 out e => Some (move (with_mtx s None) (T186 out e))
    | T186 out e => Some (move (with_ctrs s (add_Running (ctrs s) k (-1))) (T188 out e))
    | T188 out e =>
      Some (move (with_slots s (send (slots s) (t_id t) {| output := out; err := e |}))
              TDone)
    | TDone => None
    end
  end.

(** A step of the program is a step of one of its threads. *)
Definition step (t : tid) (s s' : State) : Prop :=
  match t with
  | Loop => loop_step s = Some s'
  | Task i => task_step i s = Some s'
  end.

End Dispatcher.

Definition no_counters : counters :=
  {| mConcExceeds := ∅; mRunning := ∅; mRuns := ∅; mErrors := ∅; mTimeouts := ∅ |}.

(** The handler [NewScriptHandler] returns, with [go sh.Start()] at its
    first line, and the requests that will arrive, in the order they do. *)
Definition init (reqs : list runreq) : State :=
  {| numChildren := ∅; mtx := None; pc := L148; tasks := []; queue := reqs;
     next := 0%nat; slots := ∅; ctrs := no_counters |}.

(** The states the program reaches. *)
Inductive reachable (scriptWorkers : Z) (reqs : list runreq) : State -> Prop :=
  | reachable_init : reachable scriptWorkers reqs (init reqs)
  | reachable_step s t s' :
      reachable scriptWorkers reqs s -> step scriptWorkers t s s' ->
      reachable scriptWorkers reqs s'.

(** The work a state still has to do: every step uses some of it up. *)
Definition task_weight (p : task_pc) : nat :=
  match p with
  | T167 => 10 | T172 => 9 | T176 _ _ => 8 | T179 _ _ => 7 | T183 _ _ => 6
  | T184 _ _ => 5 | T184w _ _ _ => 4 | T185 _ _ => 3 | T186 _ _ => 2
  | T188 _ _ => 1 | TDone => 0
  end%nat.

Definition loop_weight (p : loop_pc) : nat :=
  match p with
  | L148 => 0 | L149 _ _ => 20 | L150 _ _ => 19 | L151 _ _ _ => 18
  | L153 _ _ _ => 17 | L154 _ _ _ => 2 | L156 _ _ _ => 1
  | L160 _ _ => 16 | L161 _ _ => 15 | L161w _ _ _ => 14 | L162 _ _ => 13
  | L164 _ _ => 12 | L166 _ _ => 11
  end%nat.

Definition tasks_weight (ts : list task) : nat :=
  sum_list (map (fun t => task_weight (t_pc t)) ts).

Definition measure (s : State) : nat :=
  (21 * length (queue s) + loop_weight (pc s) + tasks_weight (tasks s))%nat.

(** ** regatherer *)

(** [dto.LabelPair], [dto.Metric] and [dto.MetricFamily]. *)
Record LabelPair := {
  lp_Name : string;
  lp_Value : string
}.

Inductive MetricType := COUNTER | GAUGE | SUMMARY | UNTYPED | HISTOGRAM.

Record dto_Metric := {
  Label : list LabelPair;
  m_Value : float;
  m_TimestampMs : option Z
}.

Record MetricFamily := {
  fam_Name : string;
  fam_Help : string;
  fam_Type : MetricType;
  fam_Metric : list dto_Metric
}.

(** [regatherer]: every name points to its own family. *)
Abbreviation regatherer := (gmap string MetricFamily).

(** [LabelPairSorter.Less] on two label pairs. *)
Definition Less (a b : LabelPair) : bool := String.ltb (lp_Name a) (lp_Name b).

(** What [sort.Sort] leaves: no element is [Less] than one before it. *)
Definition sorted_labels (l : list LabelPair) : Prop :=
  Sorted (fun a b => Less b a = false) l.

Section Gatherer.

(** The slice after [sort.Sort(prometheus.LabelPairSorter(l))]. *)
Variable sort_Sort : list LabelPair -> list LabelPair.
(** The order in which [range r] visits the families. *)
Variable rangeFams : regatherer -> list (string * MetricFamily).

Definition sort_metric (m : dto_Metric) : dto_Metric :=
  {| Label := sort_Sort (Label m); m_Value := m_Value m;
     m_TimestampMs := m_TimestampMs m |}.

(** The inner loop: the labels of every metric of the family are sorted
    in place. *)
Definition sort_family (fam : MetricFamily) : MetricFamily :=
  {| fam_Name := fam_Name fam; fam_Help := fam_Help fam; fam_Type := fam_Type fam;
     fam_Metric := map sort_metric (fam_Metric fam) |}.

Fixpoint Gather_loop (visit : list (string * MetricFamily)) (fams : list MetricFamily)
    : list MetricFamily :=
  match visit with
  | [] => fams
  | (_, fam) :: rest => Gather_loop rest (fams ++ [sort_family fam])
  end.

(** [Gather]: the families and the nil error it returns, and the receiver
    after the call, whose families have been sorted in place. *)
Definition Gather (r : regatherer) : (list MetricFamily * option string) * regatherer :=
  ((Gather_loop (rangeFams r) [], None), sort_family <$> r).

End Gatherer.

(** An instance of [sort.Sort] for evaluation: merge sort on the names. *)
Definition name_le (a b : LabelPair) : Prop := String.leb (lp_Name a) (lp_Name b) = true.

Global Instance name_le_dec a b : Decision (name_le a b).
Proof. unfold name_le. apply _. Defined.

Definition merge_sort_labels (l : list LabelPair) : list LabelPair :=
  merge_sort name_le l.

(** Two lines that differ at most in their timestamp field, which parses
    as an integer in both. *)
Definition same_but_timestamp (l1 l2 : string) : Prop :=
  l1 = l2 ∨
  ∃ sp0 t1 t2 rest,
    strings.Fields l1 = sp0 :: t1 :: rest ∧ strings.Fields l2 = sp0 :: t2 :: rest ∧
    is_Some (strconv.ParseInt t1) ∧ is_Some (strconv.ParseInt t2).

(** What the errors of [parseTcollectorValue] say of the line they come
    from: the line itself, or the field that was refused. *)
Definition names_line (line err : string) : Prop :=
  err = ("bad line: " ++ line)%string ∨
  ∃ sp0 sp1 sp2 rest,
    strings.Fields line = sp0 :: sp1 :: sp2 :: rest ∧
    (err = ("bad timestamp: " ++ sp1)%string ∨ err = ("bad value: " ++ sp2)%string ∨
     err = ("bad metric: " ++ sp0)%string ∨
     ∃ tag msg, tag ∈ rest ∧
       err = ("bad tag, metric " ++ sp0 ++ ": " ++ tag ++ ": " ++ msg)%string).

(** Two results of [parseTcollectorValue] that are both errors, or data
    points equal up to their timestamp. *)
Definition agree_but_timestamp (r1 r2 : result DataPoint) : Prop :=
  match r1, r2 with
  | Ok d1, Ok d2 => erase_timestamp d1 = erase_timestamp d2
  | Err _, Err _ => True
  | _, _ => False
  end.

Definition agree_all_but_timestamp (r1 r2 : result (list DataPoint)) : Prop :=
  match r1, r2 with
  | Ok d1, Ok d2 => map erase_timestamp d1 = map erase_timestamp d2
  | Err _, Err _ => True
  | _, _ => False
  end.

(** A tag as [dpointsToMetrics] writes it into the labels. *)
Definition sanitize_pair (kv : string * string) : string * string :=
  (makeValidPromName kv.1, kv.2).

(** What [NewDesc] checks of its arguments. *)
Definition named_well (IsValidMetricName checkLabelName : string -> bool)
    (fqName help : string) (variableLabels : list string)
    (constLabels : gmap string string) : Prop :=
  help <> "" ∧ IsValidMetricName fqName = true ∧
  (∀ k, is_Some (constLabels !! k) -> checkLabelName k = true) ∧
  Forall (fun l => checkLabelName l = true) variableLabels ∧
  NoDup ((map_to_list constLabels).*1 ++ variableLabels).

(** The data points whose descriptor [NewDesc] accepts, given the two
    checks of the client library: the sanitized metric name is a metric
    name and the sanitized key of every tag is a label name. *)
Definition accepted (IsValidMetricName checkLabelName : string -> bool)
    (dp : DataPoint) : Prop :=
  IsValidMetricName (makeValidPromName (dp_Metric dp)) = true ∧
  ∀ k, is_Some (dp_Tags dp !! k) -> checkLabelName (makeValidPromName k) = true.

(** The labels of a metric against the tags of its data point.  Every label
    value is the value of a tag, under that tag's sanitized key.  When the
    descriptor is accepted it has no error and a tag whose sanitized key no
    other tag shares is a label; when it is not, the descriptor has an
    error and no label at all. *)
Definition carries_tags (IsValidMetricName checkLabelName : string -> bool)
    (dp : DataPoint) (m : constMetric) : Prop :=
  (∀ k' v, constLabels (desc m) !! k' = Some v ->
           ∃ k, dp_Tags dp !! k = Some v ∧ makeValidPromName k = k') ∧
  (accepted IsValidMetricName checkLabelName dp ->
   desc_err (desc m) = None ∧
   ∀ k v, dp_Tags dp !! k = Some v ->
          (∀ k2, is_Some (dp_Tags dp !! k2) ->
                 makeValidPromName k2 = makeValidPromName k -> k2 = k) ->
          constLabels (desc m) !! makeValidPromName k = Some v) ∧
  (¬ accepted IsValidMetricName checkLabelName dp ->
   desc_err (desc m) <> None ∧ constLabels (desc m) = ∅).

(** The input of [TestTranslateOpentsdb], with the timestamps 1000 and
    1001. *)
Definition test_input : string :=
  "a.a 1000 9 l1=v1" ++ newline ++ "a.b 1001 99 l2=v2 l3=v3".

Definition is_Ok {A : Type} (r : result A) : bool :=
  match r with Ok _ => true | Err _ => false end.

(** [parseTcollectorValue] at the instances. *)
Definition parse_eval (line : string) : result DataPoint :=
  parseTcollectorValue ParseFloat_integers opentsdb.ValidTSDBString opentsdb.ParseTags line.

(** A single well-formed line of 70008 bytes. *)
Definition long_line : string :=
  "m 1 1 k=" ++ string_of (repeat 118 (Z.to_nat 70000)).

(** Two single-line inputs that differ in their timestamp field only, [1]
    and [1] behind a thousand zeros: 65008 and 66008 bytes. *)
Definition padded_timestamp : string := string_of (repeat 48 (Z.to_nat 1000)) ++ "1".
Definition long_tag : string := "k=" ++ string_of (repeat 118 (Z.to_nat 65000)).
Definition plain_input : string := "m 1 1 " ++ long_tag.
Definition padded_input : string := "m " ++ padded_timestamp ++ " 1 " ++ long_tag.

(** A line with two tags whose keys are sanitized to the same label. *)
Definition collision_input : string := "m 1000 9 a.b=1 a_b=2".

(** A line whose metric name starts with a digit, and an input whose
    second line is empty. *)
Definition leading_digit_input : string := "1abc 1000 9 k=v".
Definition blank_line_input : string := "a.a 1000 9 l1=v1" ++ newline ++ newline.

(** The input of the test suite with other timestamps. *)
Definition test_input_later : string :=
  "a.a 2000 9 l1=v1" ++ newline ++ "a.b 2001 99 l2=v2 l3=v3".

(** *** What the states the handler reaches have in common *)

(** The request the loop has in hand. *)
Definition in_hand (p : loop_pc) : option (nat * runreq) :=
  match p with
  | L148 => None
  | L149 id req | L150 id req | L151 id req _ | L153 id req _ | L154 id req _
  | L156 id req _ | L160 id req | L161 id req | L161w id req _ | L162 id req
  | L164 id req | L166 id req => Some (id, req)
  end.

(** The lines between [Lock] and [Unlock]. *)
Definition loop_locked (p : loop_pc) : bool :=
  match p with
  | L150 _ _ | L151 _ _ _ | L161 _ _ | L161w _ _ _ | L162 _ _ => true
  | _ => false
  end.

Definition task_locked (p : task_pc) : bool :=
  match p with
  | T184 _ _ | T184w _ _ _ | T185 _ _ => true
  | _ => false
  end.

(** A goroutine is counted in [numChildren] until it has stored its
    decrement; the request in hand is, once the loop has stored its
    increment. *)
Definition counted (p : task_pc) : bool :=
  match p with
  | T185 _ _ | T186 _ _ | T188 _ _ | TDone => false
  | _ => true
  end.

Definition loop_counted (p : loop_pc) : bool :=
  match p with
  | L162 _ _ | L164 _ _ | L166 _ _ => true
  | _ => false
  end.

Definition counts_for (k : string) (t : task) : Z :=
  if counted (t_pc t) && bool_decide (script (t_req t) = k) then 1 else 0.

Fixpoint running (k : string) (ts : list task) : Z :=
  match ts with
  | [] => 0
  | t :: ts => counts_for k t + running k ts
  end.

Definition pending (k : string) (p : loop_pc) : Z :=
  match in_hand p with
  | Some (_, req) => if loop_counted p && bool_decide (script req = k) then 1 else 0
  | None => 0
  end.

(** The mutex is held by the thread that stands between [Lock] and
    [Unlock], and by no other. *)
Definition mutex_inv (s : State) : Prop :=
  (loop_locked (pc s) = true <-> mtx s = Some Loop) ∧
  (∀ i, mtx s = Some (Task i) <->
        ∃ t, tasks s !! i = Some t ∧ task_locked (t_pc t) = true).

(** The table counts the goroutines that are running, and what a thread
    has loaded under the mutex is still in the table. *)
Definition loop_load_ok (s : State) : Prop :=
  match pc s with
  | L161w _ req n => n = get (numChildren s) (script req)
  | _ => True
  end.

Definition task_load_ok (s : State) (t : task) : Prop :=
  match t_pc t with
  | T184w _ _ n => n = get (numChildren s) (script (t_req t))
  | _ => True
  end.

Definition count_inv (s : State) : Prop :=
  (∀ k, get (numChildren s) k = running k (tasks s) + pending k (pc s)) ∧
  loop_load_ok s ∧
  (∀ i t, tasks s !! i = Some t -> task_load_ok s t).

(** The table stays within the maximum, and what the loop has read stays
    an upper bound of the entry it read. *)
Definition loop_bound_ok (scriptWorkers : Z) (s : State) : Prop :=
  match pc s with
  | L151 _ req cur | L153 _ req cur => get (numChildren s) (script req) <= cur
  | L160 _ req | L161 _ req => get (numChildren s) (script req) < scriptWorkers
  | L161w _ req n => n < scriptWorkers
  | _ => True
  end.

Definition bound_inv (scriptWorkers : Z) (s : State) : Prop :=
  (∀ k, get (numChildren s) k <= Z.max 0 scriptWorkers) ∧
  loop_bound_ok scriptWorkers s.

Definition table_inv (scriptWorkers : Z) (s : State) : Prop :=
  mutex_inv s ∧ count_inv s ∧ bound_inv scriptWorkers s.

(** The requests dispatched so far: all those received, but the one in
    hand. *)
Definition settled (s : State) : nat :=
  match in_hand (pc s) with
  | Some _ => pred (next s)
  | None => next s
  end.

(** What [runCommand] returned, where a goroutine holds it. *)
Definition returned (p : task_pc) : option (string * option error) :=
  match p with
  | T176 out e | T179 out e | T183 out e | T184 out e | T184w out e _
  | T185 out e | T186 out e | T188 out e => Some (out, e)
  | _ => None
  end.

Definition is_done (p : task_pc) : bool :=
  match p with TDone => true | _ => false end.

(** A request was admitted: goroutine [i] runs it, and its channel has
    been sent the result of [runCommand] once the goroutine is done, and
    nothing before. *)
Definition admitted (s : State) (id : nat) : Prop :=
  ∃ i t, tasks s !! i = Some t ∧ t_id t = id ∧
    if is_done (t_pc t)
    then ∃ out e, runCommand (child (t_req t)) = Some (out, e) ∧
                  sent (slots s) id = [{| output := out; err := e |}]
    else sent (slots s) id = [].

(** A request was rejected: no goroutine runs it, and its channel has been
    sent one result, with no output and the error that says how many
    instances of the script, at least the maximum, were counted. *)
Definition turned_down (scriptWorkers : Z) (reqs : list runreq) (s : State) (id : nat)
    : Prop :=
  (∀ i t, tasks s !! i = Some t -> t_id t <> id) ∧
  ∃ req cur, reqs !! id = Some req ∧ scriptWorkers <= cur ∧
    sent (slots s) id
    = [{| output := "";
          err := Some (Errorf ("can't spawn a new instance of script '" ++ script req
                               ++ "': already have "
                               ++ NilZero.string_of_int (Z.to_int cur)
                               ++ " running")) |}].

(** The request in hand is the last one received; on the path of a
    rejection the count read is at least the maximum. *)
Definition in_hand_ok (scriptWorkers : Z) (reqs : list runreq) (s : State) : Prop :=
  match in_hand (pc s) with
  | Some (id, req) => next s = S id ∧ reqs !! id = Some req
  | None => True
  end ∧
  match pc s with
  | L154 _ _ cur | L156 _ _ cur => scriptWorkers <= cur
  | _ => True
  end.

(** A goroutine runs a request received before the one in hand, and holds
    what [runCommand] returned for it. *)
Definition task_ok (reqs : list runreq) (s : State) (t : task) : Prop :=
  (t_id t < settled s)%nat ∧ reqs !! t_id t = Some (t_req t) ∧
  match returned (t_pc t) with
  | Some r => runCommand (child (t_req t)) = Some r
  | None => True
  end.

Definition channel_inv (scriptWorkers : Z) (reqs : list runreq) (s : State) : Prop :=
  (next s <= length reqs)%nat ∧ queue s = drop (next s) reqs ∧
  in_hand_ok scriptWorkers reqs s ∧
  (∀ i t, tasks s !! i = Some t -> task_ok reqs s t) ∧
  (∀ i j t t', tasks s !! i = Some t -> tasks s !! j = Some t' -> t_id t = t_id t' -> i = j) ∧
  (∀ id, (settled s <= id)%nat -> sent (slots s) id = []) ∧
  (∀ id, (id < settled s)%nat -> admitted s id ∨ turned_down scriptWorkers reqs s id).

(** Nothing is left to do: the loop waits for a request that will not
    come, and every goroutine has returned. *)
Definition quiescent (s : State) : Prop :=
  pc s = L148 ∧ queue s = [] ∧ Forall (fun t => t_pc t = TDone) (tasks s).

(** A schedule: the threads that take the successive steps. *)
Fixpoint run (scriptWorkers : Z) (sched : list tid) (s : State) : option State :=
  match sched with
  | [] => Some s
  | Loop :: sched =>
    match loop_step scriptWorkers s with
    | Some s' => run scriptWorkers sched s'
    | None => None
    end
  | Task i :: sched =>
    match task_step i s with
    | Some s' => run scriptWorkers sched s'
    | None => None
    end
  end.

(** An invocation of a script that cannot be started: the token never
    fires and nothing is written.  The child never runs, so [state] is
    never consulted. *)
Definition missing_script : Env :=
  {| StdoutPipe_err := None; StderrPipe_err := None;
     Start_err := Some "fork/exec /scripts/missing: no such file or directory";
     selects := []; state := None; ctx_Done := false; ctx_Err := Canceled;
     stdout := ""; stderr := "" |}.

(** Invocations in the manner of [TestRunCommand] and
    [TestRunCommandCancel]: [echo test], and a script killed at its
    deadline after it has written part of its output. *)
Definition echo_test : Env :=
  {| StdoutPipe_err := None; StderrPipe_err := None; Start_err := None;
     selects := [ChDone; ChDone]; state := Some (Exited 0);
     ctx_Done := false; ctx_Err := Canceled;
     stdout := "test" ++ newline; stderr := "" |}.

Definition timed_out : Env :=
  {| StdoutPipe_err := None; StderrPipe_err := None; Start_err := None;
     selects := [CtxDone; ChDone]; state := Some (Signaled 9);
     ctx_Done := true; ctx_Err := DeadlineExceeded;
     stdout := "partial"; stderr := "" |}.

(** A script that closes its stdout and its stderr and goes on running
    past the deadline: both selects of the wait loop take [<-chdone], the
    deadline passes while [cmd.Wait] blocks, and the child is killed, as
    [exec.CommandContext] does when its context is done. *)
Definition killed_in_Wait : Env :=
  {| StdoutPipe_err := None; StderrPipe_err := None; Start_err := None;
     selects := [ChDone; ChDone]; state := Some (Signaled 9);
     ctx_Done := true; ctx_Err := DeadlineExceeded;
     stdout := ""; stderr := "" |}.

(** What [Gather] does to a metric: labels sorted, the same labels, and
    nothing else touched. *)
Definition labels_sorted_of (m m' : dto_Metric) : Prop :=
  Label m' ≡ₚ Label m ∧ sorted_labels (Label m') ∧
  m_Value m' = m_Value m ∧ m_TimestampMs m' = m_TimestampMs m.

(** A parse result in the manner of the exposition format: one family
    with one metric, whose labels are not written in order. *)
Definition parsed_family : MetricFamily :=
  {| fam_Name := "up"; fam_Help := "help"; fam_Type := GAUGE;
     fam_Metric :=
       [{| Label := [{| lp_Name := "zone"; lp_Value := "a" |};
                     {| lp_Name := "job"; lp_Value := "b" |}];
           m_Value := 1%float; m_TimestampMs := None |}] |}.

Definition parsed : regatherer := {["up" := parsed_family]}.

(** What a request has been sent when nothing is left to do: one result,
    which is what [runCommand] returned if a goroutine ran the request,
    and otherwise, no goroutine running it, has no output and the error
    of the rejection. *)
Definition answered (scriptWorkers : Z) (s : State) (id : nat) (req : runreq) : Prop :=
  ∃ r, sent (slots s) id = [r] ∧
    ((∃ i t, tasks s !! i = Some t ∧ t_id t = id ∧
             runCommand (child req) = Some (output r, err r)) ∨
     ((∀ i t, tasks s !! i = Some t -> t_id t <> id) ∧
      ∃ cur, scriptWorkers <= cur ∧ output r = "" ∧
        err r = Some (Errorf ("can't spawn a new instance of script '" ++ script req
                              ++ "': already have "
                              ++ NilZero.string_of_int (Z.to_int cur)
                              ++ " running")))).

(** The steps the loop takes in a schedule. *)
Fixpoint loop_steps (sched : list tid) : nat :=
  match sched with
  | [] => 0
  | Loop :: sched => S (loop_steps sched)
  | Task _ :: sched => loop_steps sched
  end.

(** The loop is [n] steps from having rejected the request [id]: where it
    stands, what it has counted and what it has sent. *)
Definition rejecting (id : nat) (req : runreq) (cur : Z) (exceeds : gmap string Z)
    (n : nat) (s : State) : Prop :=
  match n with
  | 5 => pc s = L150 id req ∧ get (numChildren s) (script req) = cur ∧
         mConcExceeds (ctrs s) = exceeds ∧ sent (slots s) id = []
  | 4 => pc s = L151 id req cur ∧
         mConcExceeds (ctrs s) = exceeds ∧ sent (slots s) id = []
  | 3 => pc s = L153 id req cur ∧
         mConcExceeds (ctrs s) = exceeds ∧ sent (slots s) id = []
  | 2 => pc s = L154 id req cur ∧
         mConcExceeds (ctrs s) = exceeds ∧ sent (slots s) id = []
  | 1 => pc s = L156 id req cur ∧
         mConcExceeds (ctrs s) = add exceeds (script req) 1 ∧ sent (slots s) id = []
  | 0 => pc s = L148 ∧
         mConcExceeds (ctrs s) = add exceeds (script req) 1 ∧
         sent (slots s) id = [rejected req cur]
  | _ => False
  end%nat.

(** What the rejection leaves alone: no goroutine is started, none runs
    the request, and no entry of the table grows. *)
Definition untouched (id : nat) (s0 s : State) : Prop :=
  length (tasks s) = length (tasks s0) ∧
  (∀ i t, tasks s !! i = Some t -> t_id t <> id) ∧
  (∀ k, get (numChildren s) k <= get (numChildren s0) k).

(** Two requests for the same script, in the manner of the test suite's
    [echo test], and a handler that runs one at a time.  [at_read] is the
    handler when it has started the first request and is about to read
    the count for the second; [after_rejection] is five steps of the loop
    and two of the first goroutine later. *)
Definition echo_request : runreq := {| script := "echo"; child := echo_test |}.
Definition two_requests : list runreq := [echo_request; echo_request].

Definition at_read : State :=
  default (init two_requests) (run 1 (repeat Loop 13) (init two_requests)).

Definition reject_schedule : list tid := [Loop; Task 0; Loop; Loop; Task 0; Loop; Loop].

Definition after_rejection : State :=
  default at_read (run 1 reject_schedule at_read).

(** The tag tokens that give the key [k] no value. *)
Definition defines_no (ParseTags : string -> result TagSet) (k : string)
    (tokens : list string) : Prop :=
  Forall (fun tag => ∀ ts, ParseTags tag = Ok ts -> ts !! k = None) tokens.

(** ** ServeHTTP and serveMetricsFromText *)

(** The fields of a [ScriptHandler] that are set once, by
    [NewScriptHandler]; [sh.reqchan], [sh.mtx] and [sh.numChildren] are in
    [State].  A [time.Duration] is a number of nanoseconds. *)
Record ScriptHandler := {
  sh_opentsdb : bool;
  sh_metricsPath : string;
  sh_scriptPath : string;
  sh_scriptWorkers : Z;
  sh_timeout : Z
}.

Definition NewScriptHandler (metricsPath scriptPath : string) (opentsdb : bool)
    (scriptWorkers : Z) (timeout : Z) : ScriptHandler :=
  {| sh_metricsPath := metricsPath; sh_scriptPath := scriptPath;
     sh_opentsdb := opentsdb; sh_scriptWorkers := scriptWorkers;
     sh_timeout := timeout |}.

(** [sliceCollector], and its methods [Collect] and [Describe]: a channel
    is what it has been sent, oldest first. *)
Record sliceCollector := {
  metrics : list constMetric
}.

Definition Collect (sc : sliceCollector) (ch : list constMetric) : list constMetric :=
  foldl (fun ch m => ch ++ [m]) ch (metrics sc).

Definition Describe (sc : sliceCollector) (ch : list Desc) : list Desc :=
  foldl (fun ch m => ch ++ [desc m]) ch (metrics sc).

(** The gatherers [serveMetricsFromText] builds: a new registry on which
    the collector was registered (the error of [Register] is dropped), or
    the parsed families as a [regatherer]. *)
Inductive gatherer :=
  | Registry (collector : sliceCollector)
  | Regatherer (nameToFam : regatherer).

(** What a handler does with the response writer. *)
Inductive written :=
  | Nothing                                 (* [w] is left alone *)
  | promhttp_Handler                        (* promhttp.Handler().ServeHTTP(w, r) *)
  | promhttp_HandlerFor (gatherers : list gatherer).
                                            (* promhttp.HandlerFor(...).ServeHTTP(w, r) *)

(** The two lines [ServeHTTP] logs. *)
Inductive log_line :=
  | error_running (script : string) (err : error)
  | error_parsing (script : string) (err : string).

(** What a call of [ServeHTTP] leaves: the response, the log lines, and
    the counter vector [mParseErrors] after it. *)
Record outcome := {
  body : written;
  logged : list log_line;
  mParseErrors : gmap string Z
}.

(** A call of [ServeHTTP] either returns without a word to [Start], or
    sends a request for a script on [sh.reqchan] and goes on with the
    result it receives on the request's channel.  What it leaves depends
    on [mParseErrors] as it stands when the call ends.  The context of the
    request, with its deadline [sh.timeout] from now, is part of what the
    invocation meets: the [child] of the [runreq]. *)
Inductive handler :=
  | Return (o : gmap string Z -> outcome)
  | Request (script : string) (k : runresult -> gmap string Z -> outcome).

Section Serving.

Variable ParseFloat : string -> option float.
Variable ValidTSDBString : string -> bool.
Variable ParseTags : string -> result TagSet.
Variable rangeTags : nat -> TagSet -> list (string * string).
Variable IsValidMetricName : string -> bool.
Variable checkLabelName : string -> bool.
(** [expfmt.TextParser.TextToMetricFamilies]. *)
Variable TextToMetricFamilies : string -> result regatherer.

Definition serveMetricsFromText (opentsdb : bool) (text : string) : written * option string :=
  if opentsdb then
    match translateOpenTsdb ParseFloat ValidTSDBString ParseTags rangeTags
            IsValidMetricName checkLabelName text with
    | (_, Some err) => (Nothing, Some ("Error parsing OpenTSDB text format: " ++ err)%string)
    | (metrics, None) => (promhttp_HandlerFor [Registry {| metrics := metrics |}], None)
    end
  else
    match TextToMetricFamilies text with
    | Err err => (Nothing, Some ("Error parsing Prometheus TextFormat: " ++ err)%string)
    | Ok nameToFam => (promhttp_HandlerFor [Regatherer nameToFam], None)
    end.

(** Lines 137 to 142 of [ServeHTTP]: what it does with the result. *)
Definition respond (sh : ScriptHandler) (script : string) (result : runresult)
    (m : gmap string Z) : outcome :=
  match err result with
  | Some e => {| body := Nothing; logged := [error_running script e]; mParseErrors := m |}
  | None =>
    match serveMetricsFromText (sh_opentsdb sh) (output result) with
    | (w, Some e) =>
      {| body := w; logged := [error_parsing script e]; mParseErrors := add m script 1 |}
    | (w, None) => {| body := w; logged := []; mParseErrors := m |}
    end
  end.

(** [ServeHTTP] for a request of path [path]. *)
Definition ServeHTTP (sh : ScriptHandler) (path : string) : handler :=
  let script := strings.TrimPrefix (strings.TrimPrefix path (sh_metricsPath sh)) "/" in
  if decide (script = "") then
    Return (fun m => {| body := promhttp_Handler; logged := []; mParseErrors := m |})
  else Request script (respond sh script).

End Serving.

(** *** The meta-metrics *)

(** The requests for the script [k] among [reqs]. *)
Fixpoint requests_for (k : string) (reqs : list runreq) : Z :=
  match reqs with
  | [] => 0
  | req :: reqs => (if bool_decide (script req = k) then 1 else 0) + requests_for k reqs
  end.

(** The goroutines that run the script [k] and satisfy [P]. *)
Fixpoint tally (P : task -> bool) (k : string) (ts : list task) : Z :=
  match ts with
  | [] => 0
  | t :: ts => (if P t && bool_decide (script (t_req t) = k) then 1 else 0) + tally P k ts
  end.

(** How far a goroutine has come: past line 167, past line 176, past line
    179, and not yet past line 186. *)
Definition past_167 (p : task_pc) : bool :=
  match p with T167 => false | _ => true end.
Definition past_176 (p : task_pc) : bool :=
  match p with T167 | T172 | T176 _ _ => false | _ => true end.
Definition past_179 (p : task_pc) : bool :=
  match p with T167 | T172 | T176 _ _ | T179 _ _ => false | _ => true end.
Definition before_186 (p : task_pc) : bool :=
  match p with T188 _ _ | TDone => false | _ => true end.

(** What the run of a goroutine's script comes to: an error, and the
    error of a deadline. *)
Definition failed (t : task) : bool :=
  match runCommand (child (t_req t)) with
  | Some (_, Some _) => true
  | _ => false
  end.
Definition deadline_exceeded (t : task) : bool :=
  match runCommand (child (t_req t)) with
  | Some (_, Some (ContextError DeadlineExceeded)) => true
  | _ => false
  end.

(** What the loop has added to a counter for the request in hand, the
    goroutine not being started or the request not being dispatched
    yet. *)
Definition loop_gauged (k : string) (p : loop_pc) : Z :=
  match p with
  | L166 _ req => if bool_decide (script req = k) then 1 else 0
  | _ => 0
  end.
Definition loop_exceeded (k : string) (p : loop_pc) : Z :=
  match p with
  | L156 _ req _ => if bool_decide (script req = k) then 1 else 0
  | _ => 0
  end.

(** Every counter vector tells how many goroutines have passed the line
    that adds to it, and every request dispatched was either given a
    goroutine or counted in [mConcExceeds]. *)
Definition meters_inv (reqs : list runreq) (s : State) : Prop :=
  ∀ k,
    get (mRuns (ctrs s)) k = tally (fun t => past_167 (t_pc t)) k (tasks s) ∧
    get (mErrors (ctrs s)) k = tally (fun t => past_176 (t_pc t) && failed t) k (tasks s) ∧
    get (mTimeouts (ctrs s)) k
    = tally (fun t => past_179 (t_pc t) && deadline_exceeded t) k (tasks s) ∧
    get (mRunning (ctrs s)) k
    = tally (fun t => before_186 (t_pc t)) k (tasks s) + loop_gauged k (pc s) ∧
    get (mConcExceeds (ctrs s)) k + tally (fun _ => true) k (tasks s)
    = requests_for k (take (settled s) reqs) + loop_exceeded k (pc s) ∧
    0 <= get (mConcExceeds (ctrs s)) k.

(** *** Capacity *)

(** The goroutines started for a script are no more than the requests
    dispatched for it; what the loop has read of the table is no more
    either, and it is on the path of a rejection only when the script has
    been requested as often as the maximum before; a request that came
    before fewer requests than that has its goroutine. *)
Definition capacity_inv (scriptWorkers : Z) (reqs : list runreq) (s : State) : Prop :=
  (∀ k, tally (fun _ => true) k (tasks s) <= requests_for k (take (settled s) reqs)) ∧
  match pc s with
  | L151 _ req cur | L153 _ req cur =>
    cur <= requests_for (script req) (take (settled s) reqs)
  | L154 _ req _ | L156 _ req _ =>
    scriptWorkers <= requests_for (script req) (take (settled s) reqs)
  | _ => True
  end ∧
  (∀ id req, (id < settled s)%nat -> reqs !! id = Some req ->
     requests_for (script req) (take id reqs) < scriptWorkers ->
     ∃ i t, tasks s !! i = Some t ∧ t_id t = id).

(** With no worker allowed, nothing is ever run. *)
Definition idle_inv (s : State) : Prop :=
  tasks s = [] ∧ numChildren s = ∅ ∧
  match pc s with
  | L151 _ _ cur | L153 _ _ cur => cur = 0
  | L160 _ _ | L161 _ _ | L161w _ _ _ | L162 _ _ | L164 _ _ | L166 _ _ => False
  | _ => True
  end.

(** *** Data for the further properties *)

(** A line whose second tag token overrides the first, and a text whose
    second line does not parse. *)
Definition overriding_line : string := "m 1000 9 k=a k=b".
Definition broken_input : string :=
  "a.a 1000 9 l1=v1" ++ newline ++ "oops" ++ newline ++ "neither this".

(** A data point with two tags whose keys are sanitized to one name. *)
Definition colliding_point : DataPoint :=
  {| dp_Metric := "m"; dp_Timestamp := 1000; dp_Value := VFloat64 9%float;
     dp_Tags := {["a.b" := "1"; "a_b" := "2"]} |}.

(** A run that succeeds and writes the text of the test suite. *)
Definition good_run : Env :=
  {| StdoutPipe_err := None; StderrPipe_err := None; Start_err := None;
     selects := [ChDone; ChDone]; state := Some (Exited 0);
     ctx_Done := false; ctx_Err := Canceled;
     stdout := test_input; stderr := "" |}.

(** The handler of the default flags, in OpenTSDB mode; the timeout is a
    minute. *)
Definition default_handler : ScriptHandler :=
  NewScriptHandler "/metrics" "" true 1 60000000000.

(** [serveMetricsFromText] and [respond] at the instances; the exposition
    format is not read in OpenTSDB mode. *)
Definition respond_eval : ScriptHandler -> string -> runresult -> gmap string Z -> outcome :=
  respond ParseFloat_integers opentsdb.ValidTSDBString opentsdb.ParseTags
    (fun _ m => map_to_list m)
    prometheus.IsValidMetricName prometheus.checkLabelName (fun _ => Err "not read").

(** The handler of [after_rejection] once its goroutine has returned, and
    a handler with no worker after its first request. *)
Definition all_done : State :=
  default after_rejection (run 1 (repeat (Task 0) 8) after_rejection).

Definition idle : State :=
  default (init two_requests) (run 0 (repeat Loop 7) (init two_requests)).

(** The handler started with [-script-workers=-1], once its loop has dealt
    with the first of two requests. *)
Definition below_zero : State :=
  default (init two_requests) (run (-1) (repeat Loop 7) (init two_requests)).

(** * Properties *)

(** ** makeValidPromName *)

(** The counter is incremented before it is tested, so the test [i > 0]
    holds at the first rune already: a digit is kept wherever it stands. *)
Lemma promNameRune_digit (i r : Z) :
  0 <= i < 2 ^ 63 - 1 -> 48 <= r <= 57 -> promNameRune i r = (i + 1, r).
Proof.
  intros Hi Hr. unfold promNameRune.
  assert (Hw : wrap_int (i + 1) = i + 1).
  { unfold wrap_int. rewrite Z.mod_small; lia. }
  rewrite Hw.
  destruct ((97 <=? r) && (r <=? 122) || (65 <=? r) && (r <=? 90) || (r =? 95)) eqn:E.
  - reflexivity.
  - assert (H1 : (0 <? i + 1) = true) by (apply Z.ltb_lt; lia).
    assert (H2 : (48 <=? r) = true) by (apply Z.leb_le; lia).
    assert (H3 : (r <=? 57) = true) by (apply Z.leb_le; lia).
    rewrite H1, H2, H3. reflexivity.
Qed.

Lemma promNameRune_keeps (i r : Z) :
  0 <= i < 2 ^ 63 - 1 -> promNameRune i r = (i + 1, sanitize_byte r).
Proof.
  intros Hi. unfold promNameRune, sanitize_byte, keeps.
  assert (Hw : wrap_int (i + 1) = i + 1).
  { unfold wrap_int. rewrite Z.mod_small; lia. }
  rewrite Hw.
  assert (H1 : (0 <? i + 1) = true) by (apply Z.ltb_lt; lia).
  rewrite H1.
  destruct ((97 <=? r) && (r <=? 122) || (65 <=? r) && (r <=? 90) || (r =? 95)); simpl;
    [reflexivity|].
  destruct ((48 <=? r) && (r <=? 57)); reflexivity.
Qed.

Lemma sanitize_byte_ascii (b : Z) : 0 <= b < 128 -> 0 <= sanitize_byte b < 128.
Proof. unfold sanitize_byte. destruct (keeps b); lia. Qed.

Lemma Map_runes_ascii (i : Z) (bs : list Z) :
  Forall (fun b => 0 <= b < 128) bs ->
  0 <= i -> i + Z.of_nat (length bs) < 2 ^ 63 ->
  strings.Map_runes promNameRune i (utf8.range_from 0 bs) = map sanitize_byte bs.
Proof.
  intros Hb. revert i. induction Hb as [|b bs Hb0 _ IH]; intros i Hi Hlen; [reflexivity|].
  cbn [utf8.range_from]. unfold utf8.DecodeRune, utf8.RuneSelf.
  destruct (Z.ltb_spec b 128); [|lia].
  cbn [strings.Map_runes take]. simpl length in Hlen.
  rewrite promNameRune_keeps by lia.
  pose proof (sanitize_byte_ascii b Hb0) as Hs.
  destruct (Z.leb_spec 0 (sanitize_byte b)); [|lia].
  unfold utf8.EncodeRune.
  destruct (Z.leb_spec 0 (sanitize_byte b)); [|lia].
  destruct (Z.ltb_spec (sanitize_byte b) 128); [|lia].
  cbn [andb app map Nat.sub]. f_equal. apply IH; lia.
Qed.

(** X5: what [makeValidPromName] does to a name written in ASCII: every byte
    other than a letter, a digit or an underscore becomes an underscore,
    and every digit is kept, the first byte included. *)
Lemma makeValidPromName_ascii (s : string) :
  Forall (fun b => b < 128) (bytes_of s) ->
  Z.of_nat (String.length s) < 2 ^ 63 ->
  makeValidPromName s = string_of (map sanitize_byte (bytes_of s)).
Proof.
  intros Hb Hlen. unfold makeValidPromName, strings.Map, utf8.range.
  rewrite Map_runes_ascii; [reflexivity | | lia |].
  - unfold bytes_of in *. rewrite Forall_map in *.
    eapply Forall_impl; [exact Hb|]. intros a Ha. simpl in *.
    unfold byte_of in *. lia.
  - unfold bytes_of. rewrite length_map.
    replace (length (list_ascii_of_string s)) with (String.length s); [lia|].
    clear. induction s; simpl; congruence.
Qed.

(** C2: the sanitized name is claimed never to start with a digit, a
    leading digit becoming an underscore.  Evaluated on the metric name
    [1abc], [makeValidPromName] returns it unchanged, leading digit
    included. *)
Theorem makeValidPromName_leading_digit :
  makeValidPromName "1abc" = "1abc".
Proof. vm_compute. reflexivity. Qed.

(** ** The scanner *)

Lemma scan_fits (raw : list (list Z)) :
  Forall (fun l => Z.of_nat (length l) < bufio.MaxScanTokenSize) raw ->
  bufio.scan raw = (map (fun l => string_of (bufio.dropCR l)) raw, None).
Proof.
  induction 1 as [|l raw Hl _ IH]; simpl; [reflexivity|].
  destruct (Z.leb_spec bufio.MaxScanTokenSize (Z.of_nat (length l))); [lia|].
  rewrite IH. reflexivity.
Qed.

Lemma scan_no_error (raw : list (list Z)) (tokens : list string) :
  bufio.scan raw = (tokens, None) ->
  tokens = map (fun l => string_of (bufio.dropCR l)) raw.
Proof.
  revert tokens. induction raw as [|l raw IH]; simpl; intros tokens H.
  - congruence.
  - destruct (bufio.MaxScanTokenSize <=? Z.of_nat (length l)); [discriminate|].
    destruct (bufio.scan raw) as [ts e]. inversion H; subst.
    f_equal. apply IH. reflexivity.
Qed.

Lemma Scanner_fits (input : string) :
  fits_scanner input -> bufio.Scanner input = (input_lines input, None).
Proof. intros H. apply scan_fits, H. Qed.

Lemma Scanner_no_error (input : string) (tokens : list string) :
  bufio.Scanner input = (tokens, None) -> tokens = input_lines input.
Proof. apply scan_no_error. Qed.

(** ** Blank lines have no fields *)

Lemma string_of_nil (bs : list Z) : string_of bs = "" -> bs = [].
Proof. destruct bs; [reflexivity | discriminate]. Qed.

Arguments utf8.DecodeRune : simpl never.

Lemma DecodeRune_width (b : Z) (t : list Z) :
  (1 <= (utf8.DecodeRune (b :: t)).2)%nat.
Proof.
  unfold utf8.DecodeRune.
  destruct (b <? utf8.RuneSelf); [simpl; lia|].
  destruct (utf8.size_of_first b) as [|[|[|[|[|n]]]]]; simpl; try lia;
    destruct t as [|s1 [|s2 [|s3 t]]]; simpl; try lia;
    destruct (utf8.accept b) as [lo hi];
    repeat match goal with
           | |- context [if ?c then _ else _] => destruct c; simpl
           end; lia.
Qed.

Lemma range_from_chunks (skip : nat) (p : list Z) :
  Forall (fun rc : Z * list Z => rc.2 <> []) (utf8.range_from skip p).
Proof.
  revert skip. induction p as [|b t IH]; intros skip; simpl; [constructor|].
  destruct skip as [|k]; [|apply IH].
  pose proof (DecodeRune_width b t) as Hw.
  destruct (utf8.DecodeRune (b :: t)) as [r w]. simpl in Hw.
  constructor; [|apply IH].
  destruct w; [lia|]. simpl. discriminate.
Qed.

Lemma TrimLeft_space_nil (rs : list (Z * list Z)) :
  strings.TrimLeft_space rs = [] <-> all_space rs.
Proof.
  induction rs as [|[c bs] rs IH]; simpl.
  - split; [constructor | reflexivity].
  - destruct (unicode.IsSpace c) eqn:E.
    + rewrite IH. split; [intros H; constructor; [exact E | exact H]|].
      intros H. inversion H; assumption.
    + split; [discriminate|]. intros H. inversion H; simpl in *; congruence.
Qed.

Lemma TrimLeft_space_suffix (rs : list (Z * list Z)) :
  ∃ pre, rs = pre ++ strings.TrimLeft_space rs ∧ all_space pre.
Proof.
  induction rs as [|[c bs] rs IH]; simpl.
  - exists []. split; [reflexivity | constructor].
  - destruct (unicode.IsSpace c) eqn:E.
    + destruct IH as (pre & Heq & Hpre). exists ((c, bs) :: pre). split.
      * simpl. congruence.
      * constructor; assumption.
    + exists []. split; [reflexivity | constructor].
Qed.

Lemma all_space_app (l1 l2 : list (Z * list Z)) :
  all_space (l1 ++ l2) <-> all_space l1 ∧ all_space l2.
Proof. apply Forall_app. Qed.

Lemma concat_chunks_nil (rs : list (Z * list Z)) :
  Forall (fun rc : Z * list Z => rc.2 <> []) rs ->
  concat (map snd rs) = [] -> rs = [].
Proof.
  destruct 1 as [|[c bs] rs Hbs _]; [reflexivity|]. simpl in *.
  destruct bs; [congruence | discriminate].
Qed.

Lemma Fields_from_nil (cur : list Z) (rs : list (Z * list Z)) :
  Forall (fun rc : Z * list Z => rc.2 <> []) rs ->
  strings.Fields_from cur rs = [] <-> cur = [] ∧ all_space rs.
Proof.
  revert cur. induction rs as [|[c bs] rs IH]; intros cur Hne; simpl.
  - destruct cur; split; try discriminate; intuition (try constructor; congruence).
  - inversion Hne as [|? ? Hbs Hrs]; subst; simpl in Hbs.
    destruct (unicode.IsSpace c) eqn:E.
    + destruct cur.
      * rewrite IH by assumption. split.
        -- intros [_ H]. split; [reflexivity|]. constructor; assumption.
        -- intros [_ H]. split; [reflexivity|]. inversion H; assumption.
      * split; [discriminate | intros [? _]; discriminate].
    + rewrite IH by assumption. split.
      * intros [H _]. exfalso. destruct bs as [|b bs]; [congruence|].
        rewrite rev_append_rev in H. apply app_eq_nil in H as [H _].
        apply (f_equal (@length Z)) in H. rewrite length_rev in H. discriminate.
      * intros [_ H]. inversion H; simpl in *; congruence.
Qed.

Lemma blank_Fields (line : string) : blank line <-> strings.Fields line = [].
Proof.
  unfold blank, strings.TrimSpace, strings.Fields, utf8.range.
  pose proof (range_from_chunks 0 (bytes_of line)) as Hne.
  set (rs := utf8.range_from 0 (bytes_of line)) in *.
  rewrite Fields_from_nil by assumption.
  destruct (TrimLeft_space_suffix rs) as (pre & Heq & Hpre).
  split.
  - intros H. split; [reflexivity|]. apply string_of_nil in H.
    apply concat_chunks_nil in H.
    + apply (f_equal reverse) in H. rewrite reverse_involutive in H.
      apply TrimLeft_space_nil in H. apply Forall_reverse in H.
      destruct (strings.TrimLeft_space rs) as [|[c bs] l] eqn:E.
      * apply TrimLeft_space_nil. exact E.
      * exfalso.
        assert (Hc : unicode.IsSpace c = false).
        { destruct rs as [|[c' bs'] rs']; simpl in E; [discriminate|].
          destruct (unicode.IsSpace c') eqn:E'; [|congruence].
          clear -E. revert E. induction rs' as [|[c2 b2] rs2 IH]; simpl; [discriminate|].
          destruct (unicode.IsSpace c2) eqn:E2; [exact IH | congruence]. }
        rewrite reverse_involutive in H. inversion H; simpl in *; congruence.
    + apply Forall_reverse.
      rewrite Heq in Hne. apply Forall_app in Hne as [_ Hne].
      destruct (TrimLeft_space_suffix (reverse (strings.TrimLeft_space rs)))
        as (pre2 & Heq2 & _).
      apply Forall_reverse in Hne. rewrite Heq2 in Hne.
      apply Forall_app in Hne as [_ Hne]. exact Hne.
  - intros [_ H]. apply TrimLeft_space_nil in H. rewrite H. reflexivity.
Qed.

(** ** NewDesc *)
Section DescriptorFacts.

Variable IsValidMetricName : string -> bool.
Variable checkLabelName : string -> bool.

Local Abbreviation new_desc := (NewDesc IsValidMetricName checkLabelName).
Local Abbreviation well_named := (named_well IsValidMetricName checkLabelName).

Lemma forallb_keys (cl : gmap string string) :
  forallb checkLabelName (map_to_list cl).*1 = true
  <-> ∀ k, is_Some (cl !! k) -> checkLabelName k = true.
Proof.
  rewrite forallb_forall. split.
  - intros H k [v Hk]. apply H. apply list_elem_of_In, list_elem_of_fmap.
    exists (k, v). split; [reflexivity|]. apply elem_of_map_to_list. exact Hk.
  - intros H k Hk. apply list_elem_of_In, list_elem_of_fmap in Hk as ([k0 v] & -> & Hin).
    apply elem_of_map_to_list in Hin. apply H. eexists. exact Hin.
Qed.

Lemma NewDesc_copies (n h : string) (vl : list string) (cl : gmap string string) :
  fqName (new_desc n h vl cl) = n ∧ help (new_desc n h vl cl) = h ∧
  variableLabels (new_desc n h vl cl) = vl.
Proof.
  unfold NewDesc.
  repeat match goal with |- context [if ?b then _ else _] => destruct b end;
    split_and!; reflexivity.
Qed.

Lemma NewDesc_well_named (n h : string) (vl : list string) (cl : gmap string string) :
  well_named n h vl cl ->
  new_desc n h vl cl
  = {| fqName := n; help := h; variableLabels := vl; constLabels := cl;
       desc_err := None |}.
Proof.
  intros (Hh & Hn & Hc & Hv & Hd). unfold NewDesc.
  rewrite decide_False by exact Hh. rewrite Hn. cbn [negb].
  rewrite (proj2 (forallb_keys cl) Hc). cbn [negb].
  assert (Hvl : forallb checkLabelName vl = true).
  { apply forallb_forall. intros l Hl. rewrite Forall_forall in Hv.
    apply Hv, list_elem_of_In, Hl. }
  rewrite Hvl. cbn [negb]. rewrite bool_decide_eq_true_2 by exact Hd. reflexivity.
Qed.

Lemma NewDesc_ill_named (n h : string) (vl : list string) (cl : gmap string string) :
  ¬ well_named n h vl cl ->
  desc_err (new_desc n h vl cl) <> None ∧ constLabels (new_desc n h vl cl) = ∅.
Proof.
  intros Hn. unfold NewDesc.
  destruct (decide (h = "")) as [|Hh]; [split; [discriminate | reflexivity]|].
  destruct (IsValidMetricName n) eqn:En; cbn [negb];
    [|split; [discriminate | reflexivity]].
  destruct (forallb checkLabelName (map_to_list cl).*1) eqn:Ec; cbn [negb];
    [|split; [discriminate | reflexivity]].
  destruct (forallb checkLabelName vl) eqn:Ev; cbn [negb];
    [|split; [discriminate | reflexivity]].
  case_bool_decide as Hd; cbn [negb]; [|split; [discriminate | reflexivity]].
  exfalso. apply Hn. split_and!; try assumption.
  - apply forallb_keys, Ec.
  - apply Forall_forall. intros l Hl. rewrite forallb_forall in Ev.
    apply Ev, list_elem_of_In, Hl.
Qed.

Lemma accepted_by_evaluation (dp : DataPoint) :
  IsValidMetricName (makeValidPromName (dp_Metric dp)) = true ->
  forallb (fun kv => checkLabelName (makeValidPromName kv.1)) (map_to_list (dp_Tags dp))
  = true ->
  accepted IsValidMetricName checkLabelName dp.
Proof.
  intros Hn Hk. split; [exact Hn|]. intros k [v Hin].
  rewrite forallb_forall in Hk.
  apply (Hk (k, v)), list_elem_of_In, elem_of_map_to_list, Hin.
Qed.

(** The labels of a descriptor are those given to [NewDesc], or none. *)
Lemma NewDesc_constLabels (n h : string) (vl : list string) (cl : gmap string string) :
  constLabels (new_desc n h vl cl) = cl ∨ constLabels (new_desc n h vl cl) = ∅.
Proof.
  unfold NewDesc.
  repeat match goal with |- context [if ?b then _ else _] => destruct b end;
    auto.
Qed.

End DescriptorFacts.

(** ** translateOpenTsdb *)
Section TranslationFacts.

Variable ParseFloat : string -> option float.
Variable ValidTSDBString : string -> bool.
Variable ParseTags : string -> result TagSet.
Variable rangeTags : nat -> TagSet -> list (string * string).
Variable IsValidMetricName : string -> bool.
Variable checkLabelName : string -> bool.

Local Abbreviation parse := (parseTcollectorValue ParseFloat ValidTSDBString ParseTags).
Local Abbreviation tags_of := (parse_tags ParseTags).
Local Abbreviation loop := (scan_loop ParseFloat ValidTSDBString ParseTags).
Local Abbreviation metric_at := (metric_of rangeTags IsValidMetricName checkLabelName).
Local Abbreviation metrics_from :=
  (dpointsToMetrics_from rangeTags IsValidMetricName checkLabelName).
Local Abbreviation to_metrics :=
  (dpointsToMetrics rangeTags IsValidMetricName checkLabelName).
Local Abbreviation translate :=
  (translateOpenTsdb ParseFloat ValidTSDBString ParseTags rangeTags
     IsValidMetricName checkLabelName).

Lemma parse_tags_error (sp0 : string) (tokens : list string) (tags : TagSet) (e : string) :
  tags_of sp0 tokens tags = Err e ->
  ∃ tag msg, tag ∈ tokens ∧
    e = ("bad tag, metric " ++ sp0 ++ ": " ++ tag ++ ": " ++ msg)%string.
Proof.
  revert tags. induction tokens as [|tag rest IH]; simpl; intros tags H; [discriminate|].
  destruct (ParseTags tag) as [ts|msg] eqn:E.
  - destruct (IH _ H) as (tag' & msg' & Hin & He).
    exists tag', msg'. split; [right; exact Hin | exact He].
  - inversion H; subst. exists tag, msg. split; [left | reflexivity].
Qed.

Lemma parse_error_names_line (line e : string) :
  parse line = Err e -> names_line line e.
Proof.
  unfold parseTcollectorValue, names_line.
  destruct (strings.Fields line) as [|sp0 [|sp1 [|sp2 rest]]] eqn:EF;
    try (intros H; inversion H; left; reflexivity).
  intros H. right. exists sp0, sp1, sp2, rest. split; [reflexivity|].
  destruct (strconv.ParseInt sp1); [|inversion H; auto].
  destruct (ParseFloat sp2); [|inversion H; auto].
  destruct (ValidTSDBString sp0); simpl in H; [|inversion H; auto].
  destruct (tags_of sp0 rest ∅) as [tags|e'] eqn:ET; [discriminate|].
  inversion H; subst. right; right; right.
  apply parse_tags_error in ET. exact ET.
Qed.

Lemma parse_Ok_fields (line : string) (dp : DataPoint) :
  parse line = Ok dp ->
  ∃ sp1 sp2 rest,
    strings.Fields line = dp_Metric dp :: sp1 :: sp2 :: rest ∧
    strconv.ParseInt sp1 = Some (dp_Timestamp dp) ∧
    (∃ x, ParseFloat sp2 = Some x ∧ dp_Value dp = VFloat64 x) ∧
    ValidTSDBString (dp_Metric dp) = true ∧
    tags_of (dp_Metric dp) rest ∅ = Ok (dp_Tags dp).
Proof.
  unfold parseTcollectorValue.
  destruct (strings.Fields line) as [|sp0 [|sp1 [|sp2 rest]]]; try discriminate.
  destruct (strconv.ParseInt sp1) as [ts|] eqn:EI; [|discriminate].
  destruct (ParseFloat sp2) as [x|] eqn:EV; [|discriminate].
  destruct (ValidTSDBString sp0) eqn:EM; simpl; [|discriminate].
  destruct (tags_of sp0 rest ∅) as [tags|] eqn:ET; [|discriminate].
  intros H. inversion H; subst; simpl.
  exists sp1, sp2, rest. split_and!; try reflexivity; try assumption.
  exists x. split; [assumption | reflexivity].
Qed.

(** The loop stops at the first line that does not parse. *)
Lemma scan_loop_error (lines : list string) (acc : list DataPoint) :
  (∃ line, line ∈ lines ∧ ¬ blank line ∧ ∃ e, parse line = Err e) ->
  ∃ line e, line ∈ lines ∧ ¬ blank line ∧ parse line = Err e ∧ loop lines acc = Err e.
Proof.
  revert acc. induction lines as [|l lines IH]; intros acc (line & Hin & Hnb & e & He).
  - inversion Hin.
  - simpl. destruct (decide (strings.TrimSpace l = "")) as [Hb|Hb].
    + apply elem_of_cons in Hin as [->|Hin]; [contradiction|].
      destruct (IH acc) as (l' & e' & ? & ? & ? & ?); [eauto 6|].
      exists l', e'. repeat split; try assumption. right; assumption.
    + destruct (parse l) as [dp|e'] eqn:El.
      * apply elem_of_cons in Hin as [->|Hin]; [congruence|].
        destruct (IH (acc ++ [dp])) as (l' & e'' & ? & ? & ? & ?); [eauto 6|].
        exists l', e''. repeat split; try assumption. right; assumption.
      * exists l, e'. repeat split; try assumption. left.
Qed.

Lemma data_lines_cons (l : string) (lines : list string) :
  data_lines (l :: lines) =
  if decide (strings.TrimSpace l = "") then data_lines lines else l :: data_lines lines.
Proof.
  unfold data_lines. rewrite filter_cons. unfold blank.
  destruct (decide (strings.TrimSpace l = "")) as [Hb|Hb];
    destruct (decide (¬ strings.TrimSpace l = "")); try reflexivity; contradiction.
Qed.

(** When every line parses, the loop collects one data point per line
    that is not blank. *)
Lemma scan_loop_ok (lines : list string) (acc : list DataPoint) :
  (∀ line, line ∈ lines -> ¬ blank line -> ∃ dp, parse line = Ok dp) ->
  ∃ dps, loop lines acc = Ok (acc ++ dps) ∧
         Forall2 (fun line dp => parse line = Ok dp) (data_lines lines) dps.
Proof.
  revert acc. induction lines as [|l lines IH]; intros acc H.
  - exists []. simpl. rewrite app_nil_r. split; [reflexivity | constructor].
  - simpl. rewrite data_lines_cons.
    destruct (decide (strings.TrimSpace l = "")) as [Hb|Hb].
    + apply IH. intros line Hin. apply H. right; exact Hin.
    + destruct (H l) as [dp Hdp]; [left | exact Hb |]. rewrite Hdp.
      destruct (IH (acc ++ [dp])) as (dps & Hl & Hf).
      { intros line Hin. apply H. right; exact Hin. }
      exists (dp :: dps). split.
      * rewrite Hl, <- app_assoc. reflexivity.
      * constructor; assumption.
Qed.

Lemma scan_loop_Ok_inv (lines : list string) (acc dps : list DataPoint) :
  loop lines acc = Ok dps ->
  ∃ new, dps = acc ++ new ∧
         Forall2 (fun line dp => parse line = Ok dp) (data_lines lines) new.
Proof.
  revert acc. induction lines as [|l lines IH]; intros acc; simpl.
  - intros H. inversion H; subst. exists []. rewrite app_nil_r.
    split; [reflexivity | constructor].
  - rewrite data_lines_cons.
    destruct (decide (strings.TrimSpace l = "")) as [Hb|Hb]; [apply IH|].
    destruct (parse l) as [dp|e] eqn:El; [|discriminate].
    intros H. destruct (IH _ H) as (new & -> & Hf).
    exists (dp :: new). split; [rewrite <- app_assoc; reflexivity|].
    constructor; assumption.
Qed.

Lemma dpointsToMetrics_from_length (i : nat) (dps : list DataPoint) :
  length (metrics_from i dps) = length dps.
Proof. revert i. induction dps; intros i; simpl; [reflexivity | f_equal; apply IHdps]. Qed.

Lemma dpointsToMetrics_from_gauge (i : nat) (dps : list DataPoint) :
  Forall (fun m => valType m = GaugeValue) (metrics_from i dps).
Proof.
  revert i. induction dps; intros i; simpl; constructor; [reflexivity | apply IHdps].
Qed.

Lemma dpointsToMetrics_from_lookup (i j : nat) (dps : list DataPoint) :
  metrics_from i dps !! j = metric_at (i + j) <$> dps !! j.
Proof.
  revert i j. induction dps as [|dp dps IH]; intros i j; [reflexivity|].
  destruct j as [|j]; simpl.
  - rewrite Nat.add_0_r. reflexivity.
  - rewrite IH. do 2 f_equal. lia.
Qed.

(** Whenever the translation returns an error it returns no metric. *)
Lemma translateOpenTsdb_error_no_metrics (input : string) :
  (translate input).2 <> None -> (translate input).1 = [].
Proof.
  unfold translateOpenTsdb, dpointsToMetrics.
  destruct (bufio.Scanner input) as [lines scanErr].
  destruct (loop lines []); [|reflexivity].
  destruct scanErr; [reflexivity|]. simpl. congruence.
Qed.

(** A result is either an error with no metric or metrics with no error. *)
Lemma translateOpenTsdb_cases (input : string) :
  (∃ e, translate input = ([], Some e)) ∨ (∃ ms, translate input = (ms, None)).
Proof.
  unfold translateOpenTsdb, dpointsToMetrics.
  destruct (bufio.Scanner input) as [lines scanErr].
  destruct (loop lines []); [|eauto].
  destruct scanErr; eauto.
Qed.

(** C5, amended: for every input whose lines all fit the scanner's buffer
    (fewer than 65536 bytes each), if some non-blank line fails to parse,
    the translation returns no metric and the error of such a line, which
    names the line or the field that was refused; otherwise it returns,
    with no error, one gauge metric per non-blank line. *)
Theorem translateOpenTsdb_atomic (input : string) :
  fits_scanner input ->
  ((∃ line, line ∈ input_lines input ∧ ¬ blank line ∧ ∃ e, parse line = Err e) ->
   ∃ line e, line ∈ input_lines input ∧ ¬ blank line ∧ parse line = Err e ∧
             names_line line e ∧ translate input = ([], Some e)) ∧
  ((∀ line, line ∈ input_lines input -> ¬ blank line -> ∃ dp, parse line = Ok dp) ->
   (translate input).2 = None ∧
   length (translate input).1 = length (data_lines (input_lines input)) ∧
   Forall (fun m => valType m = GaugeValue) (translate input).1).
Proof.
  intros Hfit. unfold translateOpenTsdb. rewrite (Scanner_fits _ Hfit). split.
  - intros Hbad. destruct (scan_loop_error _ [] Hbad) as (line & e & Hin & Hnb & He & Hl).
    exists line, e. rewrite Hl. repeat split; try assumption.
    apply parse_error_names_line, He.
  - intros Hok. destruct (scan_loop_ok _ [] Hok) as (dps & Hl & Hf).
    rewrite Hl. simpl. split; [reflexivity|]. split.
    + rewrite dpointsToMetrics_from_length. symmetry. eapply Forall2_length, Hf.
    + apply dpointsToMetrics_from_gauge.
Qed.

(** *** The timestamp *)

Lemma metric_of_erase (i : nat) (dp : DataPoint) :
  metric_at i (erase_timestamp dp) = metric_at i dp.
Proof. reflexivity. Qed.

Lemma dpointsToMetrics_from_erase (i : nat) (dps : list DataPoint) :
  metrics_from i (map erase_timestamp dps) = metrics_from i dps.
Proof.
  revert i. induction dps as [|dp dps IH]; intros i; simpl; [reflexivity|].
  rewrite IH. reflexivity.
Qed.

Lemma same_but_timestamp_blank (l1 l2 : string) :
  same_but_timestamp l1 l2 -> (blank l1 <-> blank l2).
Proof.
  intros [->|(sp0 & t1 & t2 & rest & H1 & H2 & _)]; [reflexivity|].
  rewrite !blank_Fields, H1, H2. split; discriminate.
Qed.

Lemma same_but_timestamp_parse (l1 l2 : string) :
  same_but_timestamp l1 l2 -> agree_but_timestamp (parse l1) (parse l2).
Proof.
  intros [->|(sp0 & t1 & t2 & rest & H1 & H2 & [ts1 Ht1] & [ts2 Ht2])].
  - unfold agree_but_timestamp. destruct (parse l2); [reflexivity | exact I].
  - unfold parseTcollectorValue. rewrite H1, H2.
    destruct rest as [|sp2 rest]; [exact I|].
    rewrite Ht1, Ht2. destruct (ParseFloat sp2); [|exact I].
    destruct (ValidTSDBString sp0); simpl; [|exact I].
    destruct (tags_of sp0 rest ∅); [reflexivity | exact I].
Qed.

Lemma scan_loop_same_but_timestamp (lines1 lines2 : list string)
    (acc1 acc2 : list DataPoint) :
  Forall2 same_but_timestamp lines1 lines2 ->
  map erase_timestamp acc1 = map erase_timestamp acc2 ->
  agree_all_but_timestamp (loop lines1 acc1) (loop lines2 acc2).
Proof.
  intros HF. revert acc1 acc2.
  induction HF as [|l1 l2 lines1 lines2 Hl _ IH]; intros acc1 acc2 Hacc; simpl.
  - exact Hacc.
  - pose proof (same_but_timestamp_blank _ _ Hl) as Hb. unfold blank in Hb.
    destruct (decide (strings.TrimSpace l1 = "")) as [B1|B1];
      destruct (decide (strings.TrimSpace l2 = "")) as [B2|B2];
      try (exfalso; tauto).
    + apply IH, Hacc.
    + pose proof (same_but_timestamp_parse _ _ Hl) as Hp.
      unfold agree_but_timestamp in Hp.
      destruct (parse l1) as [d1|]; destruct (parse l2) as [d2|];
        try contradiction; [|exact I].
      apply IH. rewrite !map_app. simpl. congruence.
Qed.

(** C8, amended: for two inputs whose lines all fit the scanner's buffer
    (fewer than 65536 bytes each) and differ, line by line, at most in a
    timestamp field that parses as an integer in both, the translation
    returns the same metrics, and fails on one exactly when it fails on
    the other; and the metrics of any data points are those of the same
    data points with their timestamps erased. *)
Theorem translateOpenTsdb_ignores_timestamp (in1 in2 : string) :
  fits_scanner in1 -> fits_scanner in2 ->
  Forall2 same_but_timestamp (input_lines in1) (input_lines in2) ->
  (translate in1).1 = (translate in2).1 ∧
  ((translate in1).2 = None <-> (translate in2).2 = None) ∧
  (∀ dps, to_metrics (map erase_timestamp dps)
          = to_metrics dps).
Proof.
  intros F1 F2 HF. unfold translateOpenTsdb.
  rewrite (Scanner_fits _ F1), (Scanner_fits _ F2).
  pose proof (scan_loop_same_but_timestamp _ _ [] [] HF eq_refl) as H.
  unfold agree_all_but_timestamp in H.
  destruct (loop (input_lines in1) []) as [d1|]; destruct (loop (input_lines in2) []) as [d2|];
    try contradiction; simpl.
  - split; [|split; [tauto|]].
    + rewrite <- (dpointsToMetrics_from_erase 0 d1), H. apply dpointsToMetrics_from_erase.
    + intros dps. unfold dpointsToMetrics. rewrite dpointsToMetrics_from_erase. reflexivity.
  - split; [reflexivity|]. split; [split; discriminate|].
    intros dps. unfold dpointsToMetrics. rewrite dpointsToMetrics_from_erase. reflexivity.
Qed.

(** *** The labels *)

Lemma make_labels_list_to_map (kvs : list (string * string)) :
  make_labels kvs = list_to_map (reverse (sanitize_pair <$> kvs)).
Proof.
  induction kvs as [|kv kvs IH] using rev_ind; [reflexivity|].
  unfold make_labels in *. rewrite foldl_snoc, IH, fmap_app. simpl.
  rewrite reverse_snoc. reflexivity.
Qed.

Lemma make_labels_lookup_Some (kvs : list (string * string)) (k' v : string) :
  make_labels kvs !! k' = Some v ->
  ∃ k, (k, v) ∈ kvs ∧ makeValidPromName k = k'.
Proof.
  rewrite make_labels_list_to_map. intros H.
  apply elem_of_list_to_map_2, elem_of_reverse, list_elem_of_fmap in H
    as ([k x] & Heq & Hin).
  inversion Heq; subst. exists k. split; [exact Hin | reflexivity].
Qed.

Lemma make_labels_lookup_unique (kvs : list (string * string)) (k v : string) :
  (k, v) ∈ kvs ->
  (∀ k2 v2, (k2, v2) ∈ kvs -> makeValidPromName k2 = makeValidPromName k -> v2 = v) ->
  make_labels kvs !! makeValidPromName k = Some v.
Proof.
  intros Hin Huniq. rewrite make_labels_list_to_map.
  apply elem_of_list_to_map_1'.
  - intros y Hy. apply elem_of_reverse, list_elem_of_fmap in Hy as ([k2 v2] & Heq & Hin2).
    inversion Heq; subst. symmetry. eapply Huniq; [exact Hin2 | congruence].
  - apply elem_of_reverse, list_elem_of_fmap. exists (k, v). split; [reflexivity | exact Hin].
Qed.

(** The labels do not depend on the order in which the tags are visited
    when no two tags share a sanitized key. *)
Lemma make_labels_Permutation (kvs kvs' : list (string * string)) :
  kvs ≡ₚ kvs' -> NoDup (sanitize_pair <$> kvs').*1 ->
  make_labels kvs = make_labels kvs'.
Proof.
  intros Hp Hnd. rewrite !make_labels_list_to_map.
  apply list_to_map_proper.
  - rewrite reverse_Permutation, Hp. exact Hnd.
  - rewrite !reverse_Permutation, Hp. reflexivity.
Qed.

(** The label names [dpointsToMetrics] hands to [NewDesc] are the
    sanitized keys of the tags. *)
Lemma make_labels_keys (i : nat) (tags : TagSet) (k' : string) :
  rangeTags i tags ≡ₚ map_to_list tags ->
  is_Some (make_labels (rangeTags i tags) !! k')
  <-> ∃ k, is_Some (tags !! k) ∧ makeValidPromName k = k'.
Proof.
  intros Hp. split.
  - intros [v H]. apply make_labels_lookup_Some in H as (k & Hin & Hk).
    exists k. split; [|exact Hk]. rewrite Hp in Hin.
    apply elem_of_map_to_list in Hin. eexists. exact Hin.
  - intros (k & [v Hk] & <-). rewrite make_labels_list_to_map.
    apply elem_of_dom. rewrite dom_list_to_map_L. apply elem_of_list_to_set.
    apply list_elem_of_fmap. exists (makeValidPromName k, v). split; [reflexivity|].
    apply elem_of_reverse, list_elem_of_fmap. exists (k, v). split; [reflexivity|].
    rewrite Hp. apply elem_of_map_to_list. exact Hk.
Qed.

Lemma accepted_named_well (i : nat) (dp : DataPoint) :
  rangeTags i (dp_Tags dp) ≡ₚ map_to_list (dp_Tags dp) ->
  accepted IsValidMetricName checkLabelName dp
  <-> named_well IsValidMetricName checkLabelName
        (makeValidPromName (dp_Metric dp)) "help" []
        (make_labels (rangeTags i (dp_Tags dp))).
Proof.
  intros Hp. unfold accepted, named_well. split.
  - intros [Hn Hk]. split_and!.
    + discriminate.
    + exact Hn.
    + intros k' H. apply (make_labels_keys _ _ _ Hp) in H as (k & Hin & <-).
      apply Hk, Hin.
    + constructor.
    + rewrite app_nil_r. apply NoDup_fst_map_to_list.
  - intros (_ & Hn & Hk & _ & _). split; [exact Hn|].
    intros k Hin. apply Hk. apply (make_labels_keys _ _ _ Hp). eauto.
Qed.

(** The metric of a data point whose descriptor is accepted, field by
    field. *)
Lemma metric_of_accepted (i : nat) (dp : DataPoint) :
  rangeTags i (dp_Tags dp) ≡ₚ map_to_list (dp_Tags dp) ->
  accepted IsValidMetricName checkLabelName dp ->
  metric_at i dp
  = {| desc := {| fqName := makeValidPromName (dp_Metric dp); help := "help";
                  variableLabels := [];
                  constLabels := make_labels (rangeTags i (dp_Tags dp));
                  desc_err := None |};
       valType := GaugeValue; val := value_of (dp_Value dp) |}.
Proof.
  intros Hp Ha. unfold metric_of, MustNewConstMetric.
  rewrite NewDesc_well_named by (apply accepted_named_well; assumption).
  reflexivity.
Qed.

Lemma metric_of_refused (i : nat) (dp : DataPoint) :
  rangeTags i (dp_Tags dp) ≡ₚ map_to_list (dp_Tags dp) ->
  ¬ accepted IsValidMetricName checkLabelName dp ->
  desc_err (desc (metric_at i dp)) <> None ∧ constLabels (desc (metric_at i dp)) = ∅.
Proof.
  intros Hp Ha. unfold metric_of, MustNewConstMetric. cbn [desc].
  apply NewDesc_ill_named. intros H. apply Ha.
  apply (accepted_named_well i); assumption.
Qed.

Lemma metric_of_fqName (i : nat) (dp : DataPoint) :
  fqName (desc (metric_at i dp)) = makeValidPromName (dp_Metric dp).
Proof. unfold metric_of, MustNewConstMetric. cbn [desc]. apply NewDesc_copies. Qed.

Lemma metric_of_carries_tags (i : nat) (dp : DataPoint) :
  rangeTags i (dp_Tags dp) ≡ₚ map_to_list (dp_Tags dp) ->
  carries_tags IsValidMetricName checkLabelName dp (metric_at i dp).
Proof.
  intros Hp. unfold carries_tags. split_and!.
  - intros k' v H.
    assert (Hl : make_labels (rangeTags i (dp_Tags dp)) !! k' = Some v).
    { unfold metric_of, MustNewConstMetric in H. cbn [desc] in H.
      destruct (NewDesc_constLabels IsValidMetricName checkLabelName
                  (makeValidPromName (dp_Metric dp)) "help" []
                  (make_labels (rangeTags i (dp_Tags dp)))) as [E|E];
        rewrite E in H; [exact H | discriminate]. }
    apply make_labels_lookup_Some in Hl as (k & Hin & Hk).
    exists k. split; [|exact Hk].
    rewrite Hp in Hin. apply elem_of_map_to_list in Hin. exact Hin.
  - intros Ha. rewrite (metric_of_accepted i dp Hp Ha). cbn [desc desc_err constLabels].
    split; [reflexivity|].
    intros k v Hk Huniq. apply make_labels_lookup_unique.
    + rewrite Hp. apply elem_of_map_to_list. exact Hk.
    + intros k2 v2 Hin Hsan. rewrite Hp in Hin. apply elem_of_map_to_list in Hin.
      assert (k2 = k) by (apply Huniq; [eexists; exact Hin | exact Hsan]).
      subst. congruence.
  - apply metric_of_refused, Hp.
Qed.

Lemma dpointsToMetrics_from_carries_tags (i : nat) (dps : list DataPoint) :
  (∀ i m, rangeTags i m ≡ₚ map_to_list m) ->
  Forall2 (fun dp m => fqName (desc m) = makeValidPromName (dp_Metric dp) ∧
                       valType m = GaugeValue ∧
                       val m = value_of (dp_Value dp) ∧
                       carries_tags IsValidMetricName checkLabelName dp m)
    dps (metrics_from i dps).
Proof.
  intros Hp. revert i. induction dps as [|dp dps IH]; intros i; simpl; constructor.
  - split; [apply metric_of_fqName|]. split; [reflexivity|]. split; [reflexivity|].
    apply metric_of_carries_tags, Hp.
  - apply IH.
Qed.

(** C10, amended: names and label keys are sanitized, label values never
    are, and a metric has labels only when the client library accepts its
    sanitized names.  For every translation that succeeds, the metrics
    correspond one to one to the data points parsed from the non-blank
    lines; each metric is a gauge named by the sanitized metric name, and
    every label value it carries is the value of one of the line's tags,
    unchanged, under that tag's sanitized key.  When the sanitized metric
    name is a valid metric name and every sanitized key a valid label name,
    the descriptor has no error and every tag whose sanitized key is shared
    with no other tag of the line is carried with its value unchanged;
    otherwise the descriptor has an error and the metric no label. *)
Theorem label_values_verbatim (input : string) (metrics : list constMetric) :
  (∀ i m, rangeTags i m ≡ₚ map_to_list m) ->
  translate input = (metrics, None) ->
  ∃ dps,
    Forall2 (fun line dp => parse line = Ok dp) (data_lines (input_lines input)) dps ∧
    Forall2 (fun dp m => fqName (desc m) = makeValidPromName (dp_Metric dp) ∧
                         valType m = GaugeValue ∧
                         val m = value_of (dp_Value dp) ∧
                         carries_tags IsValidMetricName checkLabelName dp m)
      dps metrics.
Proof.
  intros Hp. unfold translateOpenTsdb, dpointsToMetrics.
  destruct (bufio.Scanner input) as [tokens scanErr] eqn:ES.
  destruct (loop tokens []) as [dps|] eqn:EL; [|discriminate].
  destruct scanErr; [discriminate|]. intros H. inversion H; subst.
  apply Scanner_no_error in ES. subst tokens.
  apply scan_loop_Ok_inv in EL as (new & -> & Hf). simpl.
  exists new. split; [exact Hf|]. apply dpointsToMetrics_from_carries_tags, Hp.
Qed.

(** *** The example of the test suite *)

Lemma parse_short_line (line : string) :
  (length (strings.Fields line) < 3)%nat -> parse line = Err ("bad line: " ++ line).
Proof.
  unfold parseTcollectorValue.
  destruct (strings.Fields line) as [|sp0 [|sp1 [|sp2 rest]]]; simpl; try reflexivity; lia.
Qed.

(** A line that is not blank and has fewer than three fields makes the
    whole translation fail, wherever it stands in the input. *)
Lemma translateOpenTsdb_short_line (input line : string) :
  line ∈ input_lines input -> ¬ blank line ->
  (length (strings.Fields line) < 3)%nat ->
  ∃ e, translate input = ([], Some e).
Proof.
  intros Hin Hnb Hlen. unfold translateOpenTsdb.
  destruct (bufio.Scanner input) as [tokens scanErr] eqn:ES.
  destruct (loop tokens []) as [dps|e] eqn:EL; [|eauto].
  destruct scanErr as [e|]; [eauto|]. exfalso.
  apply Scanner_no_error in ES. subst tokens.
  destruct (scan_loop_error (input_lines input) []) as (l & e & _ & _ & _ & He).
  - exists line. split; [exact Hin|]. split; [exact Hnb|].
    eexists. apply parse_short_line, Hlen.
  - congruence.
Qed.

(** C7, amended: the input of the test suite translates to exactly two
    gauge metrics, [a_a] with value 9 and the single label l1=v1, then
    [a_b] with value 99 and the labels l2=v2 and l3=v3, both with the help
    text [help], no variable label and no descriptor error, whenever the
    library functions read the tokens of that input as their text says and
    accept these five names; and in any input, a line that is not blank
    and has fewer than three fields makes the translation return an error
    and no metric. *)
Theorem translateOpenTsdb_example :
  (∀ i m, rangeTags i m ≡ₚ map_to_list m) ->
  ParseFloat "9" = Some 9%float -> ParseFloat "99" = Some 99%float ->
  ValidTSDBString "a.a" = true -> ValidTSDBString "a.b" = true ->
  ParseTags "l1=v1" = Ok {["l1" := "v1"]} ->
  ParseTags "l2=v2" = Ok {["l2" := "v2"]} ->
  ParseTags "l3=v3" = Ok {["l3" := "v3"]} ->
  IsValidMetricName "a_a" = true -> IsValidMetricName "a_b" = true ->
  checkLabelName "l1" = true -> checkLabelName "l2" = true ->
  checkLabelName "l3" = true ->
  translate test_input
  = ([{| desc := {| fqName := "a_a"; help := "help"; variableLabels := [];
                    constLabels := {["l1" := "v1"]}; desc_err := None |};
         valType := GaugeValue; val := 9%float |};
      {| desc := {| fqName := "a_b"; help := "help"; variableLabels := [];
                    constLabels := <["l2" := "v2"]> {["l3" := "v3"]};
                    desc_err := None |};
         valType := GaugeValue; val := 99%float |}], None) ∧
  (∀ input line,
     line ∈ input_lines input -> ¬ blank line ->
     (length (strings.Fields line) < 3)%nat ->
     (translate input).1 = [] ∧ (translate input).2 <> None).
Proof.
  intros Hp H9 H99 Hv1 Hv2 Ht1 Ht2 Ht3 Hm1 Hm2 Hl1 Hl2 Hl3. split.
  - unfold translateOpenTsdb.
    assert (ES : bufio.Scanner test_input
                 = (["a.a 1000 9 l1=v1"; "a.b 1001 99 l2=v2 l3=v3"], None))
      by (vm_compute; reflexivity).
    rewrite ES. clear ES.
    assert (T1 : Merge ∅ {["l1" := "v1"]} =@{TagSet} {["l1" := "v1"]})
      by (vm_compute; reflexivity).
    assert (T2 : Merge (Merge ∅ {["l2" := "v2"]}) {["l3" := "v3"]}
                 =@{TagSet} <["l2" := "v2"]> {["l3" := "v3"]})
      by (vm_compute; reflexivity).
    assert (P1 : parse "a.a 1000 9 l1=v1"
                 = Ok {| dp_Metric := "a.a"; dp_Timestamp := 1000;
                         dp_Value := VFloat64 9%float;
                         dp_Tags := {["l1" := "v1"]} |}).
    { unfold parseTcollectorValue.
      assert (EF : strings.Fields "a.a 1000 9 l1=v1" = ["a.a"; "1000"; "9"; "l1=v1"])
        by (vm_compute; reflexivity).
      assert (EI : strconv.ParseInt "1000" = Some 1000) by (vm_compute; reflexivity).
      rewrite EF, EI, H9, Hv1. cbn [negb parse_tags]. rewrite Ht1, T1. reflexivity. }
    assert (P2 : parse "a.b 1001 99 l2=v2 l3=v3"
                 = Ok {| dp_Metric := "a.b"; dp_Timestamp := 1001;
                         dp_Value := VFloat64 99%float;
                         dp_Tags := <["l2" := "v2"]> {["l3" := "v3"]} |}).
    { unfold parseTcollectorValue.
      assert (EF : strings.Fields "a.b 1001 99 l2=v2 l3=v3"
                   = ["a.b"; "1001"; "99"; "l2=v2"; "l3=v3"])
        by (vm_compute; reflexivity).
      assert (EI : strconv.ParseInt "1001" = Some 1001) by (vm_compute; reflexivity).
      rewrite EF, EI, H99, Hv2. cbn [negb parse_tags]. rewrite Ht2, Ht3, T2.
      reflexivity. }
    cbn [scan_loop].
    rewrite decide_False by (vm_compute; discriminate).
    rewrite P1. cbn [app].
    rewrite decide_False by (vm_compute; discriminate).
    rewrite P2. cbn [app]. unfold dpointsToMetrics. cbn [dpointsToMetrics_from].
    assert (N1 : makeValidPromName "a.a" = "a_a") by (vm_compute; reflexivity).
    assert (N2 : makeValidPromName "a.b" = "a_b") by (vm_compute; reflexivity).
    assert (K1 : makeValidPromName "l1" = "l1") by (vm_compute; reflexivity).
    assert (K2 : makeValidPromName "l2" = "l2") by (vm_compute; reflexivity).
    assert (K3 : makeValidPromName "l3" = "l3") by (vm_compute; reflexivity).
    rewrite !metric_of_accepted; cbn [dp_Metric dp_Value dp_Tags value_of].
    + assert (L1 : make_labels (rangeTags 0 {["l1" := "v1"]}) = {["l1" := "v1"]}).
      { rewrite (make_labels_Permutation _ _ (Hp _ _)).
        - vm_compute. reflexivity.
        - apply (bool_decide_unpack _). vm_compute. reflexivity. }
      assert (L2 : make_labels (rangeTags 1 (<["l2" := "v2"]> {["l3" := "v3"]}))
                   = <["l2" := "v2"]> {["l3" := "v3"]}).
      { rewrite (make_labels_Permutation _ _ (Hp _ _)).
        - vm_compute. reflexivity.
        - apply (bool_decide_unpack _). vm_compute. reflexivity. }
      rewrite L1, L2, N1, N2. reflexivity.
    + apply Hp.
    + split; cbn [dp_Metric dp_Tags]; [rewrite N2; exact Hm2|].
      intros k [v Hk]. apply lookup_insert_Some in Hk as [[<- _]|[_ Hk]].
      * rewrite K2. exact Hl2.
      * apply lookup_singleton_Some in Hk as [<- _]. rewrite K3. exact Hl3.
    + apply Hp.
    + split; cbn [dp_Metric dp_Tags]; [rewrite N1; exact Hm1|].
      intros k [v Hk]. apply lookup_singleton_Some in Hk as [<- _].
      rewrite K1. exact Hl1.
  - intros input line Hin Hnb Hlen.
    destruct (translateOpenTsdb_short_line input line Hin Hnb Hlen) as [e He].
    rewrite He. split; [reflexivity | discriminate].
Qed.

End TranslationFacts.

(** *** The translation evaluated *)

(** An equation between large values is decided by evaluation, without
    the values being written out. *)
Ltac decide_by_evaluation := apply (bool_decide_unpack _); vm_compute; exact I.

Lemma fits_scanner_test_input : fits_scanner test_input.
Proof. unfold fits_scanner. decide_by_evaluation. Qed.

Lemma fits_scanner_test_input_later : fits_scanner test_input_later.
Proof. unfold fits_scanner. decide_by_evaluation. Qed.

Lemma input_lines_test_input :
  input_lines test_input = ["a.a 1000 9 l1=v1"; "a.b 1001 99 l2=v2 l3=v3"].
Proof. vm_compute. reflexivity. Qed.

Lemma input_lines_test_input_later :
  input_lines test_input_later = ["a.a 2000 9 l1=v1"; "a.b 2001 99 l2=v2 l3=v3"].
Proof. vm_compute. reflexivity. Qed.

Lemma test_input_parses (line : string) :
  line ∈ input_lines test_input -> ¬ blank line -> ∃ dp, parse_eval line = Ok dp.
Proof.
  rewrite input_lines_test_input. intros Hin _.
  apply elem_of_cons in Hin as [->|Hin]; [eexists; vm_compute; reflexivity|].
  apply elem_of_cons in Hin as [->|Hin]; [eexists; vm_compute; reflexivity|].
  inversion Hin.
Qed.

Lemma translateOpenTsdb_atomic_witness :
  fits_scanner test_input ∧
  (translate_eval test_input).2 = None ∧
  length (translate_eval test_input).1 = length (data_lines (input_lines test_input)).
Proof.
  split; [exact fits_scanner_test_input|].
  destruct (translateOpenTsdb_atomic ParseFloat_integers opentsdb.ValidTSDBString
              opentsdb.ParseTags (fun _ m => map_to_list m)
    prometheus.IsValidMetricName prometheus.checkLabelName test_input
              fits_scanner_test_input) as [_ H].
  destruct (H test_input_parses) as (H1 & H2 & _).
  split; [exact H1 | exact H2].
Defined.

(** C5, as stated, fails on a line that parses but does not fit the
    scanner's buffer: [long_line] is the only line of its input, it is not
    blank and [parseTcollectorValue] accepts it, yet the translation
    returns no metric and the scanner's error. *)
Lemma translateOpenTsdb_long_line :
  input_lines long_line = [long_line] ∧
  String.eqb (strings.TrimSpace long_line) "" = false ∧
  is_Ok (parse_eval long_line) = true ∧
  translate_eval long_line = ([], Some bufio.ErrTooLong).
Proof.
  split; [decide_by_evaluation|].
  split; [vm_compute; reflexivity|].
  split; vm_compute; reflexivity.
Qed.

Lemma translateOpenTsdb_example_witness :
  translate_eval test_input
  = ([{| desc := {| fqName := "a_a"; help := "help"; variableLabels := [];
                    constLabels := {["l1" := "v1"]}; desc_err := None |};
         valType := GaugeValue; val := 9%float |};
      {| desc := {| fqName := "a_b"; help := "help"; variableLabels := [];
                    constLabels := <["l2" := "v2"]> {["l3" := "v3"]};
                    desc_err := None |};
         valType := GaugeValue; val := 99%float |}], None).
Proof.
  apply (translateOpenTsdb_example ParseFloat_integers opentsdb.ValidTSDBString
           opentsdb.ParseTags (fun _ m => map_to_list m)
    prometheus.IsValidMetricName prometheus.checkLabelName);
    try (intros; reflexivity); vm_compute; reflexivity.
Defined.

Lemma test_inputs_same_but_timestamp :
  Forall2 same_but_timestamp (input_lines test_input) (input_lines test_input_later).
Proof.
  rewrite input_lines_test_input, input_lines_test_input_later.
  constructor; [|constructor; [|constructor]]; right.
  - exists "a.a", "1000", "2000", ["9"; "l1=v1"].
    split_and!; try (vm_compute; reflexivity); eexists; vm_compute; reflexivity.
  - exists "a.b", "1001", "2001", ["99"; "l2=v2"; "l3=v3"].
    split_and!; try (vm_compute; reflexivity); eexists; vm_compute; reflexivity.
Qed.

Lemma translateOpenTsdb_ignores_timestamp_witness :
  fits_scanner test_input ∧ fits_scanner test_input_later ∧
  Forall2 same_but_timestamp (input_lines test_input) (input_lines test_input_later) ∧
  (translate_eval test_input).1 = (translate_eval test_input_later).1.
Proof.
  split; [exact fits_scanner_test_input|].
  split; [exact fits_scanner_test_input_later|].
  split; [exact test_inputs_same_but_timestamp|].
  exact (proj1 (translateOpenTsdb_ignores_timestamp ParseFloat_integers
                  opentsdb.ValidTSDBString opentsdb.ParseTags (fun _ m => map_to_list m)
    prometheus.IsValidMetricName prometheus.checkLabelName
                  test_input test_input_later fits_scanner_test_input
                  fits_scanner_test_input_later test_inputs_same_but_timestamp)).
Defined.

(** C8, as stated, fails when the timestamp field makes a line outgrow the
    scanner's buffer: [plain_input] and [padded_input] are a single line
    each, with the same fields but for the timestamps [1] and [00...01],
    which both parse; the first translates to one metric, the second to
    none. *)
Lemma translateOpenTsdb_padded_timestamp :
  Forall2 same_but_timestamp (input_lines plain_input) (input_lines padded_input) ∧
  length (translate_eval plain_input).1 = 1%nat ∧
  (translate_eval padded_input).1 = [].
Proof.
  split; [|split; vm_compute; reflexivity].
  assert (E1 : input_lines plain_input = [plain_input]) by decide_by_evaluation.
  assert (E2 : input_lines padded_input = [padded_input]) by decide_by_evaluation.
  rewrite E1, E2. constructor; [|constructor]. right.
  exists "m", "1", padded_timestamp, ["1"; long_tag].
  split_and!; [decide_by_evaluation | decide_by_evaluation | |];
    eexists; vm_compute; reflexivity.
Qed.

Lemma label_values_verbatim_witness :
  ∃ dps,
    Forall2 (fun line dp => parse_eval line = Ok dp) (data_lines (input_lines test_input)) dps ∧
    Forall2 (fun dp m => fqName (desc m) = makeValidPromName (dp_Metric dp) ∧
                         valType m = GaugeValue ∧
                         val m = value_of (dp_Value dp) ∧
                         carries_tags prometheus.IsValidMetricName
                           prometheus.checkLabelName dp m)
      dps
      (translate_eval test_input).1.
Proof.
  apply (label_values_verbatim ParseFloat_integers opentsdb.ValidTSDBString
           opentsdb.ParseTags (fun _ m => map_to_list m)
    prometheus.IsValidMetricName prometheus.checkLabelName test_input).
  - intros; reflexivity.
  - vm_compute. reflexivity.
Defined.

(** C7, as stated, fails on a blank line: the second line of
    [blank_line_input] is empty, which is fewer than three fields, and the
    translation succeeds with the metric of the first line. *)
Lemma translateOpenTsdb_blank_line :
  input_lines blank_line_input = ["a.a 1000 9 l1=v1"; ""] ∧
  length (strings.Fields "") = 0%nat ∧
  translate_eval blank_line_input
  = ([{| desc := {| fqName := "a_a"; help := "help"; variableLabels := [];
                    constLabels := {["l1" := "v1"]}; desc_err := None |};
         valType := GaugeValue; val := 9%float |}], None).
Proof.
  split; [decide_by_evaluation|]. split; vm_compute; reflexivity.
Qed.

(** C10, as stated, fails in two ways.  When two tags of a line are
    sanitized to the same label key: the line [m 1000 9 a.b=1 a_b=2]
    translates to one metric, which cannot carry both [1] for the token
    [a.b=1] and [2] for the token [a_b=2].  And when the client library
    refuses a sanitized name: the line [1abc 1000 9 k=v] translates to one
    metric, named [1abc], whose descriptor has an error and carries no
    label, so that the value [v] of the token [k=v] is lost. *)
Lemma translateOpenTsdb_labels_lost :
  (∃ m, translate_eval collision_input = ([m], None) ∧
        ¬ (constLabels (desc m) !! makeValidPromName "a.b" = Some "1" ∧
           constLabels (desc m) !! makeValidPromName "a_b" = Some "2")) ∧
  (∃ m, translate_eval leading_digit_input = ([m], None) ∧
        fqName (desc m) = "1abc" ∧ desc_err (desc m) = Some InvalidMetricName ∧
        constLabels (desc m) = ∅).
Proof.
  split.
  - eexists. split; [vm_compute; reflexivity|].
    intros [H1 H2]. vm_compute in H1, H2. congruence.
  - eexists. split; [vm_compute; reflexivity|].
    split_and!; vm_compute; reflexivity.
Qed.

(** ** runCommand *)

(** The wait loop runs at most two selects: it returns as soon as two
    selects have taken a case. *)
Lemma wait_loop_returns (sel : list select_case) :
  (2 <= length sel)%nat -> ∃ closed cd, wait_loop sel 0 false = Some (closed, cd).
Proof.
  destruct sel as [|a [|b sel]]; simpl length; try lia. intros _.
  destruct a, b, sel; vm_compute; eauto.
Qed.

Lemma wait_loop_exit (sel : list select_case) (closed : Z) (cd : bool) :
  wait_loop sel 0 false = Some (closed, cd) ->
  (cd = true ∧ closed < 2) ∨ (cd = false ∧ closed = 2).
Proof.
  destruct sel as [|a [|b [|c sel]]]; try destruct a; try destruct b; try destruct c;
    vm_compute; intros H; inversion H; subst; auto.
Qed.

Lemma cmd_Wait_nil (st : option ProcessState) :
  cmd_Wait st = Some None <-> st = Some (Exited 0).
Proof.
  destruct st as [[[| |]|]|]; simpl; split; congruence.
Qed.

Lemma cmd_Wait_error (st : ProcessState) :
  st <> Exited 0 -> cmd_Wait (Some st) = Some (Some (ExitError st)).
Proof.
  destruct st as [[| |]|]; simpl; congruence.
Qed.

Lemma stderr_Len (s : string) : (Z.of_nat (String.length s) =? 0) = true <-> s = "".
Proof.
  destruct s; simpl; split; try reflexivity; discriminate.
Qed.

(** The precedence of the errors, for an invocation in which each select
    of the wait loop takes a case and the child ends.  If a pipe cannot be
    created or the child cannot be started, [runCommand] returns the empty
    string and an error saying so.  Otherwise it returns the captured
    stdout, and its error is: the context's error if a select of the wait
    loop took the [<-ctx.Done()] case; else the child's exit error if it
    exited nonzero or by a signal; else an error quoting stderr if stderr
    is not empty; else nil. *)
Lemma runCommand_precedence (env : Env) (st : ProcessState) :
  (2 <= length (selects env))%nat -> state env = Some st ->
  (¬ started env -> ∃ msg, runCommand env = Some ("", Some (Errorf msg))) ∧
  (started env ->
   ∃ e, runCommand env = Some (stdout env, e) ∧
     (ctxdone env = true -> e = Some (ContextError (ctx_Err env))) ∧
     (ctxdone env = false -> st <> Exited 0 -> e = Some (ExitError st)) ∧
     (ctxdone env = false -> st = Exited 0 -> stderr env <> "" ->
      e = Some (Errorf ("got stderr output: " ++ stderr env))) ∧
     (ctxdone env = false -> st = Exited 0 -> stderr env = "" -> e = None)).
Proof.
  intros Hsel Hst. destruct (wait_loop_returns _ Hsel) as (closed & cd & Hw). split.
  - intros Hns. unfold runCommand, started in *.
    destruct (StdoutPipe_err env); [eauto|].
    destruct (StderrPipe_err env); [eauto|].
    destruct (Start_err env); [eauto|].
    exfalso. apply Hns. auto.
  - intros (H1 & H2 & H3). unfold runCommand, ctxdone. rewrite H1, H2, H3, Hw, Hst.
    assert (Hd : st = Exited 0 ∨ st <> Exited 0)
      by (destruct st as [[| |]|]; [left; reflexivity | right; discriminate..]).
    destruct Hd as [->|Hne].
    + cbn [cmd_Wait]. destruct cd.
      * eexists. split; [reflexivity|]. split_and!; [reflexivity | discriminate..].
      * destruct (Z.of_nat (String.length (stderr env)) =? 0) eqn:EL; simpl.
        -- apply stderr_Len in EL. eexists. split; [reflexivity|].
           split_and!; try discriminate; try congruence; reflexivity.
        -- eexists. split; [reflexivity|].
           split_and!; try discriminate; try congruence.
           intros _ _ He. apply stderr_Len in He. congruence.
    + rewrite (cmd_Wait_error st Hne). destruct cd.
      * eexists. split; [reflexivity|]. split_and!; [reflexivity | discriminate..].
      * eexists. split; [reflexivity|]. split_and!; try discriminate; try congruence.
Qed.

(** C1: the context is tested in the selects of the wait loop and nowhere
    else, so the first rule of the classification, like the promise of the
    comment of [runCommand] that a context reaching Done makes the error
    the context's, fails when the context is done later.  For every
    invocation whose child was started, whose two pipes were closed before
    a select took the [<-ctx.Done()] case and whose context is done by the
    time [cmd.Wait] returns, with a child that ended otherwise than with
    status zero, as one killed at the deadline does: the loop has not seen
    the context done, and [runCommand] returns the exit error of the
    child, which is not the error of the context. *)
Theorem runCommand_late_context (env : Env) (st : ProcessState) :
  started env -> take 2 (selects env) = [ChDone; ChDone] ->
  ctx_Done env = true -> state env = Some st -> st <> Exited 0 ->
  coherent env ∧ ctxdone env = false ∧
  runCommand env = Some (stdout env, Some (ExitError st)) ∧
  runCommand env <> Some (stdout env, Some (ContextError (ctx_Err env))).
Proof.
  intros (H1 & H2 & H3) Hsel Hd Hst Hne.
  assert (Hw : wait_loop (selects env) 0 false = Some (2, false)).
  { destruct (selects env) as [|[|] [|[|] rest]]; simpl in Hsel; try discriminate.
    destruct rest; reflexivity. }
  assert (Hc : ctxdone env = false) by (unfold ctxdone; rewrite Hw; reflexivity).
  assert (Hr : runCommand env = Some (stdout env, Some (ExitError st))).
  { unfold runCommand. rewrite H1, H2, H3, Hw, Hst, (cmd_Wait_error st Hne).
    reflexivity. }
  split_and!.
  - intros _. exact Hd.
  - exact Hc.
  - exact Hr.
  - rewrite Hr. discriminate.
Qed.

Lemma runCommand_late_context_witness :
  started killed_in_Wait ∧ ctx_Done killed_in_Wait = true ∧
  ctx_Err killed_in_Wait = DeadlineExceeded ∧
  runCommand killed_in_Wait = Some ("", Some (ExitError (Signaled 9))).
Proof.
  assert (Hs : started killed_in_Wait) by (repeat split).
  split; [exact Hs|]. split; [reflexivity|]. split; [reflexivity|].
  apply (runCommand_late_context killed_in_Wait (Signaled 9) Hs);
    [reflexivity | reflexivity | reflexivity | discriminate].
Defined.

(** An invocation whose child cannot be started returns before any of
    this: no select has seen the context done, no process has exited and
    stderr is empty, yet the result is an error. *)
Lemma runCommand_start_failure :
  ctxdone missing_script = false ∧ stderr missing_script = "" ∧
  runCommand missing_script
  = Some ("", Some (Errorf
       "failed to start child: fork/exec /scripts/missing: no such file or directory")).
Proof. repeat split. Qed.

Example runCommand_timed_out :
  runCommand timed_out = Some ("partial", Some (ContextError DeadlineExceeded)).
Proof. reflexivity. Qed.

(** The invocations of the test suite. *)
Example runCommand_echo_test :
  runCommand echo_test = Some (("test" ++ newline)%string, None).
Proof. reflexivity. Qed.

(** ** regatherer.Gather *)

Lemma Less_false (a b : LabelPair) : Less b a = false <-> name_le a b.
Proof.
  unfold Less, name_le, String.ltb, String.leb.
  rewrite (String.compare_antisym (lp_Name a) (lp_Name b)).
  destruct (String.compare (lp_Name b) (lp_Name a)); simpl; split; congruence.
Qed.

Lemma name_le_total : Total name_le.
Proof. intros a b. apply String.leb_total. Qed.

Lemma not_Less_trans : Transitive (fun a b => Less b a = false).
Proof.
  intros a b c Hab Hbc. unfold Less, String.ltb in *.
  destruct (String.compare (lp_Name c) (lp_Name a)) eqn:Hca; try reflexivity.
  exfalso.
  apply OrderedTypeEx.String_as_OT.cmp_lt in Hca.
  destruct (String.compare (lp_Name b) (lp_Name a)) eqn:Hba; try discriminate.
  - apply OrderedTypeEx.String_as_OT.cmp_eq in Hba.
    rewrite <- Hba in Hca. apply OrderedTypeEx.String_as_OT.cmp_lt in Hca.
    unfold OrderedTypeEx.String_as_OT.cmp in Hca. rewrite Hca in Hbc. discriminate.
  - assert (Hab' : OrderedTypeEx.String_as_OT.lt (lp_Name a) (lp_Name b)).
    { apply OrderedTypeEx.String_as_OT.cmp_lt.
      unfold OrderedTypeEx.String_as_OT.cmp.
      rewrite String.compare_antisym, Hba. reflexivity. }
    pose proof (OrderedTypeEx.String_as_OT.lt_trans _ _ _ Hca Hab') as Hcb.
    apply OrderedTypeEx.String_as_OT.cmp_lt in Hcb.
    unfold OrderedTypeEx.String_as_OT.cmp in Hcb. rewrite Hcb in Hbc. discriminate.
Qed.

(** Labels with distinct names have one sorted order only. *)
Lemma sorted_labels_unique (l1 l2 : list LabelPair) :
  NoDup (lp_Name <$> l1) -> l1 ≡ₚ l2 ->
  sorted_labels l1 -> sorted_labels l2 -> l1 = l2.
Proof.
  intros Hnd Hp H1 H2.
  apply (@Sorted_unique_strong _ (fun a b => Less b a = false) not_Less_trans);
    try assumption.
  intros x1 x2 Hx1 Hx2 H12 H21.
  apply Less_false in H12, H21. unfold name_le in *.
  pose proof (String.leb_antisym _ _ H12 H21) as Hn.
  rewrite <- Hp in Hx2.
  apply list_elem_of_lookup in Hx1 as [i Hi], Hx2 as [j Hj].
  assert (i = j).
  { eapply NoDup_lookup; [exact Hnd | |]; rewrite list_lookup_fmap.
    - rewrite Hi. reflexivity.
    - rewrite Hj. simpl. congruence. }
  subst. congruence.
Qed.

Lemma merge_sort_labels_sorted (l : list LabelPair) : sorted_labels (merge_sort_labels l).
Proof.
  unfold sorted_labels, merge_sort_labels.
  rewrite <- (list_fmap_id (merge_sort name_le l)).
  eapply Sorted_fmap; [|apply (@Sorted_merge_sort _ name_le _ name_le_total)].
  intros a b H. apply Less_false, H.
Qed.

Section GathererFacts.

Variable sort_Sort : list LabelPair -> list LabelPair.
Variable rangeFams : regatherer -> list (string * MetricFamily).

Local Abbreviation sorted_family := (sort_family sort_Sort).

Lemma Gather_loop_acc (visit : list (string * MetricFamily)) (fams : list MetricFamily) :
  Gather_loop sort_Sort visit fams = fams ++ (sorted_family <$> visit.*2).
Proof.
  revert fams. induction visit as [|[name fam] visit IH]; intros fams; simpl.
  - rewrite app_nil_r. reflexivity.
  - rewrite IH, <- app_assoc. reflexivity.
Qed.

Lemma sort_family_metrics (fam : MetricFamily) :
  (∀ l, sort_Sort l ≡ₚ l) -> (∀ l, sorted_labels (sort_Sort l)) ->
  Forall2 labels_sorted_of (fam_Metric fam) (fam_Metric (sorted_family fam)).
Proof.
  intros Hperm Hsorted. simpl.
  induction (fam_Metric fam) as [|m ms IH]; simpl; constructor; [|exact IH].
  unfold labels_sorted_of. simpl. auto.
Qed.

(** C9: [Gather] returns, with a nil error, every family of the parse
    result once, in the order the map is visited, and in every family
    each metric's label pairs are sorted by label name, the labels and
    everything else of the metric being as parsed.  The label sequence of
    a metric is the sort of its parsed labels, whatever the order of the
    families; when its label names are distinct it is the only sorted
    order of those labels, the same for every order they were parsed in. *)
Theorem Gather_sorts_labels (r : regatherer) :
  (∀ l, sort_Sort l ≡ₚ l) -> (∀ l, sorted_labels (sort_Sort l)) ->
  (∀ r, rangeFams r ≡ₚ map_to_list r) ->
  (Gather sort_Sort rangeFams r).1.2 = None ∧
  (Gather sort_Sort rangeFams r).1.1 ≡ₚ sorted_family <$> (map_to_list r).*2 ∧
  (∀ fam m, fam ∈ (Gather sort_Sort rangeFams r).1.1 -> m ∈ fam_Metric fam ->
            sorted_labels (Label m)) ∧
  (∀ name fam, r !! name = Some fam ->
     sorted_family fam ∈ (Gather sort_Sort rangeFams r).1.1 ∧
     fam_Name (sorted_family fam) = fam_Name fam ∧
     Forall2 labels_sorted_of (fam_Metric fam) (fam_Metric (sorted_family fam))) ∧
  (∀ l l', l ≡ₚ l' -> NoDup (lp_Name <$> l) -> sort_Sort l = sort_Sort l').
Proof.
  intros Hperm Hsorted Hrange. unfold Gather. simpl.
  rewrite Gather_loop_acc. simpl.
  assert (Hfams : sorted_family <$> (rangeFams r).*2
                  ≡ₚ sorted_family <$> (map_to_list r).*2)
    by (rewrite (Hrange r); reflexivity).
  split; [reflexivity|]. split; [exact Hfams|]. split; [|split].
  - intros fam m Hfam Hm.
    apply list_elem_of_fmap in Hfam as (fam0 & -> & _).
    simpl in Hm. apply list_elem_of_fmap in Hm as (m0 & -> & _). apply Hsorted.
  - intros name fam Hlook. split; [|split].
    + rewrite Hfams. apply list_elem_of_fmap. exists fam. split; [reflexivity|].
      apply list_elem_of_fmap. exists (name, fam). split; [reflexivity|].
      apply elem_of_map_to_list, Hlook.
    + reflexivity.
    + apply sort_family_metrics; assumption.
  - intros l l' Hl Hnd. apply sorted_labels_unique.
    + rewrite (Hperm l). exact Hnd.
    + rewrite (Hperm l), (Hperm l'). exact Hl.
    + apply Hsorted.
    + apply Hsorted.
Qed.

End GathererFacts.

Lemma Gather_sorts_labels_witness :
  (Gather merge_sort_labels map_to_list parsed).1.1
  ≡ₚ sort_family merge_sort_labels <$> (map_to_list parsed).*2 ∧
  (Label <$> fam_Metric (sort_family merge_sort_labels parsed_family))
  = [[{| lp_Name := "job"; lp_Value := "b" |}; {| lp_Name := "zone"; lp_Value := "a" |}]].
Proof.
  split.
  - apply (Gather_sorts_labels merge_sort_labels map_to_list parsed).
    + intros l. apply merge_sort_Permutation.
    + apply merge_sort_labels_sorted.
    + reflexivity.
  - vm_compute. reflexivity.
Defined.

(** ** ScriptHandler.Start *)

Lemma wrap_int_small (z : Z) : - 2 ^ 63 <= z < 2 ^ 63 -> wrap_int z = z.
Proof. intros H. unfold wrap_int. rewrite Z.mod_small; lia. Qed.

Lemma get_insert (m : gmap string Z) (k k' : string) (v : Z) :
  get (<[k := v]> m) k' = if decide (k = k') then v else get m k'.
Proof.
  unfold get. destruct (decide (k = k')) as [->|Hne].
  - rewrite lookup_insert_eq. reflexivity.
  - rewrite lookup_insert_ne by assumption. reflexivity.
Qed.

Lemma sent_send (sl : gmap nat (list runresult)) (id id' : nat) (r : runresult) :
  sent (send sl id r) id' = if decide (id = id') then sent sl id ++ [r] else sent sl id'.
Proof.
  unfold sent, send. destruct (decide (id = id')) as [->|Hne].
  - rewrite lookup_insert_eq. reflexivity.
  - rewrite lookup_insert_ne by assumption. reflexivity.
Qed.

Lemma counts_for_range (k : string) (t : task) : 0 <= counts_for k t <= 1.
Proof. unfold counts_for. destruct (_ && _); lia. Qed.

Lemma running_nonneg (k : string) (ts : list task) : 0 <= running k ts.
Proof.
  induction ts as [|t ts IH]; simpl; [lia|].
  pose proof (counts_for_range k t). lia.
Qed.

Lemma pending_range (k : string) (p : loop_pc) : 0 <= pending k p <= 1.
Proof.
  unfold pending. destruct (in_hand p) as [[id req]|]; [|lia].
  destruct (_ && _); lia.
Qed.

Lemma running_app (k : string) (ts ts' : list task) :
  running k (ts ++ ts') = running k ts + running k ts'.
Proof. induction ts as [|t ts IH]; simpl; [reflexivity | rewrite IH; lia]. Qed.

Lemma running_insert (k : string) (ts : list task) (i : nat) (t t' : task) :
  ts !! i = Some t ->
  running k (<[i := t']> ts) = running k ts - counts_for k t + counts_for k t'.
Proof.
  revert i. induction ts as [|t0 ts IH]; intros i H; [discriminate|].
  destruct i as [|i]; simpl in *.
  - inversion H; subst. lia.
  - rewrite (IH _ H). lia.
Qed.

Lemma running_lookup (k : string) (ts : list task) (i : nat) (t : task) :
  ts !! i = Some t -> counts_for k t <= running k ts.
Proof.
  revert i. induction ts as [|t0 ts IH]; intros i H; [discriminate|].
  destruct i as [|i]; simpl in *.
  - inversion H; subst. pose proof (running_nonneg k ts). lia.
  - pose proof (IH _ H). pose proof (counts_for_range k t0). lia.
Qed.

Lemma counts_for_at_pc (k : string) (t : task) (p : task_pc) :
  counted p = counted (t_pc t) -> counts_for k (at_pc t p) = counts_for k t.
Proof. unfold counts_for. simpl. intros ->. reflexivity. Qed.

Lemma tasks_weight_app (ts ts' : list task) :
  tasks_weight (ts ++ ts') = (tasks_weight ts + tasks_weight ts')%nat.
Proof.
  unfold tasks_weight. induction ts as [|t ts IH]; simpl; [reflexivity | rewrite IH; lia].
Qed.

Lemma tasks_weight_insert (ts : list task) (i : nat) (t t' : task) :
  ts !! i = Some t ->
  (tasks_weight (<[i := t']> ts) + task_weight (t_pc t)
   = tasks_weight ts + task_weight (t_pc t'))%nat.
Proof.
  unfold tasks_weight. revert i. induction ts as [|t0 ts IH]; intros i H; [discriminate|].
  destruct i as [|i]; simpl in *.
  - inversion H; subst. lia.
  - pose proof (IH _ H). lia.
Qed.

(** The cases of a step: the line the thread stands at, and what the
    step found there. *)
Ltac loop_cases H :=
  unfold loop_step in H;
  match type of H with
  | context [match pc ?s with _ => _ end] => destruct (pc s) eqn:Hpc
  end;
  repeat match type of H with
         | context [match queue ?s with _ => _ end] => destruct (queue s) eqn:Hq
         | context [match mtx ?s with _ => _ end] => destruct (mtx s) eqn:Hm
         | context [if ?c then _ else _] => destruct c eqn:Hc
         end;
  try discriminate; inversion H; subst; clear H.

Ltac task_cases H t :=
  unfold task_step in H;
  match type of H with
  | context [match tasks ?s !! ?i with _ => _ end] =>
    destruct (tasks s !! i) as [t|] eqn:Ht; [|discriminate]
  end;
  destruct (t_pc t) eqn:Hpc;
  repeat match type of H with
         | context [match runCommand ?c with _ => _ end] =>
           destruct (runCommand c) as [[out0 e0]|] eqn:Hrun
         | context [match mtx ?s with _ => _ end] => destruct (mtx s) eqn:Hm
         | context [match ?e with Some _ => _ | None => _ end] => destruct e as [[[|]| |]|]
         end;
  try discriminate; inversion H; subst; clear H.

Ltac state_simpl :=
  cbn [pc mtx numChildren tasks queue next slots ctrs with_pc with_mtx
       with_numChildren with_tasks with_slots with_ctrs receive
       t_pc t_id t_req at_pc in_hand loop_locked task_locked counted loop_counted
       returned is_done] in *.

Lemma lookup_snoc_locked (ts : list task) (new : task) (i : nat) :
  task_locked (t_pc new) = false ->
  (∃ t, (ts ++ [new]) !! i = Some t ∧ task_locked (t_pc t) = true) <->
  (∃ t, ts !! i = Some t ∧ task_locked (t_pc t) = true).
Proof.
  intros Hnew. split; intros (t & Ht & Hl).
  - apply lookup_app_Some in Ht as [Ht|[_ Ht]]; [eauto|].
    apply list_lookup_singleton_Some in Ht as [_ ->]. congruence.
  - exists t. split; [|exact Hl]. apply lookup_app_l_Some, Ht.
Qed.

Lemma mutex_inv_loop_step (scriptWorkers : Z) (s s' : State) :
  mutex_inv s -> loop_step scriptWorkers s = Some s' -> mutex_inv s'.
Proof.
  intros [M1 M2] H. loop_cases H; state_simpl; (split; [|intros i; specialize (M2 i)]);
    state_simpl; try rewrite lookup_snoc_locked by reflexivity;
    try (intuition congruence).
  all: split; [discriminate|]; intros Hex; apply M2 in Hex; intuition congruence.
Qed.

Lemma lookup_insert_locked (ts : list task) (i j : nat) (t t2 : task) :
  ts !! i = Some t ->
  (∃ t', <[i := t2]> ts !! j = Some t' ∧ task_locked (t_pc t') = true) <->
  (if decide (j = i) then task_locked (t_pc t2) = true
   else ∃ t', ts !! j = Some t' ∧ task_locked (t_pc t') = true).
Proof.
  intros Hi. destruct (decide (j = i)) as [->|Hne].
  - rewrite list_lookup_insert_eq by (eapply lookup_lt_Some, Hi).
    split; [intros (t' & Ht' & Hl); congruence | eauto].
  - rewrite list_lookup_insert_ne by congruence. reflexivity.
Qed.

Lemma mutex_inv_task_step (i : nat) (s s' : State) :
  mutex_inv s -> task_step i s = Some s' -> mutex_inv s'.
Proof.
  intros [M1 M2] H. task_cases H t; unfold mutex_inv; state_simpl.
  all: assert (Hi : (∃ t', tasks s !! i = Some t' ∧ task_locked (t_pc t') = true)
                    <-> task_locked (t_pc t) = true)
         by (split; [intros (t' & Heq & Hl); congruence | intros Hl; eauto]);
       pose proof (M2 i) as Mi; rewrite Hi, Hpc in Mi; clear Hi; state_simpl.
  all: split; [|intros j; specialize (M2 j);
                rewrite (lookup_insert_locked _ _ _ _ _ Ht);
                destruct (decide (j = i)) as [->|Hne]]; state_simpl.
  all: try (intuition congruence).
  all: try (split; [intros; congruence | intros Hex; apply M2 in Hex; congruence]).
  all: try (intuition (try congruence; try discriminate)).

Qed.

Section TableInvariant.

Variable scriptWorkers : Z.
Hypothesis scriptWorkers_int : - 2 ^ 63 <= scriptWorkers < 2 ^ 63.

Lemma count_nonneg (s : State) (k : string) :
  count_inv s -> 0 <= get (numChildren s) k.
Proof.
  intros (C1 & _). rewrite C1.
  pose proof (running_nonneg k (tasks s)). pose proof (pending_range k (pc s)). lia.
Qed.

Lemma no_task_stores (s : State) (i : nat) (t : task) :
  mutex_inv s -> loop_locked (pc s) = true ->
  tasks s !! i = Some t -> task_locked (t_pc t) = true -> False.
Proof.
  intros [M1 M2] Hl Ht Hpc. apply M1 in Hl.
  assert (mtx s = Some (Task i)) by (apply M2; exists t; auto).
  congruence.
Qed.

Lemma task_load_ok_same (s s' : State) (t : task) :
  numChildren s' = numChildren s -> task_load_ok s t -> task_load_ok s' t.
Proof. unfold task_load_ok. intros ->. auto. Qed.

Lemma table_inv_loop_step (s s' : State) :
  table_inv scriptWorkers s -> loop_step scriptWorkers s = Some s' ->
  table_inv scriptWorkers s'.
Proof.
  intros (HM & HC & HB) H. split; [eapply mutex_inv_loop_step; eauto|].
  pose proof (count_nonneg s) as Hnn. specialize (fun k => Hnn k HC).
  pose proof (no_task_stores s) as Hns. specialize (fun i t => Hns i t HM).
  destruct HC as (C1 & C2 & C3). destruct HB as (B1 & B2).
  unfold count_inv, bound_inv, loop_load_ok, loop_bound_ok, pending in *.
  loop_cases H; state_simpl.
  all: try (split_and!; eauto using task_load_ok_same; fail).
  - split_and!; eauto using task_load_ok_same. lia.
  - apply Z.leb_gt in Hc. split_and!; eauto using task_load_ok_same. lia.
  - split_and!; try exact I.
    + intros k. rewrite get_insert, wrap_int_small by (specialize (Hnn (script req)); lia).
      specialize (C1 k). simpl in *.
      case_decide; case_bool_decide; try congruence; subst; lia.
    + intros i t Ht. unfold task_load_ok.
      destruct (t_pc t) eqn:Hpt; try exact I.
      exfalso. eapply (Hns i t); [reflexivity | exact Ht | rewrite Hpt; reflexivity].
    + intros k. rewrite get_insert, wrap_int_small by (specialize (Hnn (script req)); lia).
      case_decide; [lia | apply B1].
  - split_and!; try exact I; [| |exact B1].
    + intros k. rewrite running_app. specialize (C1 k). simpl in *.
      unfold counts_for. simpl. lia.
    + intros i t Ht. apply lookup_app_Some in Ht as [Ht|[_ Ht]].
      * eapply task_load_ok_same; [reflexivity | eauto].
      * apply list_lookup_singleton_Some in Ht as [_ <-]. exact I.
Qed.

Lemma tasks_load_ok_insert (s s' : State) (i : nat) (t t' : task) :
  tasks s !! i = Some t -> numChildren s' = numChildren s -> task_load_ok s' t' ->
  (∀ j t0, tasks s !! j = Some t0 -> task_load_ok s t0) ->
  ∀ j t0, <[i := t']> (tasks s) !! j = Some t0 -> task_load_ok s' t0.
Proof.
  intros Hi Hn Ht' Hall j t0 Hj. destruct (decide (j = i)) as [->|Hne].
  - rewrite list_lookup_insert_eq in Hj by (eapply lookup_lt_Some, Hi). congruence.
  - rewrite list_lookup_insert_ne in Hj by congruence.
    eapply task_load_ok_same; [exact Hn | eauto].
Qed.

Lemma two_tasks_locked (s : State) (i j : nat) (t t' : task) :
  mutex_inv s -> tasks s !! i = Some t -> task_locked (t_pc t) = true ->
  tasks s !! j = Some t' -> task_locked (t_pc t') = true -> i = j.
Proof.
  intros [_ M2] Hi Hl Hj Hl'.
  assert (mtx s = Some (Task i)) by (apply M2; eauto).
  assert (mtx s = Some (Task j)) by (apply M2; eauto).
  congruence.
Qed.

Lemma table_inv_task_step (i : nat) (s s' : State) :
  table_inv scriptWorkers s -> task_step i s = Some s' ->
  table_inv scriptWorkers s'.
Proof.
  intros (HM & HC & HB) H. split; [eapply mutex_inv_task_step; eauto|].
  pose proof (count_nonneg s) as Hnn. specialize (fun k => Hnn k HC).
  destruct HC as (C1 & C2 & C3). destruct HB as (B1 & B2).
  unfold count_inv, bound_inv, loop_load_ok, loop_bound_ok in *.
  task_cases H t; state_simpl.
  all: try (split_and!;
            [ intros k; rewrite (running_insert _ _ _ _ _ Ht), counts_for_at_pc
                by (rewrite Hpc; reflexivity); specialize (C1 k); lia
            | exact C2
            | eapply tasks_load_ok_insert; eauto; unfold task_load_ok; simpl;
              first [exact I | reflexivity]
            | exact B1
            | exact B2 ]; fail).
  (* the store of the decrement *)
  pose proof (C3 i t Ht) as Hn. unfold task_load_ok in Hn. rewrite Hpc in Hn. subst n.
  assert (Hl : task_locked (t_pc t) = true) by (rewrite Hpc; reflexivity).
  assert (H1 : 1 <= get (numChildren s) (script (t_req t))).
  { rewrite C1. pose proof (running_lookup (script (t_req t)) _ _ _ Ht) as Hr.
    unfold counts_for in Hr. rewrite Hpc in Hr. simpl in Hr.
    rewrite bool_decide_eq_true_2 in Hr by reflexivity.
    pose proof (pending_range (script (t_req t)) (pc s)). lia. }
  pose proof (B1 (script (t_req t))) as Hmax.
  assert (Hget : ∀ k, get (<[script (t_req t) := wrap_int (get (numChildren s) (script (t_req t)) - 1)]>
                             (numChildren s)) k
                      = get (numChildren s) k
                        - (if bool_decide (script (t_req t) = k) then 1 else 0)).
  { intros k. rewrite get_insert, wrap_int_small by lia.
    case_decide; case_bool_decide; try congruence; subst; lia. }
  split_and!.
  - intros k. rewrite Hget, (running_insert _ _ _ _ _ Ht), C1.
    unfold counts_for. rewrite Hpc. simpl. lia.
  - destruct (pc s) eqn:Hp; try exact I.
    exfalso. eapply (no_task_stores s i t); eauto. rewrite Hp. reflexivity.
  - intros j t0 Hj. destruct (decide (j = i)) as [->|Hne].
    + rewrite list_lookup_insert_eq in Hj by (eapply lookup_lt_Some, Ht).
      inversion Hj; subst. exact I.
    + rewrite list_lookup_insert_ne in Hj by congruence.
      unfold task_load_ok. destruct (t_pc t0) eqn:Hp0; try exact I.
      exfalso. apply Hne. eapply (two_tasks_locked s j i); eauto.
      rewrite Hp0. reflexivity.
  - intros k. rewrite Hget. specialize (B1 k). case_bool_decide; lia.
  - destruct (pc s); try exact I; rewrite ?Hget; try case_bool_decide; lia.
Qed.
End TableInvariant.

Lemma table_inv_init (scriptWorkers : Z) (reqs : list runreq) :
  table_inv scriptWorkers (init reqs).
Proof.
  unfold table_inv, mutex_inv, count_inv, bound_inv, loop_load_ok, loop_bound_ok.
  cbn [init pc mtx numChildren tasks loop_locked].
  split_and!; try exact I.
  - split; discriminate.
  - intros i. split; [discriminate|]. intros (t & Ht & _). discriminate.
  - intros k. reflexivity.
  - intros i t Ht. discriminate.
  - intros k. change (get ∅ k) with 0. lia.
Qed.

Lemma reachable_table_inv (scriptWorkers : Z) (reqs : list runreq) (s : State) :
  - 2 ^ 63 <= scriptWorkers < 2 ^ 63 ->
  reachable scriptWorkers reqs s -> table_inv scriptWorkers s.
Proof.
  intros Hsw. induction 1 as [|s t s' _ IH Hstep].
  - apply table_inv_init.
  - destruct t as [|i]; simpl in Hstep.
    + eapply table_inv_loop_step; eauto.
    + eapply table_inv_task_step; eauto.
Qed.

Lemma run_reachable (scriptWorkers : Z) (reqs : list runreq) (sched : list tid)
    (s s' : State) :
  reachable scriptWorkers reqs s -> run scriptWorkers sched s = Some s' ->
  reachable scriptWorkers reqs s'.
Proof.
  revert s. induction sched as [|t sched IH]; intros s Hr H; simpl in H.
  - inversion H; subst. exact Hr.
  - destruct t as [|i].
    + destruct (loop_step scriptWorkers s) as [s1|] eqn:E; [|discriminate].
      eapply IH; [|exact H]. eapply (reachable_step _ _ _ Loop); [exact Hr | exact E].
    + destruct (task_step i s) as [s1|] eqn:E; [|discriminate].
      eapply IH; [|exact H]. eapply (reachable_step _ _ _ (Task i)); [exact Hr | exact E].
Qed.

(** Only the two stores change the table, and the thread that stores holds
    the mutex. *)
Lemma store_under_mutex (scriptWorkers : Z) (t : tid) (s s' : State) :
  mutex_inv s -> step scriptWorkers t s s' ->
  numChildren s' <> numChildren s -> mtx s = Some t ∧ mtx s' = Some t.
Proof.
  intros [M1 M2] Hstep Hne. destruct t as [|i]; simpl in Hstep.
  - loop_cases Hstep; state_simpl; try congruence.
    assert (mtx s = Some Loop) by (apply M1; reflexivity). auto.
  - task_cases Hstep t; state_simpl; try congruence.
    assert (mtx s = Some (Task i)) by (apply M2; exists t; rewrite Hpc; auto). auto.
Qed.

(** C4, amended: in every state the handler reaches, whatever [int] the
    maximum is, every entry of the table is between 0 and the maximum, or
    0 when the maximum is negative; and a step that changes the table is
    taken by the thread that holds the mutex, which it still holds after
    the step. *)
Theorem numChildren_within_bounds (scriptWorkers : Z) (reqs : list runreq) (s : State) :
  - 2 ^ 63 <= scriptWorkers < 2 ^ 63 ->
  reachable scriptWorkers reqs s ->
  (∀ k, 0 <= get (numChildren s) k <= Z.max 0 scriptWorkers) ∧
  (0 <= scriptWorkers -> ∀ k, get (numChildren s) k <= scriptWorkers) ∧
  (∀ t s', step scriptWorkers t s s' -> numChildren s' <> numChildren s ->
           mtx s = Some t ∧ mtx s' = Some t).
Proof.
  intros Hsw Hr.
  destruct (reachable_table_inv scriptWorkers reqs s) as (HM & HC & HB & _);
    [lia | exact Hr |].
  split_and!.
  - intros k. split; [apply count_nonneg, HC|]. apply HB.
  - intros Hnn k. specialize (HB k). lia.
  - intros t s' Hstep Hne. eapply store_under_mutex; eauto.
Qed.

(** *** The result channels *)

Lemma lookup_insert_task (ts : list task) (i j : nat) (t t' t0 : task) :
  ts !! i = Some t ->
  <[i := t']> ts !! j = Some t0 <->
  (j = i ∧ t0 = t') ∨ (j <> i ∧ ts !! j = Some t0).
Proof.
  intros Hi. destruct (decide (j = i)) as [->|Hne].
  - rewrite list_lookup_insert_eq by (eapply lookup_lt_Some, Hi).
    split; [intros H; inversion H; auto | intros [[_ ->]|[? _]]; congruence].
  - rewrite list_lookup_insert_ne by congruence.
    split; [auto | intros [[? _]|[_ ?]]; congruence].
Qed.

Lemma admitted_frame (s s' : State) (id : nat) :
  (∀ i t, tasks s !! i = Some t -> t_id t = id ->
          ∃ t', tasks s' !! i = Some t' ∧ t_id t' = id ∧ t_req t' = t_req t ∧
                is_done (t_pc t') = is_done (t_pc t)) ->
  sent (slots s') id = sent (slots s) id ->
  admitted s id -> admitted s' id.
Proof.
  intros Hts Hsl (i & t & Ht & Hid & Hd).
  destruct (Hts i t Ht Hid) as (t' & Ht' & Hid' & Hreq & Hdone).
  exists i, t'. split; [exact Ht'|]. split; [exact Hid'|].
  rewrite Hdone, Hreq, Hsl. exact Hd.
Qed.

Lemma turned_down_frame (scriptWorkers : Z) (reqs : list runreq) (s s' : State) (id : nat) :
  (∀ i t', tasks s' !! i = Some t' -> t_id t' = id ->
           ∃ j t, tasks s !! j = Some t ∧ t_id t = id) ->
  sent (slots s') id = sent (slots s) id ->
  turned_down scriptWorkers reqs s id -> turned_down scriptWorkers reqs s' id.
Proof.
  intros Hts Hsl (Hno & req & cur & Hreq & Hcur & Hsent). split.
  - intros i t' Ht' Hid. destruct (Hts i t' Ht' Hid) as (j & t & Ht & Hid2).
    exact (Hno j t Ht Hid2).
  - exists req, cur. rewrite Hsl. auto.
Qed.

Lemma settled_with_pc (s : State) (p : loop_pc) :
  in_hand p = in_hand (pc s) -> settled (with_pc s p) = settled s.
Proof. unfold settled. simpl. intros ->. reflexivity. Qed.

Section ChannelInvariant.

Variable scriptWorkers : Z.
Variable reqs : list runreq.

Lemma channel_inv_init : channel_inv scriptWorkers reqs (init reqs).
Proof.
  unfold channel_inv, in_hand_ok, settled. cbn [init pc next queue tasks slots in_hand].
  split_and!; try exact I; try (intros; discriminate).
  - lia.
  - reflexivity.
  - intros id _. reflexivity.
  - intros id H. lia.
Qed.

Lemma channel_inv_loop_step (s s' : State) :
  channel_inv scriptWorkers reqs s -> loop_step scriptWorkers s = Some s' ->
  channel_inv scriptWorkers reqs s'.
Proof.
  intros (N1 & N2 & [H1 H2] & HT & HU & HE & HD) H.
  unfold channel_inv, in_hand_ok, task_ok, settled, admitted, turned_down in *.
  loop_cases H; state_simpl.
  all: try lazymatch type of H1 with _ ∧ _ => destruct H1 as [H1a H1b] end.
  all: try (split_and!; auto; fail).
  all: try (apply Z.leb_le in Hc; split_and!; auto; fail).
  - (* a request is received *)
    assert (Hr : reqs !! next s = Some r).
    { rewrite <- (Nat.add_0_r (next s)), <- lookup_drop, <- N2. reflexivity. }
    split_and!; auto.
    + apply lookup_lt_Some in Hr. lia.
    + rewrite <- Nat.add_1_r, <- drop_drop, <- N2. reflexivity.
  - (* the rejection is sent *)
    rewrite H1a in *. cbn [Init.Nat.pred] in *.
    split_and!; auto.
    + intros i t Ht. destruct (HT i t Ht) as (? & ? & ?). split_and!; auto with lia.
    + intros id0 Hid0. rewrite sent_send. case_decide; [lia|]. apply HE. lia.
    + intros id0 Hid0. rewrite sent_send. case_decide as Hd.
      * subst id0. right. split.
        -- intros i t Ht. destruct (HT i t Ht) as (? & _). lia.
        -- exists req, cur. rewrite HE by lia. auto.
      * apply HD. lia.
  - (* the goroutine is started *)
    rewrite H1a in *. cbn [Init.Nat.pred] in *.
    set (new := {| t_id := id; t_req := req; t_pc := T167 |}).
    assert (Hnew : ∀ i t, (tasks s ++ [new]) !! i = Some t ->
                          tasks s !! i = Some t ∨ (i = length (tasks s) ∧ t = new)).
    { intros i t Ht. apply lookup_app_Some in Ht as [Ht|[Hi Ht]]; [auto|].
      apply list_lookup_singleton_Some in Ht as [Hi0 <-]. right. split; [lia | reflexivity]. }
    split_and!; auto.
    + intros i t Ht. destruct (Hnew i t Ht) as [Ht'|[_ ->]].
      * destruct (HT i t Ht') as (? & ? & ?). split_and!; auto with lia.
      * simpl. split_and!; auto with lia.
    + intros i j t t' Ht Ht' Hid.
      destruct (Hnew i t Ht) as [Hi|[-> ->]]; destruct (Hnew j t' Ht') as [Hj|[-> ->]].
      * eapply HU; eauto.
      * destruct (HT i t Hi) as (? & _). simpl in Hid. lia.
      * destruct (HT j t' Hj) as (? & _). simpl in Hid. lia.
      * reflexivity.
    + intros id0 Hid0. apply HE. lia.
    + intros id0 Hid0. destruct (decide (id0 = id)) as [->|Hne].
      * left. exists (length (tasks s)), new. split_and!.
        -- rewrite lookup_app_r, Nat.sub_diag by lia. reflexivity.
        -- reflexivity.
        -- simpl. apply HE. lia.
      * destruct (HD id0) as [(i & t & Ht & Hid & Hd)|(Hno & Hrej)]; [lia| |].
        -- left. exists i, t. split_and!; auto. apply lookup_app_l_Some, Ht.
        -- right. split; [|exact Hrej].
           intros i t Ht. destruct (Hnew i t Ht) as [Ht'|[_ ->]]; [eauto|].
           simpl. congruence.
Qed.

(** A goroutine moves to its next line; [sl] is what it sends, if it
    does. *)
Lemma channel_inv_move (s s' : State) (i : nat) (t : task) (p : task_pc) :
  channel_inv scriptWorkers reqs s -> tasks s !! i = Some t ->
  tasks s' = <[i := at_pc t p]> (tasks s) ->
  pc s' = pc s -> next s' = next s -> queue s' = queue s ->
  match returned p with
  | Some r => runCommand (child (t_req t)) = Some r
  | None => True
  end ->
  is_done (t_pc t) = false ->
  (if is_done p
   then ∃ out e, runCommand (child (t_req t)) = Some (out, e) ∧
                 slots s' = send (slots s) (t_id t) {| output := out; err := e |}
   else slots s' = slots s) ->
  channel_inv scriptWorkers reqs s'.
Proof.
  intros (N1 & N2 & Hh & HT & HU & HE & HD) Ht Hts Hpc Hnext Hq Hret Hnd Hsl.
  assert (Hset : settled s' = settled s) by (unfold settled; rewrite Hpc, Hnext; reflexivity).
  assert (Hold : ∀ j t0, tasks s' !! j = Some t0 ->
                         ∃ t1, tasks s !! j = Some t1 ∧ t_id t1 = t_id t0 ∧
                               t_req t1 = t_req t0 ∧
                               ((j = i ∧ t1 = t ∧ t0 = at_pc t p) ∨ (j <> i ∧ t1 = t0))).
  { intros j t0 Hj. rewrite Hts in Hj.
    apply (lookup_insert_task _ _ _ _ _ _ Ht) in Hj as [[-> ->]|[Hne Hj]].
    - exists t. split_and!; auto.
    - exists t0. split_and!; auto. }
  assert (Hsent : ∀ id, id <> t_id t -> sent (slots s') id = sent (slots s) id).
  { intros id Hid. destruct (is_done p).
    - destruct Hsl as (out & e & _ & ->). rewrite sent_send. case_decide; congruence.
    - rewrite Hsl. reflexivity. }
  pose proof (HT i t Ht) as (Hlt & Hreq & _).
  unfold channel_inv. rewrite Hnext, Hq, Hset. split_and!; auto.
  - unfold in_hand_ok in *. rewrite Hpc, Hnext. exact Hh.
  - intros j t0 Hj. destruct (Hold j t0 Hj) as (t1 & Ht1 & Hid & Hrq & Hcase).
    destruct (HT j t1 Ht1) as (H1 & H2 & H3). unfold task_ok.
    rewrite Hset, <- Hid, <- Hrq. split_and!; auto.
    destruct Hcase as [(_ & -> & ->)|(_ & ->)]; [exact Hret | exact H3].
  - intros j1 j2 t1 t2 Hj1 Hj2 Hid.
    destruct (Hold j1 t1 Hj1) as (u1 & Hu1 & Hid1 & _).
    destruct (Hold j2 t2 Hj2) as (u2 & Hu2 & Hid2 & _).
    eapply HU; eauto. congruence.
  - intros id Hid. rewrite Hsent by lia. apply HE, Hid.
  - intros id Hid. destruct (decide (id = t_id t)) as [->|Hne].
    + left. exists i, (at_pc t p). split_and!.
      * rewrite Hts. apply list_lookup_insert_eq. eapply lookup_lt_Some, Ht.
      * reflexivity.
      * assert (Hempty : sent (slots s) (t_id t) = []).
        { destruct (HD (t_id t) Hid) as [(j & t0 & Hj & Hid0 & Hd)|(Hno & _)].
          - assert (j = i) by (eapply HU; eauto). subst j.
            assert (t0 = t) by congruence. subst t0.
            rewrite Hnd in Hd. exact Hd.
          - exfalso. eapply Hno; eauto. }
        simpl. destruct (is_done p).
        -- destruct Hsl as (out & e & Hrun & ->). exists out, e.
           split; [exact Hrun|]. rewrite sent_send, decide_True, Hempty by reflexivity.
           reflexivity.
        -- rewrite Hsl. exact Hempty.
    + destruct (HD id Hid) as [Hadm|Hrej].
      * left. eapply (admitted_frame s); [|apply Hsent, Hne|exact Hadm].
        intros j t0 Hj Hid0. assert (j <> i).
        { intros ->. assert (t0 = t) by congruence. subst. congruence. }
        exists t0. split_and!; auto. rewrite Hts, list_lookup_insert_ne by congruence.
        exact Hj.
      * right. eapply (turned_down_frame _ _ s); [|apply Hsent, Hne|exact Hrej].
        intros j t0 Hj Hid0. destruct (Hold j t0 Hj) as (t1 & Ht1 & Hid1 & _).
        exists j, t1. split; [exact Ht1 | congruence].
Qed.

Lemma channel_inv_task_step (i : nat) (s s' : State) :
  channel_inv scriptWorkers reqs s -> task_step i s = Some s' ->
  channel_inv scriptWorkers reqs s'.
Proof.
  intros Hinv H.
  assert (HT := Hinv). destruct HT as (_ & _ & _ & HT & _).
  task_cases H t; state_simpl.
  all: destruct (HT i t Ht) as (_ & _ & Hret); rewrite Hpc in Hret; state_simpl.
  all: eapply (channel_inv_move s _ i t); eauto; state_simpl;
         try rewrite Hpc; try reflexivity; eauto.
Qed.

End ChannelInvariant.

Lemma reachable_channel_inv (scriptWorkers : Z) (reqs : list runreq) (s : State) :
  reachable scriptWorkers reqs s -> channel_inv scriptWorkers reqs s.
Proof.
  induction 1 as [|s t s' _ IH Hstep].
  - apply channel_inv_init.
  - destruct t as [|i]; simpl in Hstep.
    + eapply channel_inv_loop_step; eauto.
    + eapply channel_inv_task_step; eauto.
Qed.

Lemma reachable_mutex_inv (scriptWorkers : Z) (reqs : list runreq) (s : State) :
  reachable scriptWorkers reqs s -> mutex_inv s.
Proof.
  induction 1 as [|s t s' _ IH Hstep].
  - apply (table_inv_init scriptWorkers reqs).
  - destruct t as [|i]; simpl in Hstep.
    + eapply mutex_inv_loop_step; eauto.
    + eapply mutex_inv_task_step; eauto.
Qed.

(** Every step uses up some of the work left. *)
Lemma step_measure (scriptWorkers : Z) (t : tid) (s s' : State) :
  step scriptWorkers t s s' -> (measure s' < measure s)%nat.
Proof.
  intros H. destruct t as [|i]; simpl in H; unfold measure.
  - loop_cases H; state_simpl; rewrite ?Hq, ?tasks_weight_app;
      cbn [loop_weight length]; try lia.
    change (tasks_weight [{| t_id := id; t_req := req; t_pc := T167 |}]) with 10%nat.
    lia.
  - task_cases H t; state_simpl.
    all: match goal with
         | |- context [tasks_weight (<[_ := ?t']> _)] =>
           pose proof (tasks_weight_insert _ _ _ t' Ht) as Hw
         end; rewrite Hpc in Hw; simpl in Hw; lia.
Qed.

Lemma all_done_or_not (ts : list task) :
  Forall (fun t => t_pc t = TDone) ts ∨
  ∃ i t, ts !! i = Some t ∧ is_done (t_pc t) = false.
Proof.
  induction ts as [|t ts [IH|(i & t' & Hi & Hd)]].
  - left. constructor.
  - destruct (t_pc t) eqn:Hpc;
      try (right; exists 0%nat, t; rewrite Hpc; split; reflexivity).
    left. constructor; assumption.
  - right. exists (S i), t'. split; assumption.
Qed.

(** A state in which no thread can take a step is quiescent, provided
    every [runCommand] returns. *)
Lemma progress (scriptWorkers : Z) (reqs : list runreq) (s : State) :
  Forall (fun req => is_Some (runCommand (child req))) reqs ->
  mutex_inv s -> channel_inv scriptWorkers reqs s ->
  (∃ t s', step scriptWorkers t s s') ∨ quiescent s.
Proof.
  intros Hret [M1 M2] (_ & _ & _ & HT & _).
  destruct (mtx s) as [[|i]|] eqn:Hm.
  - left. exists Loop. simpl. unfold loop_step.
    assert (Hl : loop_locked (pc s) = true) by (apply M1; reflexivity).
    destruct (pc s); try discriminate; eauto.
  - left. exists (Task i). simpl. unfold task_step.
    destruct (proj1 (M2 i) eq_refl) as (t & Ht & Hl). rewrite Ht.
    destruct (t_pc t); try discriminate; eauto.
  - destruct (pc s) eqn:Hpc;
      try (left; exists Loop; simpl; unfold loop_step; rewrite Hpc, ?Hm;
           try destruct (scriptWorkers <=? cur); eauto; fail).
    destruct (queue s) as [|r q] eqn:Hq.
    + destruct (all_done_or_not (tasks s)) as [Hall|(i & t & Ht & Hd)].
      * right. split_and!; assumption.
      * left. exists (Task i). simpl. unfold task_step. rewrite Ht.
        destruct (HT i t Ht) as (_ & Hreq & _).
        assert (Hrun : is_Some (runCommand (child (t_req t)))).
        { eapply (proj1 (Forall_lookup _ _) Hret). exact Hreq. }
        destruct Hrun as [[out e] Hrun].
        destruct (t_pc t); try discriminate; rewrite ?Hrun, ?Hm; eauto.
        -- destruct e0; eauto.
        -- destruct e0 as [[[|]| |]|]; eauto.
    + left. exists Loop. simpl. unfold loop_step. rewrite Hpc, Hq. eauto.
Qed.

Lemma sent_at_most_once (scriptWorkers : Z) (reqs : list runreq) (s : State) (id : nat) :
  channel_inv scriptWorkers reqs s -> (length (sent (slots s) id) <= 1)%nat.
Proof.
  intros (_ & _ & _ & _ & _ & HE & HD).
  destruct (Nat.le_gt_cases (settled s) id) as [Hid|Hid].
  - rewrite HE by exact Hid. simpl. lia.
  - destruct (HD id Hid) as [(i & t & _ & _ & Hd)|(_ & req & cur & _ & _ & Hs)].
    + destruct (is_done (t_pc t)).
      * destruct Hd as (out & e & _ & ->). simpl. lia.
      * rewrite Hd. simpl. lia.
    + rewrite Hs. simpl. lia.
Qed.

Lemma quiescent_answered (scriptWorkers : Z) (reqs : list runreq) (s : State)
    (id : nat) (req : runreq) :
  channel_inv scriptWorkers reqs s -> quiescent s -> reqs !! id = Some req ->
  answered scriptWorkers s id req.
Proof.
  intros (N1 & N2 & _ & HT & _ & _ & HD) (Hpc & Hq & Hall) Hreq.
  assert (Hnext : next s = length reqs).
  { rewrite Hq in N2. symmetry in N2. apply (f_equal (@length runreq)) in N2.
    rewrite length_drop in N2. simpl in N2. lia. }
  assert (Hid : (id < settled s)%nat).
  { unfold settled. rewrite Hpc. simpl. rewrite Hnext. eapply lookup_lt_Some, Hreq. }
  destruct (HD id Hid) as [(i & t & Ht & Hti & Hd)|(Hno & req' & cur & Hreq' & Hcur & Hs)].
  - destruct (HT i t Ht) as (_ & Hrt & _).
    assert (t_req t = req) by congruence. subst req.
    assert (Hdone : t_pc t = TDone) by (eapply (proj1 (Forall_lookup _ _) Hall); eauto).
    rewrite Hdone in Hd. simpl in Hd. destruct Hd as (out & e & Hrun & Hs).
    exists {| output := out; err := e |}. split; [exact Hs|]. left. eauto.
  - assert (req' = req) by congruence. subst req'.
    eexists. split; [exact Hs|]. right. split; [exact Hno|].
    exists cur. split; [exact Hcur|]. split; reflexivity.
Qed.

(** C6: in every state the handler reaches, no result channel has been
    sent more than one result; every request the loop has dealt with is
    either run by a goroutine, its channel holding the result of
    [runCommand] once the goroutine is done and nothing before, or was
    rejected, no goroutine running it and its channel holding one result
    with no output and the error [can't spawn a new instance of script
    ...: already have ... running], for a count that is at least the
    maximum; a result on the channel of a request that no goroutine runs
    is that error; every step uses up work, so that every run is finite;
    and, every [runCommand] returning, a run can only stop when every
    request has been sent exactly one result: the result of [runCommand]
    if a goroutine ran it, that error, with no goroutine, otherwise. *)
Theorem one_result_per_request (scriptWorkers : Z) (reqs : list runreq) (s : State) :
  Forall (fun req => is_Some (runCommand (child req))) reqs ->
  reachable scriptWorkers reqs s ->
  (∀ id, (length (sent (slots s) id) <= 1)%nat) ∧
  (∀ id, (id < settled s)%nat -> admitted s id ∨ turned_down scriptWorkers reqs s id) ∧
  (∀ id r, sent (slots s) id = [r] ->
     (∀ i t, tasks s !! i = Some t -> t_id t <> id) ->
     ∃ req cur, reqs !! id = Some req ∧ scriptWorkers <= cur ∧ output r = "" ∧
       err r = Some (Errorf ("can't spawn a new instance of script '" ++ script req
                             ++ "': already have "
                             ++ NilZero.string_of_int (Z.to_int cur) ++ " running"))) ∧
  (∀ t s', step scriptWorkers t s s' -> (measure s' < measure s)%nat) ∧
  ((∃ t s', step scriptWorkers t s s') ∨
   (quiescent s ∧ ∀ id req, reqs !! id = Some req -> answered scriptWorkers s id req)).
Proof.
  intros Hret Hr.
  pose proof (reachable_channel_inv _ _ _ Hr) as Hch.
  pose proof (reachable_mutex_inv _ _ _ Hr) as Hmx.
  split_and!.
  - intros id. eapply sent_at_most_once, Hch.
  - apply Hch.
  - intros id r Hs Hno. destruct Hch as (_ & _ & _ & _ & _ & HE & HD).
    destruct (Nat.le_gt_cases (settled s) id) as [Hid|Hid];
      [rewrite (HE id Hid) in Hs; discriminate|].
    destruct (HD id Hid) as [(i & t & Ht & Hti & _)|(_ & req & cur & Hreq & Hcur & Hs')].
    + exfalso. exact (Hno i t Ht Hti).
    + rewrite Hs' in Hs. inversion Hs; subst r.
      exists req, cur. split_and!; auto.
  - intros t s'. apply step_measure.
  - destruct (progress scriptWorkers reqs s Hret Hmx Hch) as [Hstep|Hq]; [left; exact Hstep|].
    right. split; [exact Hq|]. intros id req. apply quiescent_answered; assumption.
Qed.

(** *** Rejection *)

Section Rejection.

Variable scriptWorkers : Z.
Variable reqs : list runreq.
Hypothesis scriptWorkers_int : - 2 ^ 63 <= scriptWorkers < 2 ^ 63.

Lemma rejecting_loop_step (id : nat) (req : runreq) (cur : Z) (exceeds : gmap string Z)
    (n : nat) (s s' : State) :
  scriptWorkers <= cur ->
  rejecting id req cur exceeds (S n) s -> loop_step scriptWorkers s = Some s' ->
  rejecting id req cur exceeds n s' ∧
  tasks s' = tasks s ∧ numChildren s' = numChildren s.
Proof.
  intros Hcur Hrej H. unfold rejecting in Hrej.
  destruct n as [|[|[|[|[|n]]]]]; try contradiction;
    destruct Hrej as (Hpc & Hrej); unfold loop_step in H; rewrite Hpc in H.
  - inversion H; subst; clear H. destruct Hrej as (He & Hs). simpl.
    rewrite sent_send, decide_True, Hs by reflexivity. auto.
  - inversion H; subst; clear H. destruct Hrej as (He & Hs). simpl.
    rewrite He. auto.
  - destruct (Z.leb_spec scriptWorkers cur); [|lia].
    inversion H; subst; clear H. simpl. auto.
  - inversion H; subst; clear H. simpl. auto.
  - inversion H; subst; clear H. destruct Hrej as (Hg & He & Hs). simpl.
    rewrite Hg. auto.
Qed.

Lemma rejecting_task_step (id : nat) (req : runreq) (cur : Z) (exceeds : gmap string Z)
    (n i : nat) (s0 s s' : State) :
  reachable scriptWorkers reqs s ->
  rejecting id req cur exceeds n s -> untouched id s0 s -> task_step i s = Some s' ->
  rejecting id req cur exceeds n s' ∧ untouched id s0 s'.
Proof.
  intros Hr Hrej (Hlen & Hno & Hle) H.
  destruct (reachable_table_inv scriptWorkers reqs s scriptWorkers_int Hr)
    as (HM & HC & HB).
  pose proof (table_inv_task_step scriptWorkers scriptWorkers_int i s s'
                (conj HM (conj HC HB)) H) as (_ & HC' & _).
  assert (Hloop : pc s' = pc s) by (task_cases H t; reflexivity).
  assert (Hex : mConcExceeds (ctrs s') = mConcExceeds (ctrs s))
    by (task_cases H t; reflexivity).
  assert (Hids : ∀ j t', tasks s' !! j = Some t' ->
                         ∃ t, tasks s !! j = Some t ∧ t_id t = t_id t').
  { intros j t'. task_cases H t; state_simpl; intros Hj;
      apply (lookup_insert_task _ _ _ _ _ _ Ht) in Hj as [[-> ->]|[_ Hj]]; eauto. }
  assert (Hsent : sent (slots s') id = sent (slots s) id).
  { task_cases H t; state_simpl; try reflexivity.
    rewrite sent_send. case_decide as Hd; [|reflexivity].
    exfalso. eapply Hno; eauto. }
  assert (Hlen' : length (tasks s') = length (tasks s))
    by (task_cases H t; state_simpl; apply length_insert).
  assert (Hnum : ∀ k, get (numChildren s') k <= get (numChildren s) k).
  { intros k. task_cases H t; state_simpl; try lia.
    destruct HC as (C1 & _ & C3). pose proof (C3 i t Ht) as Hn.
    unfold task_load_ok in Hn. rewrite Hpc in Hn. subst n0.
    assert (1 <= get (numChildren s) (script (t_req t))).
    { rewrite C1. pose proof (running_lookup (script (t_req t)) _ _ _ Ht) as Hrl.
      unfold counts_for in Hrl. rewrite Hpc in Hrl. simpl in Hrl.
      rewrite bool_decide_eq_true_2 in Hrl by reflexivity.
      pose proof (pending_range (script (t_req t)) (pc s)). lia. }
    destruct HB as (B1 & _). pose proof (B1 (script (t_req t))).
    rewrite get_insert, wrap_int_small by lia. case_decide; subst; lia. }
  assert (Hsame : loop_locked (pc s) = true -> numChildren s' = numChildren s).
  { intros Hl. task_cases H t; state_simpl; try reflexivity.
    exfalso. eapply (no_task_stores s i t); eauto. rewrite Hpc. reflexivity. }
  split.
  - unfold rejecting in *.
    destruct n as [|[|[|[|[|[|n]]]]]]; try contradiction;
      rewrite Hloop, Hex, Hsent; try exact Hrej.
    destruct Hrej as (Hp & Hg & Hrest). rewrite Hsame by (rewrite Hp; reflexivity).
    auto.
  - split_and!.
    + congruence.
    + intros j t' Hj. destruct (Hids j t' Hj) as (t & Ht & <-). eauto.
    + intros k. specialize (Hnum k). specialize (Hle k). lia.
Qed.

Lemma rejecting_enabled (id : nat) (req : runreq) (cur : Z) (exceeds : gmap string Z)
    (n : nat) (s : State) :
  rejecting id req cur exceeds (S n) s -> is_Some (loop_step scriptWorkers s).
Proof.
  unfold rejecting, loop_step.
  destruct n as [|[|[|[|[|n]]]]]; try contradiction; intros (-> & _); eauto.
  destruct (scriptWorkers <=? cur); eauto.
Qed.

Lemma rejecting_run (id : nat) (req : runreq) (cur : Z) (exceeds : gmap string Z)
    (sched : list tid) (n : nat) (s0 s s' : State) :
  scriptWorkers <= cur ->
  reachable scriptWorkers reqs s ->
  rejecting id req cur exceeds (loop_steps sched + n) s -> untouched id s0 s ->
  run scriptWorkers sched s = Some s' ->
  rejecting id req cur exceeds n s' ∧ untouched id s0 s'.
Proof.
  intros Hcur. revert s. induction sched as [|[|i] sched IH]; intros s Hr Hrej Hun H;
    simpl in H.
  - inversion H; subst. auto.
  - destruct (loop_step scriptWorkers s) as [s1|] eqn:E; [|discriminate].
    destruct (rejecting_loop_step _ _ _ _ _ _ _ Hcur Hrej E) as (Hrej1 & Hts & Hn).
    apply (IH s1); auto.
    + eapply (reachable_step _ _ _ Loop); eauto.
    + unfold untouched in *. rewrite Hts, Hn. exact Hun.
  - destruct (task_step i s) as [s1|] eqn:E; [|discriminate].
    destruct (rejecting_task_step _ _ _ _ _ _ _ _ _ Hr Hrej Hun E) as (Hrej1 & Hun1).
    apply (IH s1); auto.
    eapply (reachable_step _ _ _ (Task i)); eauto.
Qed.

Lemma rejecting_alone (s : State) (id : nat) (req : runreq) :
  pc s = L150 id req ->
  scriptWorkers <= get (numChildren s) (script req) ->
  ∃ s', run scriptWorkers [Loop; Loop; Loop; Loop; Loop] s = Some s' ∧
        numChildren s' = numChildren s ∧ tasks s' = tasks s.
Proof.
  intros Hpc Hcur. cbn [run].
  assert (E1 : loop_step scriptWorkers s
               = Some (with_pc s (L151 id req (get (numChildren s) (script req)))))
    by (unfold loop_step; rewrite Hpc; reflexivity).
  rewrite E1. clear E1.
  set (cur := get (numChildren s) (script req)) in *.
  change (loop_step scriptWorkers (with_pc s (L151 id req cur)))
    with (Some (with_pc (with_mtx (with_pc s (L151 id req cur)) None) (L153 id req cur))).
  cbv beta iota.
  set (s2 := with_pc (with_mtx (with_pc s (L151 id req cur)) None) (L153 id req cur)).
  assert (E3 : loop_step scriptWorkers s2 = Some (with_pc s2 (L154 id req cur))).
  { unfold loop_step. cbn [pc s2 with_pc].
    destruct (Z.leb_spec scriptWorkers cur); [reflexivity | lia]. }
  rewrite E3. clear E3.
  change (loop_step scriptWorkers (with_pc s2 (L154 id req cur)))
    with (Some (with_pc (with_ctrs (with_pc s2 (L154 id req cur))
                           (add_ConcExceeds (ctrs s2) (script req)))
                  (L156 id req cur))).
  cbv beta iota.
  unfold loop_step. cbn [pc with_pc].
  eexists. split; [reflexivity|]. split; reflexivity.
Qed.

(** C3: the loop has the request [id] in hand and is about to read, under
    the mutex, the count of its script, which is at least the maximum.
    Then the rejection is five steps of the loop away and nothing holds
    it up: run alone, the loop takes these five steps and leaves the table
    and the goroutines exactly as they were; and whatever the goroutines
    do in between, the loop can take its next step until it has taken
    all five.  In every schedule in which it has taken them: the loop is
    back at the head of its loop; the channel of the request holds one
    result and nothing else, with no output and the error [can't spawn a
    new instance of script ...: already have ... running] for the count
    read; the overflow counter of the script is one more, the others
    unchanged; no goroutine was started and none runs the request; and
    no entry of the table has grown. *)
Theorem admission_rejects (s : State) (id : nat) (req : runreq) :
  reachable scriptWorkers reqs s ->
  pc s = L150 id req ->
  scriptWorkers <= get (numChildren s) (script req) ->
  (∃ s', run scriptWorkers [Loop; Loop; Loop; Loop; Loop] s = Some s' ∧
         numChildren s' = numChildren s ∧ tasks s' = tasks s) ∧
  (∀ sched s1, run scriptWorkers sched s = Some s1 -> (loop_steps sched < 5)%nat ->
     is_Some (loop_step scriptWorkers s1)) ∧
  (∀ sched s', run scriptWorkers sched s = Some s' -> loop_steps sched = 5%nat ->
     pc s' = L148 ∧
     sent (slots s') id
     = [{| output := "";
           err := Some (Errorf
             ("can't spawn a new instance of script '" ++ script req
              ++ "': already have "
              ++ NilZero.string_of_int (Z.to_int (get (numChildren s) (script req)))
              ++ " running")) |}] ∧
     get (mConcExceeds (ctrs s')) (script req)
     = get (mConcExceeds (ctrs s)) (script req) + 1 ∧
     (∀ k, k <> script req ->
        get (mConcExceeds (ctrs s')) k = get (mConcExceeds (ctrs s)) k) ∧
     length (tasks s') = length (tasks s) ∧
     (∀ i t, tasks s' !! i = Some t -> t_id t <> id) ∧
     (∀ k, get (numChildren s') k <= get (numChildren s) k)).
Proof.
  intros Hr Hpc Hcur.
  destruct (reachable_channel_inv _ _ _ Hr) as (_ & _ & [Hh _] & HT & _ & HE & _).
  rewrite Hpc in Hh. simpl in Hh. destruct Hh as [Hnext _].
  assert (Hset : settled s = id) by (unfold settled; rewrite Hpc, Hnext; reflexivity).
  assert (Hrej : rejecting id req (get (numChildren s) (script req))
                   (mConcExceeds (ctrs s)) 5 s).
  { unfold rejecting. split_and!; auto. apply HE. lia. }
  assert (Hun : untouched id s s).
  { unfold untouched. split_and!; auto.
    - intros i t Ht. destruct (HT i t Ht) as (Hlt & _). lia.
    - intros k. lia. }
  split_and!.
  - apply (rejecting_alone s id req); assumption.
  - intros sched s1 Hrun Hlt.
    assert (Hex : ∃ n, (loop_steps sched + S n = 5)%nat)
      by (exists (4 - loop_steps sched)%nat; lia).
    destruct Hex as [n Hn].
    destruct (rejecting_run id req _ (mConcExceeds (ctrs s)) sched (S n) s s s1 Hcur Hr)
      as (Hrej1 & _); auto.
    { rewrite Hn. exact Hrej. }
    eapply rejecting_enabled; exact Hrej1.
  - intros sched s' Hrun Hn.
    destruct (rejecting_run id req _ (mConcExceeds (ctrs s)) sched 0 s s s' Hcur Hr)
      as ((Hp' & He' & Hs') & Hl' & Hno' & Hle'); auto.
    { rewrite Hn. exact Hrej. }
    split_and!; auto.
    + rewrite He'. unfold add, get. rewrite lookup_insert_eq. reflexivity.
    + intros k Hk. rewrite He'. unfold add, get.
      rewrite lookup_insert_ne by congruence. reflexivity.
Qed.

End Rejection.

(** *** The handler evaluated *)

Lemma at_read_reachable : reachable 1 two_requests at_read.
Proof.
  apply (run_reachable 1 two_requests (repeat Loop 13) (init two_requests)).
  - apply reachable_init.
  - vm_compute. reflexivity.
Qed.

Lemma after_rejection_run : run 1 reject_schedule at_read = Some after_rejection.
Proof. vm_compute. reflexivity. Qed.

Lemma after_rejection_reachable : reachable 1 two_requests after_rejection.
Proof.
  apply (run_reachable 1 two_requests reject_schedule at_read).
  - exact at_read_reachable.
  - exact after_rejection_run.
Qed.

Lemma two_requests_return :
  Forall (fun req => is_Some (runCommand (child req))) two_requests.
Proof. repeat constructor; eexists; reflexivity. Qed.

Lemma admission_rejects_witness :
  pc at_read = L150 1 echo_request ∧
  1 <= get (numChildren at_read) (script echo_request) ∧
  sent (slots after_rejection) 1
  = [{| output := "";
        err := Some (Errorf
          "can't spawn a new instance of script 'echo': already have 1 running") |}] ∧
  get (mConcExceeds (ctrs after_rejection)) "echo" = 1 ∧
  length (tasks after_rejection) = 1%nat.
Proof.
  assert (Hpc : pc at_read = L150 1 echo_request) by (vm_compute; reflexivity).
  assert (Hget : get (numChildren at_read) (script echo_request) = 1)
    by (vm_compute; reflexivity).
  assert (Hcur : 1 <= get (numChildren at_read) (script echo_request))
    by (rewrite Hget; lia).
  assert (Hint : - 2 ^ 63 <= 1 < 2 ^ 63) by lia.
  destruct (admission_rejects 1 two_requests Hint at_read 1 echo_request
              at_read_reachable Hpc Hcur) as (_ & _ & H).
  destruct (H reject_schedule after_rejection after_rejection_run eq_refl)
    as (_ & Hs & He & _ & Hl & _).
  split; [exact Hpc|]. split; [exact Hcur|]. split; [rewrite Hs, Hget; reflexivity|].
  split; [etransitivity; [exact He|]; vm_compute; reflexivity|].
  rewrite Hl. vm_compute. reflexivity.
Defined.

Lemma numChildren_within_bounds_witness :
  - 2 ^ 63 <= 1 < 2 ^ 63 ∧ reachable 1 two_requests after_rejection ∧
  0 <= get (numChildren after_rejection) "echo" <= 1.
Proof.
  assert (Hint : - 2 ^ 63 <= 1 < 2 ^ 63) by lia.
  split; [exact Hint|]. split; [exact after_rejection_reachable|].
  exact (proj1 (numChildren_within_bounds 1 two_requests after_rejection Hint
                  after_rejection_reachable) "echo").
Defined.

Lemma below_zero_run : run (-1) (repeat Loop 7) (init two_requests) = Some below_zero.
Proof. vm_compute. reflexivity. Qed.

(** C4, as stated, fails for a negative maximum, which the flag
    [-script-workers] accepts: with [-1] the loop rejects the first
    request, and the entry of its script, which is 0, exceeds the
    maximum. *)
Lemma numChildren_negative_maximum :
  reachable (-1) two_requests below_zero ∧
  pc below_zero = L148 ∧ next below_zero = 1%nat ∧
  sent (slots below_zero) 0
  = [{| output := "";
        err := Some (Errorf
          "can't spawn a new instance of script 'echo': already have 0 running") |}] ∧
  get (numChildren below_zero) "echo" = 0 ∧
  ¬ (get (numChildren below_zero) "echo" <= -1).
Proof.
  split.
  - eapply run_reachable; [apply reachable_init | exact below_zero_run].
  - split_and!; try (vm_compute; reflexivity). vm_compute. intros H. apply H. reflexivity.
Qed.

Lemma one_result_per_request_witness :
  Forall (fun req => is_Some (runCommand (child req))) two_requests ∧
  reachable 1 two_requests after_rejection ∧
  (length (sent (slots after_rejection) 1) <= 1)%nat ∧
  sent (slots after_rejection) 1
  = [{| output := "";
        err := Some (Errorf
          "can't spawn a new instance of script 'echo': already have 1 running") |}].
Proof.
  split; [exact two_requests_return|]. split; [exact after_rejection_reachable|].
  split; [|vm_compute; reflexivity].
  exact (proj1 (one_result_per_request 1 two_requests after_rejection
                  two_requests_return after_rejection_reachable) 1%nat).
Defined.

(** * Further properties *)

(** ** makeValidPromName, continued *)

Lemma byte_of_range (a : ascii) : 0 <= byte_of a < 256.
Proof.
  unfold byte_of. pose proof (N_ascii_bounded a) as H. lia.
Qed.

Lemma ascii_of_byte_of (a : ascii) : ascii_of (byte_of a) = a.
Proof. unfold ascii_of, byte_of. rewrite N2Z.id. apply ascii_N_embedding. Qed.

Lemma byte_of_ascii_of (b : Z) : 0 <= b < 256 -> byte_of (ascii_of b) = b.
Proof.
  intros H. unfold ascii_of, byte_of. rewrite N_ascii_embedding; lia.
Qed.

Lemma string_of_bytes_of (s : string) : string_of (bytes_of s) = s.
Proof.
  unfold string_of, bytes_of. rewrite map_map.
  rewrite (map_ext _ id) by apply ascii_of_byte_of.
  rewrite map_id. apply string_of_list_ascii_of_string.
Qed.

Lemma bytes_of_string_of (bs : list Z) :
  Forall (fun b => 0 <= b < 256) bs -> bytes_of (string_of bs) = bs.
Proof.
  intros H. unfold string_of, bytes_of. rewrite list_ascii_of_string_of_list_ascii, map_map.
  induction H as [|b bs Hb _ IH]; simpl; [reflexivity|].
  rewrite byte_of_ascii_of by exact Hb. f_equal. exact IH.
Qed.

Lemma length_string_of (bs : list Z) : String.length (string_of bs) = length bs.
Proof.
  unfold string_of. induction bs as [|b bs IH]; simpl; [reflexivity | f_equal; exact IH].
Qed.

Lemma length_bytes_of (s : string) : length (bytes_of s) = String.length s.
Proof.
  unfold bytes_of. rewrite length_map. induction s; simpl; congruence.
Qed.

Lemma keeps_ascii (r : Z) : keeps r = true -> 0 <= r < 128.
Proof. unfold keeps. lia. Qed.

(** Whatever the counter, the closure returns a letter, a digit or an
    underscore, and returns it again when given it at the same count. *)
Lemma promNameRune_range (i r : Z) :
  keeps (promNameRune i r).2 = true ∧
  promNameRune i (promNameRune i r).2 = promNameRune i r.
Proof.
  unfold promNameRune, keeps.
  destruct ((97 <=? r) && (r <=? 122) || (65 <=? r) && (r <=? 90) || (r =? 95)) eqn:E1; simpl.
  - rewrite E1. simpl. split; reflexivity.
  - destruct ((0 <? wrap_int (i + 1)) && ((48 <=? r) && (r <=? 57))) eqn:E2; simpl.
    + rewrite E1, E2. simpl. split; [|reflexivity].
      apply andb_prop in E2 as [_ E2]. exact E2.
    + split; reflexivity.
Qed.

Lemma EncodeRune_ascii (r : Z) : 0 <= r < 128 -> utf8.EncodeRune r = [r].
Proof.
  intros H. unfold utf8.EncodeRune.
  destruct (Z.leb_spec 0 r); [|lia]. destruct (Z.ltb_spec r 128); [|lia]. reflexivity.
Qed.

Lemma DecodeRune_ascii (b : Z) (t : list Z) : b < 128 -> utf8.DecodeRune (b :: t) = (b, 1%nat).
Proof.
  intros H. unfold utf8.DecodeRune, utf8.RuneSelf.
  destruct (Z.ltb_spec b 128); [reflexivity | lia].
Qed.

(** Every rune, whatever its width, becomes one byte. *)
Lemma Map_runes_promNameRune (i : Z) (rs : list (Z * list Z)) :
  Forall (fun b => keeps b = true) (strings.Map_runes promNameRune i rs) ∧
  length (strings.Map_runes promNameRune i rs) = length rs.
Proof.
  revert i. induction rs as [|[c bs] rs IH]; intros i; simpl; [split; [constructor | reflexivity]|].
  destruct (promNameRune_range i c) as [Hk _].
  destruct (promNameRune i c) as [i' r]. simpl in Hk.
  pose proof (keeps_ascii r Hk) as Hr.
  destruct (Z.leb_spec 0 r); [|lia].
  rewrite EncodeRune_ascii by exact Hr. simpl.
  destruct (IH i') as [IH1 IH2]. split; [constructor; assumption | f_equal; exact IH2].
Qed.

Lemma range_from_length (skip : nat) (p : list Z) :
  (length (utf8.range_from skip p) <= length p)%nat.
Proof.
  revert skip. induction p as [|b t IH]; intros skip; simpl; [lia|].
  destruct skip as [|k]; [|specialize (IH k); lia].
  destruct (utf8.DecodeRune (b :: t)) as [r w]. simpl. specialize (IH (w - 1)%nat). lia.
Qed.

Lemma Map_runes_idempotent (i : Z) (rs : list (Z * list Z)) :
  strings.Map_runes promNameRune i
    (utf8.range_from 0 (strings.Map_runes promNameRune i rs))
  = strings.Map_runes promNameRune i rs.
Proof.
  revert i. induction rs as [|[c bs] rs IH]; intros i; simpl; [reflexivity|].
  destruct (promNameRune_range i c) as [Hk Hi].
  destruct (promNameRune i c) as [i' r] eqn:E. simpl in Hk, Hi.
  pose proof (keeps_ascii r Hk) as Hr.
  destruct (Z.leb_spec 0 r); [|lia].
  rewrite EncodeRune_ascii by exact Hr.
  cbn [app utf8.range_from]. rewrite DecodeRune_ascii by lia.
  cbn [strings.Map_runes Nat.sub]. rewrite Hi.
  destruct (Z.leb_spec 0 r); [|lia].
  rewrite EncodeRune_ascii by exact Hr. simpl. f_equal. apply IH.
Qed.

Lemma keeps_bytes (bs : list Z) :
  Forall (fun b => keeps b = true) bs -> Forall (fun b => 0 <= b < 256) bs.
Proof.
  intros H. eapply Forall_impl; [exact H|]. intros b Hb. apply keeps_ascii in Hb. lia.
Qed.

(** X1: the result of [makeValidPromName] is made of letters, digits and
    underscores only, whatever the name it is given: bytes that are not
    ASCII, valid UTF-8 or not, included. *)
Theorem makeValidPromName_charset (s : string) :
  Forall (fun b => keeps b = true) (bytes_of (makeValidPromName s)).
Proof.
  unfold makeValidPromName, strings.Map.
  destruct (Map_runes_promNameRune 0 (utf8.range s)) as [H _].
  rewrite bytes_of_string_of by (apply keeps_bytes, H). exact H.
Qed.

(** X2: sanitizing a sanitized name changes nothing. *)
Theorem makeValidPromName_idempotent (s : string) :
  makeValidPromName (makeValidPromName s) = makeValidPromName s.
Proof.
  unfold makeValidPromName, strings.Map, utf8.range.
  destruct (Map_runes_promNameRune 0 (utf8.range_from 0 (bytes_of s))) as [H _].
  rewrite bytes_of_string_of by (apply keeps_bytes, H).
  rewrite Map_runes_idempotent. reflexivity.
Qed.

(** X3: the sanitized name has one byte for each rune of the name: a rune
    of several bytes, or a byte that is not valid UTF-8, becomes a single
    underscore, so the result is never longer than the name. *)
Theorem makeValidPromName_length (s : string) :
  String.length (makeValidPromName s) = length (utf8.range s) ∧
  (String.length (makeValidPromName s) <= String.length s)%nat.
Proof.
  unfold makeValidPromName, strings.Map.
  destruct (Map_runes_promNameRune 0 (utf8.range s)) as [_ H].
  rewrite length_string_of, H. split; [reflexivity|].
  unfold utf8.range. rewrite <- length_bytes_of. apply range_from_length.
Qed.

(** X4: the names [makeValidPromName] leaves as they are are those made of
    letters, digits and underscores. *)
Theorem makeValidPromName_fixed (s : string) :
  Z.of_nat (String.length s) < 2 ^ 63 ->
  makeValidPromName s = s <-> Forall (fun b => keeps b = true) (bytes_of s).
Proof.
  intros Hlen. split.
  - intros H. rewrite <- H at 1.
    unfold makeValidPromName, strings.Map.
    destruct (Map_runes_promNameRune 0 (utf8.range s)) as [Hk _].
    rewrite bytes_of_string_of by (apply keeps_bytes, Hk). exact Hk.
  - intros Hk. unfold makeValidPromName, strings.Map, utf8.range.
    rewrite Map_runes_ascii.
    + rewrite <- (string_of_bytes_of s) at 2. f_equal.
      induction Hk as [|b bs Hb _ IH]; simpl; [reflexivity|].
      unfold sanitize_byte at 1. rewrite Hb. f_equal. exact IH.
    + eapply Forall_impl; [exact Hk|]. intros b Hb. apply keeps_ascii, Hb.
    + lia.
    + rewrite length_bytes_of. lia.
Qed.

(** ** parseTcollectorValue and translateOpenTsdb, continued *)

Lemma ParseUint_from_nonneg (acc : Z) (p : list Z) (un : Z) :
  0 <= acc -> strconv.ParseUint_from acc p = Some un -> 0 <= un.
Proof.
  revert acc. induction p as [|b t IH]; simpl; intros acc Hacc H.
  - congruence.
  - unfold strconv.digit in H.
    destruct ((48 <=? b) && (b <=? 57)) eqn:E; [|discriminate].
    apply (IH (10 * acc + (b - 48))); [lia | exact H].
Qed.

(** A timestamp [strconv.ParseInt] accepts is an [int64]. *)
Lemma ParseInt_int64 (s : string) (z : Z) :
  strconv.ParseInt s = Some z -> - 2 ^ 63 <= z < 2 ^ 63.
Proof.
  unfold strconv.ParseInt. destruct (bytes_of s) as [|s0 t]; [discriminate|].
  set (body := if (s0 =? 43) || (s0 =? 45) then t else s0 :: t).
  destruct body as [|b0 body'] eqn:Eb; [discriminate|].
  destruct (strconv.ParseUint_from 0 (b0 :: body')) as [un|] eqn:Eu; [|discriminate].
  apply ParseUint_from_nonneg in Eu; [|lia].
  destruct (s0 =? 45); simpl.
  - destruct (Z.ltb_spec (2 ^ 63) un); [discriminate|]. intros Hz. inversion Hz. lia.
  - destruct (Z.leb_spec (2 ^ 63) un); [discriminate|]. intros Hz. inversion Hz. lia.
Qed.

Lemma scan_None_fits (raw : list (list Z)) (tokens : list string) :
  bufio.scan raw = (tokens, None) ->
  Forall (fun l => Z.of_nat (length l) < bufio.MaxScanTokenSize) raw.
Proof.
  revert tokens. induction raw as [|l raw IH]; simpl; intros tokens H; [constructor|].
  destruct (Z.leb_spec bufio.MaxScanTokenSize (Z.of_nat (length l))); [discriminate|].
  destruct (bufio.scan raw) as [ts e]. inversion H; subst.
  constructor; [assumption | eapply IH; reflexivity].
Qed.

(** A newline appended to a text ends its last line, if that line is not
    empty, and adds an empty line otherwise. *)
Lemma lines_from_newline (cur p : list Z) :
  bufio.lines_from cur (p ++ [10]) = bufio.lines_from cur p ∨
  bufio.lines_from cur (p ++ [10]) = bufio.lines_from cur p ++ [[]].
Proof.
  revert cur. induction p as [|b t IH]; intros cur; simpl.
  - destruct cur; [right | left]; reflexivity.
  - destruct (b =? 10).
    + destruct (IH []) as [-> | ->]; [left | right]; reflexivity.
    + apply IH.
Qed.

Lemma scan_empty_line (raw : list (list Z)) :
  bufio.scan (raw ++ [[]]) =
  match bufio.scan raw with
  | (ts, None) => (ts ++ [""], None)
  | (ts, Some e) => (ts, Some e)
  end.
Proof.
  induction raw as [|l raw IH]; simpl; [reflexivity|].
  destruct (bufio.MaxScanTokenSize <=? Z.of_nat (length l)); [reflexivity|].
  rewrite IH. destruct (bufio.scan raw) as [ts [e|]]; reflexivity.
Qed.

Lemma bytes_of_app (s1 s2 : string) : bytes_of (s1 ++ s2) = bytes_of s1 ++ bytes_of s2.
Proof.
  unfold bytes_of. rewrite <- map_app. f_equal.
  induction s1 as [|a s1 IH]; simpl; [reflexivity | f_equal; exact IH].
Qed.

Section TranslationMore.

Variable ParseFloat : string -> option float.
Variable ValidTSDBString : string -> bool.
Variable ParseTags : string -> result TagSet.
Variable rangeTags : nat -> TagSet -> list (string * string).
Variable IsValidMetricName : string -> bool.
Variable checkLabelName : string -> bool.

Local Abbreviation parse := (parseTcollectorValue ParseFloat ValidTSDBString ParseTags).
Local Abbreviation tags_of := (parse_tags ParseTags).
Local Abbreviation silent_on := (defines_no ParseTags).
Local Abbreviation loop := (scan_loop ParseFloat ValidTSDBString ParseTags).
Local Abbreviation metric_at := (metric_of rangeTags IsValidMetricName checkLabelName).
Local Abbreviation metrics_from :=
  (dpointsToMetrics_from rangeTags IsValidMetricName checkLabelName).
Local Abbreviation to_metrics :=
  (dpointsToMetrics rangeTags IsValidMetricName checkLabelName).
Local Abbreviation translate :=
  (translateOpenTsdb ParseFloat ValidTSDBString ParseTags rangeTags
     IsValidMetricName checkLabelName).

Lemma parse_tags_Ok (sp0 : string) (tokens : list string) (tags : TagSet) :
  is_Ok (tags_of sp0 tokens tags) = true <->
  Forall (fun tag => is_Ok (ParseTags tag) = true) tokens.
Proof.
  revert tags. induction tokens as [|tag rest IH]; intros tags; simpl.
  - split; [constructor | reflexivity].
  - destruct (ParseTags tag) as [ts|msg] eqn:E.
    + rewrite IH. split.
      * intros H. constructor; [rewrite E; reflexivity | exact H].
      * intros H. inversion H; assumption.
    + simpl. split; [discriminate|]. intros H. inversion H as [|? ? H1 _]; subst.
      rewrite E in H1. discriminate.
Qed.

(** X6: [parseTcollectorValue] accepts exactly the lines of at least three
    fields whose second field is a decimal [int64], whose third field is a
    float, whose first field is a valid OpenTSDB name and whose further
    fields are all tag tokens [ParseTags] accepts. *)
Theorem parseTcollectorValue_accepts (line : string) :
  is_Ok (parse line) = true <->
  ∃ sp0 sp1 sp2 rest,
    strings.Fields line = sp0 :: sp1 :: sp2 :: rest ∧
    is_Some (strconv.ParseInt sp1) ∧ is_Some (ParseFloat sp2) ∧
    ValidTSDBString sp0 = true ∧
    Forall (fun tag => is_Ok (ParseTags tag) = true) rest.
Proof.
  unfold parseTcollectorValue.
  destruct (strings.Fields line) as [|sp0 [|sp1 [|sp2 rest]]];
    try (split; [discriminate | intros (? & ? & ? & ? & ? & _); discriminate]).
  split.
  - intros H. exists sp0, sp1, sp2, rest. split; [reflexivity|].
    destruct (strconv.ParseInt sp1); [|discriminate].
    destruct (ParseFloat sp2); [|discriminate].
    destruct (ValidTSDBString sp0); [|discriminate]. simpl in H.
    split_and!; eauto.
    apply (parse_tags_Ok sp0 rest ∅).
    destruct (tags_of sp0 rest ∅); [reflexivity | discriminate].
  - intros (a & b & c & r & Heq & [ts Hts] & [x Hx] & Hv & Ht).
    inversion Heq; subst. rewrite Hts, Hx, Hv. simpl.
    apply (parse_tags_Ok a r ∅) in Ht.
    destruct (tags_of a r ∅); [reflexivity | discriminate].
Qed.

(** X7: the data point of a line that parses: its metric is the first
    field, a valid OpenTSDB name; its timestamp is the second field read as
    a decimal [int64]; its value is the third field read as a float, and
    is a [float64], so that [dpointsToMetrics] passes it on as it is. *)
Theorem parseTcollectorValue_sound (line : string) (dp : DataPoint) :
  parse line = Ok dp ->
  ∃ sp1 sp2 rest x,
    strings.Fields line = dp_Metric dp :: sp1 :: sp2 :: rest ∧
    ValidTSDBString (dp_Metric dp) = true ∧
    strconv.ParseInt sp1 = Some (dp_Timestamp dp) ∧
    - 2 ^ 63 <= dp_Timestamp dp < 2 ^ 63 ∧
    ParseFloat sp2 = Some x ∧ dp_Value dp = VFloat64 x ∧
    value_of (dp_Value dp) = x.
Proof.
  intros H. apply parse_Ok_fields in H as (sp1 & sp2 & rest & HF & HI & (x & HV & Hx) & HM & _).
  exists sp1, sp2, rest, x. split_and!; try assumption.
  - apply (ParseInt_int64 sp1), HI.
  - apply (ParseInt_int64 sp1), HI.
  - rewrite Hx. reflexivity.
Qed.

Lemma parse_tags_lookup (sp0 : string) (tokens : list string) (tags result : TagSet)
    (k : string) :
  tags_of sp0 tokens tags = Ok result ->
  ∀ v, result !! k = Some v <->
    (tags !! k = Some v ∧ silent_on k tokens) ∨
    ∃ pre tag post ts, tokens = pre ++ tag :: post ∧ ParseTags tag = Ok ts ∧
      ts !! k = Some v ∧ silent_on k post.
Proof.
  revert tags. induction tokens as [|tag rest IH]; intros tags H v; simpl in H.
  - inversion H; subst. split.
    + intros Hk. left. split; [exact Hk | constructor].
    + intros [[Hk _]|(pre & tag & post & ts & Heq & _)]; [exact Hk|].
      destruct pre; discriminate.
  - destruct (ParseTags tag) as [ts|msg] eqn:E; [|discriminate].
    rewrite (IH _ H v). unfold Merge. split.
    + intros [[Hk Hs]|(pre & tag' & post & ts' & Heq & Hp & Hk & Hs)].
      * apply lookup_union_Some_raw in Hk as [Hk|[Hn Hk]].
        -- right. exists [], tag, rest, ts. auto.
        -- left. split; [exact Hk|]. constructor; [|exact Hs].
           intros ts' Hts'. congruence.
      * right. exists (tag :: pre), tag', post, ts'. subst rest. auto.
    + intros [[Hk Hs]|(pre & tag' & post & ts' & Heq & Hp & Hk & Hs)].
      * inversion Hs as [|? ? Hs1 Hs2]; subst. left. split; [|exact Hs2].
        apply lookup_union_Some_raw. right. split; [apply Hs1, E | exact Hk].
      * destruct pre as [|t0 pre]; simpl in Heq; inversion Heq; subst.
        -- left. split; [|exact Hs].
           apply lookup_union_Some_raw. left. congruence.
        -- right. exists pre, tag', post, ts'. auto.
Qed.

(** X8: the tags of a data point are those of its tag tokens, a later token
    overriding an earlier one on the keys they share: a key has the value
    the last token that defines it gives it. *)
Theorem parseTcollectorValue_last_tag_wins (line : string) (dp : DataPoint) (k v : string) :
  parse line = Ok dp ->
  dp_Tags dp !! k = Some v <->
  ∃ sp0 sp1 sp2 pre tag post ts,
    strings.Fields line = sp0 :: sp1 :: sp2 :: pre ++ tag :: post ∧
    ParseTags tag = Ok ts ∧ ts !! k = Some v ∧ silent_on k post.
Proof.
  intros H. apply parse_Ok_fields in H as (sp1 & sp2 & rest & HF & _ & _ & _ & HT).
  rewrite (parse_tags_lookup _ _ _ _ k HT v). split.
  - intros [[Hk _]|(pre & tag & post & ts & Heq & Hp & Hk & Hs)].
    + rewrite lookup_empty in Hk. discriminate.
    + exists (dp_Metric dp), sp1, sp2, pre, tag, post, ts. subst rest. auto.
  - intros (sp0 & a & b & pre & tag & post & ts & Heq & Hp & Hk & Hs).
    right. exists pre, tag, post, ts. rewrite HF in Heq. inversion Heq; subst. auto.
Qed.

Lemma translateOpenTsdb_Ok_inv (input : string) (ms : list constMetric) :
  translate input = (ms, None) ->
  fits_scanner input ∧
  ∃ dps, Forall2 (fun line dp => parse line = Ok dp) (data_lines (input_lines input)) dps ∧
         ms = metrics_from 0 dps.
Proof.
  unfold translateOpenTsdb, dpointsToMetrics.
  destruct (bufio.Scanner input) as [lines [e|]] eqn:ES.
  - destruct (loop lines []); discriminate.
  - pose proof (Scanner_no_error _ _ ES) as ->.
    apply scan_None_fits in ES.
    destruct (loop (input_lines input) []) as [dps|] eqn:EL; [|discriminate].
    intros H. inversion H; subst. split; [exact ES|].
    apply scan_loop_Ok_inv in EL as (new & -> & Hf). exists new. auto.
Qed.

Lemma Forall2_parse_functional (lines : list string) (dps dps' : list DataPoint) :
  Forall2 (fun line dp => parse line = Ok dp) lines dps ->
  Forall2 (fun line dp => parse line = Ok dp) lines dps' -> dps' = dps.
Proof.
  intros Hf. revert dps'. induction Hf as [|l dp ls dps Hp _ IH]; intros dps' Hf'.
  - inversion Hf'. reflexivity.
  - inversion Hf' as [|? dp' ? dps'' Hp' Hf'']; subst. f_equal; [congruence | apply IH, Hf''].
Qed.

(** X9: a translation succeeds exactly when every line fits the scanner's
    buffer and every line that is not blank parses; its metrics are then
    those of the data points of these lines, in the order of the lines. *)
Theorem translateOpenTsdb_succeeds (input : string) (ms : list constMetric) :
  translate input = (ms, None) <->
  fits_scanner input ∧
  ∃ dps, Forall2 (fun line dp => parse line = Ok dp) (data_lines (input_lines input)) dps ∧
         ms = metrics_from 0 dps.
Proof.
  split; [apply translateOpenTsdb_Ok_inv|].
  intros (Hfit & dps & Hf & ->). unfold translateOpenTsdb, dpointsToMetrics.
  rewrite (Scanner_fits _ Hfit).
  destruct (scan_loop_ok ParseFloat ValidTSDBString ParseTags (input_lines input) [])
    as (dps' & Hl & Hf').
  { intros line Hin Hnb.
    assert (Hd : line ∈ data_lines (input_lines input)).
    { unfold data_lines. apply list_elem_of_filter. auto. }
    apply list_elem_of_lookup in Hd as [j Hj].
    destruct (Forall2_lookup_l _ _ _ _ _ Hf Hj) as (dp & _ & Hdp). eauto. }
  rewrite Hl. simpl. rewrite (Forall2_parse_functional _ _ _ Hf Hf'). reflexivity.
Qed.

Lemma scan_loop_first_error (pre post : list string) (line e : string)
    (acc : list DataPoint) :
  (∀ l, l ∈ pre -> ¬ blank l -> ∃ dp, parse l = Ok dp) ->
  ¬ blank line -> parse line = Err e ->
  loop (pre ++ line :: post) acc = Err e.
Proof.
  revert acc. induction pre as [|l pre IH]; intros acc Hpre Hnb He; simpl.
  - destruct (decide (strings.TrimSpace line = "")) as [Hb|Hb]; [contradiction|].
    rewrite He. reflexivity.
  - destruct (decide (strings.TrimSpace l = "")) as [Hb|Hb].
    + apply IH; [|assumption..]. intros l' Hin. apply Hpre. right; exact Hin.
    + destruct (Hpre l) as [dp Hdp]; [left | exact Hb |]. rewrite Hdp.
      apply IH; [|assumption..]. intros l' Hin. apply Hpre. right; exact Hin.
Qed.

(** X10: the error of a translation is that of the first line that does not
    parse: the lines behind it are not looked at, whether they parse or
    not. *)
Theorem translateOpenTsdb_first_error (input : string) (pre post : list string)
    (line e : string) :
  fits_scanner input ->
  input_lines input = pre ++ line :: post ->
  (∀ l, l ∈ pre -> ¬ blank l -> ∃ dp, parse l = Ok dp) ->
  ¬ blank line -> parse line = Err e ->
  translate input = ([], Some e).
Proof.
  intros Hfit Heq Hpre Hnb He. unfold translateOpenTsdb.
  rewrite (Scanner_fits _ Hfit), Heq, (scan_loop_first_error pre post line e []); auto.
Qed.

Lemma scan_loop_blank_end (lines : list string) (acc : list DataPoint) :
  loop (lines ++ [""]) acc = loop lines acc.
Proof.
  revert acc. induction lines as [|l lines IH]; intros acc; simpl.
  - destruct (decide (strings.TrimSpace "" = "")) as [_|Hb]; [reflexivity|].
    exfalso. apply Hb. reflexivity.
  - destruct (decide (strings.TrimSpace l = "")); [apply IH|].
    destruct (parse l); [apply IH | reflexivity].
Qed.

(** X11: a newline at the end of the text is optional: with or without it
    the translation is the same, metrics and error. *)
Theorem translateOpenTsdb_final_newline (input : string) :
  translate (input ++ newline) = translate input.
Proof.
  unfold translateOpenTsdb, bufio.Scanner. rewrite bytes_of_app.
  change (bytes_of newline) with [10].
  destruct (lines_from_newline [] (bytes_of input)) as [-> | ->]; [reflexivity|].
  rewrite scan_empty_line.
  destruct (bufio.scan (bufio.lines_from [] (bytes_of input))) as [ts [e|]]; [reflexivity|].
  rewrite scan_loop_blank_end. reflexivity.
Qed.

End TranslationMore.

(** ** dpointsToMetrics, continued *)

Lemma size_list_to_set_le (l : list string) :
  (size (list_to_set l : gset string) <= length l)%nat.
Proof.
  induction l as [|x l IH]; simpl.
  - reflexivity.
  - rewrite size_union_alt, size_singleton.
    assert (Hs : list_to_set l ∖ {[x]} ⊆ (list_to_set l : gset string)).
    { intros y Hy. apply elem_of_difference in Hy as [Hy _]. exact Hy. }
    apply subseteq_size in Hs. lia.
Qed.

Section LabelFacts.

Variable rangeTags : nat -> TagSet -> list (string * string).
Variable IsValidMetricName : string -> bool.
Variable checkLabelName : string -> bool.

Local Abbreviation metric_at := (metric_of rangeTags IsValidMetricName checkLabelName).
Local Abbreviation to_metrics :=
  (dpointsToMetrics rangeTags IsValidMetricName checkLabelName).

Lemma makeValidPromName_bytes (s : string) :
  Forall (fun b => keeps b = true) (bytes_of (makeValidPromName s)).
Proof.
  unfold makeValidPromName, strings.Map.
  destruct (Map_runes_promNameRune 0 (utf8.range s)) as [H _].
  rewrite bytes_of_string_of by (apply keeps_bytes, H). exact H.
Qed.

(** X12: whatever the data points, every metric [dpointsToMetrics] builds is
    a gauge with the help text [help] and no variable label, and its name
    and the names of its labels are made of letters, digits and
    underscores only. *)
Theorem dpointsToMetrics_names (dps : list DataPoint) :
  (to_metrics dps).2 = None ∧
  Forall (fun m =>
            valType m = GaugeValue ∧ help (desc m) = "help" ∧
            variableLabels (desc m) = [] ∧
            Forall (fun b => keeps b = true) (bytes_of (fqName (desc m))) ∧
            ∀ k, is_Some (constLabels (desc m) !! k) ->
                 Forall (fun b => keeps b = true) (bytes_of k))
         (to_metrics dps).1.
Proof.
  split; [reflexivity|]. unfold dpointsToMetrics. simpl. generalize 0%nat.
  induction dps as [|dp dps IH]; intros i; simpl; constructor; [|apply IH].
  unfold metric_of, MustNewConstMetric. cbn [desc valType].
  destruct (NewDesc_copies IsValidMetricName checkLabelName
              (makeValidPromName (dp_Metric dp)) "help" []
              (make_labels (rangeTags i (dp_Tags dp)))) as (En & Eh & Ev).
  split_and!; try assumption; try reflexivity.
  - rewrite En. apply makeValidPromName_bytes.
  - intros k [v Hk].
    destruct (NewDesc_constLabels IsValidMetricName checkLabelName
                (makeValidPromName (dp_Metric dp)) "help" []
                (make_labels (rangeTags i (dp_Tags dp)))) as [E|E];
      rewrite E in Hk; [|discriminate].
    apply make_labels_lookup_Some in Hk as (k0 & _ & <-).
    apply makeValidPromName_bytes.
Qed.

(** X13: when the client library accepts the sanitized names of a data
    point, the label names of its metric are the sanitized keys of its
    tags; when it refuses one of them the metric has no label.  Either
    way a metric has at most as many labels as the data point has tags,
    and fewer when two keys are sanitized to one name. *)
Theorem metric_label_names (i : nat) (dp : DataPoint) :
  rangeTags i (dp_Tags dp) ≡ₚ map_to_list (dp_Tags dp) ->
  (accepted IsValidMetricName checkLabelName dp ->
   dom (constLabels (desc (metric_at i dp)))
   = set_map makeValidPromName (dom (dp_Tags dp))) ∧
  (¬ accepted IsValidMetricName checkLabelName dp ->
   constLabels (desc (metric_at i dp)) = ∅) ∧
  (size (constLabels (desc (metric_at i dp))) <= size (dp_Tags dp))%nat.
Proof.
  intros Hp.
  assert (Hdom : dom (make_labels (rangeTags i (dp_Tags dp)))
                 =@{gset string} set_map makeValidPromName (dom (dp_Tags dp))).
  { apply set_eq. intros k'. rewrite elem_of_dom, elem_of_map.
    rewrite (make_labels_keys rangeTags i (dp_Tags dp) k' Hp). split.
    - intros (k & Hk & <-). exists k. split; [reflexivity|].
      apply elem_of_dom. exact Hk.
    - intros (k & -> & Hk). exists k. split; [|reflexivity].
      apply elem_of_dom. exact Hk. }
  split_and!.
  - intros Ha.
    rewrite (metric_of_accepted rangeTags IsValidMetricName checkLabelName i dp Hp Ha).
    exact Hdom.
  - intros Ha.
    apply (metric_of_refused rangeTags IsValidMetricName checkLabelName i dp Hp Ha).
  - unfold metric_of, MustNewConstMetric. cbn [desc].
    destruct (NewDesc_constLabels IsValidMetricName checkLabelName
                (makeValidPromName (dp_Metric dp)) "help" []
                (make_labels (rangeTags i (dp_Tags dp)))) as [E|E]; rewrite E.
    + rewrite <- !size_dom, Hdom. unfold set_map.
      etransitivity; [apply size_list_to_set_le|].
      rewrite length_fmap. reflexivity.
    + rewrite map_size_empty. lia.
Qed.

End LabelFacts.

(** ** runCommand, continued *)

(** The wait loop executes at most two selects. *)
Lemma wait_loop_cases (sel : list select_case) :
  wait_loop sel 0 false =
  match sel with
  | [] | [ChDone] => None
  | CtxDone :: _ => Some (0, true)
  | ChDone :: CtxDone :: _ => Some (1, true)
  | ChDone :: ChDone :: _ => Some (2, false)
  end.
Proof.
  destruct sel as [|[|] [|[|] [|? rest]]]; reflexivity.
Qed.

(** X14: [runCommand] returns a nil error exactly when the child was
    started, both its pipes were closed before the context was done, it
    exited with status zero and wrote nothing to stderr; it then returns
    all of the child's stdout. *)
Theorem runCommand_succeeds (env : Env) (out : string) :
  runCommand env = Some (out, None) <->
  started env ∧ take 2 (selects env) = [ChDone; ChDone] ∧
  state env = Some (Exited 0) ∧ stderr env = "" ∧ out = stdout env.
Proof.
  unfold runCommand, started. rewrite wait_loop_cases.
  destruct (StdoutPipe_err env);
    [split; [discriminate | intros ([? _] & _); discriminate]|].
  destruct (StderrPipe_err env);
    [split; [discriminate | intros ((_ & ? & _) & _); discriminate]|].
  destruct (Start_err env);
    [split; [discriminate | intros ((_ & _ & ?) & _); discriminate]|].
  destruct (selects env) as [|[|] [|[|] rest]]; simpl;
    try (split; [discriminate | intros (_ & ? & _); discriminate]);
    try (destruct (cmd_Wait (state env));
         (split; [discriminate | intros (_ & ? & _); discriminate])).
  destruct (state env) as [[[| |]|]|] eqn:Est; simpl;
    try (split; [discriminate | intros (_ & _ & ? & _); discriminate]).
  destruct (stderr env) as [|a s] eqn:Eerr; simpl.
  - split.
    + intros H. inversion H. auto 6.
    + intros (_ & _ & _ & _ & ->). reflexivity.
  - split; [discriminate | intros (_ & _ & _ & ? & _); discriminate].
Qed.

(** X15: an invocation whose child was started blocks for as long as its
    wait loop has seen neither the context done nor both pipes closed,
    and then, in [cmd.Wait], for as long as the child has not ended;
    [runCommand] returns in every other case.  When the child ends, the
    error is the context's exactly when a select of the wait loop took the
    [<-ctx.Done()] case, that is when the context was seen done before
    both pipes were seen closed, whatever became of the child. *)
Theorem runCommand_returns (env : Env) :
  (runCommand env = None <->
   started env ∧
   (selects env = [] ∨ selects env = [ChDone] ∨ state env = None)) ∧
  (ctxdone env = true <-> CtxDone ∈ take 2 (selects env)) ∧
  (∀ st, started env -> state env = Some st ->
     (ctxdone env = true ->
      runCommand env = Some (stdout env, Some (ContextError (ctx_Err env)))) ∧
     (runCommand env = Some (stdout env, Some (ContextError (ctx_Err env))) ->
      ctxdone env = true)).
Proof.
  unfold runCommand, started, ctxdone. rewrite wait_loop_cases. split_and!.
  - destruct (StdoutPipe_err env);
      [split; [discriminate | intros ([? _] & _); discriminate]|].
    destruct (StderrPipe_err env);
      [split; [discriminate | intros ((_ & ? & _) & _); discriminate]|].
    destruct (Start_err env);
      [split; [discriminate | intros ((_ & _ & ?) & _); discriminate]|].
    destruct (state env) as [st|] eqn:Est.
    + assert (Hw : ∃ e, cmd_Wait (Some st) = Some e)
        by (destruct st as [[| |]|]; simpl; eauto).
      destruct Hw as [e ->].
      destruct (selects env) as [|[|] [|[|] rest]]; simpl;
        try (split; [discriminate | intros (_ & [?|[?|?]]); discriminate]);
        split; auto.
    + cbn [cmd_Wait].
      destruct (selects env) as [|[|] [|[|] rest]]; simpl; split; auto.
  - destruct (selects env) as [|[|] [|[|] rest]]; simpl; split;
      try discriminate; try reflexivity;
      try (intros _; repeat constructor; fail);
      intros H; repeat (apply elem_of_cons in H as [H|H]; try discriminate);
      inversion H.
  - intros st (-> & -> & ->) ->.
    assert (Hw : ∃ e, cmd_Wait (Some st) = Some e ∧ e <> Some (ContextError (ctx_Err env)))
      by (destruct st as [[| |]|]; simpl; eexists; split; try reflexivity; discriminate).
    destruct Hw as (e & -> & He).
    destruct (selects env) as [|[|] [|[|] rest]]; simpl;
      (split; [try discriminate; try reflexivity | try discriminate; try reflexivity]).
    intros H. exfalso.
    destruct e as [e|]; [inversion H; congruence|].
    destruct (Z.of_nat (String.length (stderr env)) =? 0); simpl in H; discriminate.
Qed.

(** ** ServeHTTP *)

Lemma HasPrefix_app (p s : string) : strings.HasPrefix (p ++ s) p = true.
Proof.
  induction p as [|a p IH]; simpl; [reflexivity|].
  rewrite Ascii.eqb_refl, IH. reflexivity.
Qed.

Lemma from_app (p s : string) : strings.from (String.length p) (p ++ s) = s.
Proof. induction p as [|a p IH]; simpl; [reflexivity | exact IH]. Qed.

Lemma TrimPrefix_app (p s : string) : strings.TrimPrefix (p ++ s) p = s.
Proof. unfold strings.TrimPrefix. rewrite HasPrefix_app. apply from_app. Qed.

Lemma TrimPrefix_self (p : string) : strings.TrimPrefix p p = "".
Proof.
  unfold strings.TrimPrefix.
  assert (H : strings.HasPrefix p p = true).
  { induction p as [|a p IH]; simpl; [reflexivity|]. rewrite Ascii.eqb_refl. exact IH. }
  rewrite H. induction p as [|a p IH]; simpl; [reflexivity|]. apply IH.
  simpl in H. rewrite Ascii.eqb_refl in H. exact H.
Qed.

Lemma get_add (m : gmap string Z) (k : string) (d : Z) : get (add m k d) k = get m k + d.
Proof. unfold add, get. rewrite lookup_insert_eq. reflexivity. Qed.

Lemma runCommand_nil_inv (env : Env) (out : string) :
  runCommand env = Some (out, None) ->
  started env ∧ take 2 (selects env) = [ChDone; ChDone] ∧
  state env = Some (Exited 0) ∧ stderr env = "" ∧ out = stdout env.
Proof.
  unfold runCommand, started. rewrite wait_loop_cases.
  destruct (StdoutPipe_err env); [discriminate|].
  destruct (StderrPipe_err env); [discriminate|].
  destruct (Start_err env); [discriminate|].
  destruct (selects env) as [|[|] [|[|] rest]]; simpl; try discriminate;
    try (destruct (cmd_Wait (state env)); discriminate).
  destruct (state env) as [[[| |]|]|] eqn:Est; simpl; try discriminate.
  destruct (stderr env) as [|a s] eqn:Eerr; simpl; [|discriminate].
  intros H. inversion H. auto 6.
Qed.

Lemma runCommand_nil_intro (env : Env) :
  started env -> take 2 (selects env) = [ChDone; ChDone] ->
  state env = Some (Exited 0) -> stderr env = "" ->
  runCommand env = Some (stdout env, None).
Proof.
  unfold runCommand. rewrite wait_loop_cases. intros (-> & -> & ->) Hsel -> ->.
  destruct (selects env) as [|[|] [|[|] rest]]; simpl in *; try discriminate. reflexivity.
Qed.

Section ServingFacts.

Variable ParseFloat : string -> option float.
Variable ValidTSDBString : string -> bool.
Variable ParseTags : string -> result TagSet.
Variable rangeTags : nat -> TagSet -> list (string * string).
Variable IsValidMetricName : string -> bool.
Variable checkLabelName : string -> bool.
Variable TextToMetricFamilies : string -> result regatherer.

Local Abbreviation translate :=
  (translateOpenTsdb ParseFloat ValidTSDBString ParseTags rangeTags
     IsValidMetricName checkLabelName).
Local Abbreviation serve :=
  (serveMetricsFromText ParseFloat ValidTSDBString ParseTags rangeTags
     IsValidMetricName checkLabelName TextToMetricFamilies).
Local Abbreviation respond_to :=
  (respond ParseFloat ValidTSDBString ParseTags rangeTags
     IsValidMetricName checkLabelName TextToMetricFamilies).
Local Abbreviation Serve :=
  (ServeHTTP ParseFloat ValidTSDBString ParseTags rangeTags
     IsValidMetricName checkLabelName TextToMetricFamilies).

(** X16: the script a request names is what follows the metrics path and one
    slash in its path, further slashes included.  For the metrics path
    itself, with or without the slash, [ServeHTTP] serves the exporter's
    own metrics and sends [Start] nothing; for any other path under it, it
    requests the script and does with the result what [respond] says. *)
Theorem ServeHTTP_script (sh : ScriptHandler) (name : string) :
  Serve sh (sh_metricsPath sh) =
    Return (fun m => {| body := promhttp_Handler; logged := []; mParseErrors := m |}) ∧
  Serve sh (sh_metricsPath sh ++ "/" ++ name) =
    if decide (name = "")
    then Return (fun m => {| body := promhttp_Handler; logged := []; mParseErrors := m |})
    else Request name (respond_to sh name).
Proof.
  unfold ServeHTTP. split.
  - rewrite TrimPrefix_self. reflexivity.
  - rewrite TrimPrefix_app. rewrite (TrimPrefix_app "/" name). reflexivity.
Qed.

Lemma serve_cases (opentsdb : bool) (text : string) :
  (∃ msg, serve opentsdb text = (Nothing, Some msg)) ∨
  (∃ gs, serve opentsdb text = (promhttp_HandlerFor gs, None)).
Proof.
  unfold serveMetricsFromText. destruct opentsdb.
  - destruct (translate text) as [ms [e|]]; eauto.
  - destruct (TextToMetricFamilies text); eauto.
Qed.

(** X17: from the script to the response.  When [runCommand] returns, the
    request is handed to [promhttp.HandlerFor] exactly when the child was
    started, closed both pipes before the context was done, exited with
    status zero, wrote nothing to stderr, and its output parses: the
    handler is then given one gatherer, made of the whole of the child's
    stdout (in OpenTSDB mode a new registry on which the translated
    metrics were registered as one collector, otherwise the parsed
    families), and nothing is logged; what that handler answers, an error
    status for metrics it cannot gather among it, is the library's.  When
    such a run's output does not parse, the response writer is left alone,
    the parse error is logged and [mParseErrors] grows by one for the
    script.  In every other case, a script that was cancelled with part
    of its output among them, the response writer is left alone, the error
    of the run is logged and [mParseErrors] stays as it is. *)
Theorem respond_runCommand (sh : ScriptHandler) (m : gmap string Z) (script : string)
    (env : Env) (out : string) (e : option error) :
  runCommand env = Some (out, e) ->
  let o := respond_to sh script {| output := out; err := e |} m in
  let ran := started env ∧ take 2 (selects env) = [ChDone; ChDone] ∧
             state env = Some (Exited 0) ∧ stderr env = "" in
  let served := serve (sh_opentsdb sh) (stdout env) in
  (ran -> served.2 = None ->
   ∃ g, o = {| body := promhttp_HandlerFor [g]; logged := []; mParseErrors := m |} ∧
        (sh_opentsdb sh = true ->
         ∃ ms, translate (stdout env) = (ms, None) ∧ g = Registry {| metrics := ms |}) ∧
        (sh_opentsdb sh = false ->
         ∃ fams, TextToMetricFamilies (stdout env) = Ok fams ∧ g = Regatherer fams)) ∧
  (ran -> ∀ msg, served.2 = Some msg ->
   o = {| body := Nothing; logged := [error_parsing script msg];
          mParseErrors := add m script 1 |} ∧ add m script 1 <> m) ∧
  (¬ ran -> ∃ e', e = Some e' ∧
   o = {| body := Nothing; logged := [error_running script e']; mParseErrors := m |}).
Proof.
  intros Hrun o ran served. subst o ran served. unfold respond. simpl.
  destruct e as [e|].
  - split_and!.
    + intros (H1 & H2 & H3 & H4).
      rewrite (runCommand_nil_intro env H1 H2 H3 H4) in Hrun. discriminate.
    + intros (H1 & H2 & H3 & H4).
      rewrite (runCommand_nil_intro env H1 H2 H3 H4) in Hrun. discriminate.
    + intros _. exists e. split; reflexivity.
  - apply runCommand_nil_inv in Hrun as (H1 & H2 & H3 & H4 & ->).
    unfold serveMetricsFromText. destruct (sh_opentsdb sh).
    + destruct (translate (stdout env)) as [ms [msg|]] eqn:Et; simpl; split_and!.
      * discriminate.
      * intros _ msg' Hm. inversion Hm; subst. split; [reflexivity|].
        intros Heq. apply (f_equal (fun x => get x script)) in Heq.
        rewrite get_add in Heq. lia.
      * intros Hn. exfalso. apply Hn. auto.
      * intros _ _. eexists. split; [reflexivity|]. split; [|discriminate].
        intros _. exists ms. split; reflexivity.
      * discriminate.
      * intros Hn. exfalso. apply Hn. auto.
    + destruct (TextToMetricFamilies (stdout env)) as [fams|msg] eqn:Et; simpl; split_and!.
      * intros _ _. eexists. split; [reflexivity|]. split; [discriminate|].
        intros _. exists fams. split; reflexivity.
      * discriminate.
      * intros Hn. exfalso. apply Hn. auto.
      * discriminate.
      * intros _ msg' Hm. inversion Hm; subst. split; [reflexivity|].
        intros Heq. apply (f_equal (fun x => get x script)) in Heq.
        rewrite get_add in Heq. lia.
      * intros Hn. exfalso. apply Hn. auto.
Qed.

End ServingFacts.

(** ** sliceCollector *)

Lemma Collect_app (ms : list constMetric) (ch : list constMetric) :
  foldl (fun ch m => ch ++ [m]) ch ms = ch ++ ms.
Proof.
  revert ch. induction ms as [|m ms IH]; intros ch; simpl.
  - rewrite app_nil_r. reflexivity.
  - rewrite IH, <- app_assoc. reflexivity.
Qed.

Lemma Describe_app (ms : list constMetric) (ch : list Desc) :
  foldl (fun ch m => ch ++ [desc m]) ch ms = ch ++ (desc <$> ms).
Proof.
  revert ch. induction ms as [|m ms IH]; intros ch; simpl.
  - rewrite app_nil_r. reflexivity.
  - rewrite IH, <- app_assoc. reflexivity.
Qed.

(** X18: a [sliceCollector] describes what it collects.  [Collect] sends
    its metrics, all of them, once each and in their order, behind what
    the channel was sent before; [Describe] sends the descriptors of the
    same metrics in the same order, so that the [j]-th descriptor
    described is that of the [j]-th metric collected. *)
Theorem sliceCollector_describes (sc : sliceCollector) (ch : list constMetric)
    (chd : list Desc) :
  Collect sc ch = ch ++ metrics sc ∧
  Describe sc chd = chd ++ (desc <$> Collect sc []) ∧
  ∀ j, Describe sc [] !! j = desc <$> Collect sc [] !! j.
Proof.
  unfold Collect, Describe. rewrite !Collect_app, !Describe_app. simpl.
  split_and!; try reflexivity. intros j. apply list_lookup_fmap.
Qed.

(** ** regatherer.Gather, continued *)

Section GathererMore.

Variable sort_Sort : list LabelPair -> list LabelPair.
Variable rangeFams : regatherer -> list (string * MetricFamily).

Hypothesis sort_Permutation : ∀ l, sort_Sort l ≡ₚ l.
Hypothesis sort_sorted : ∀ l, sorted_labels (sort_Sort l).
Hypothesis rangeFams_Permutation : ∀ r, rangeFams r ≡ₚ map_to_list r.

Local Abbreviation sorted_family := (sort_family sort_Sort).

Lemma sort_Sort_twice (l : list LabelPair) :
  NoDup (lp_Name <$> l) -> sort_Sort (sort_Sort l) = sort_Sort l.
Proof.
  intros Hnd. apply sorted_labels_unique.
  - rewrite !sort_Permutation. exact Hnd.
  - apply sort_Permutation.
  - apply sort_sorted.
  - apply sort_sorted.
Qed.

Lemma sort_family_twice (fam : MetricFamily) :
  Forall (fun m => NoDup (lp_Name <$> Label m)) (fam_Metric fam) ->
  sorted_family (sorted_family fam) = sorted_family fam.
Proof.
  intros H. unfold sort_family. simpl. f_equal.
  induction H as [|m ms Hm _ IH]; simpl; [reflexivity|]. f_equal; [|exact IH].
  unfold sort_metric. simpl. f_equal. apply sort_Sort_twice, Hm.
Qed.

(** X19: gathering twice is gathering once.  With label names that are
    distinct within each metric, a second [Gather] on the same receiver
    leaves it as the first did and returns the same families, up to the
    order in which the map is visited. *)
Theorem Gather_twice (r : regatherer) :
  (∀ name fam, r !! name = Some fam ->
     Forall (fun m => NoDup (lp_Name <$> Label m)) (fam_Metric fam)) ->
  let once := Gather sort_Sort rangeFams r in
  let twice := Gather sort_Sort rangeFams once.2 in
  twice.2 = once.2 ∧ twice.1.1 ≡ₚ once.1.1 ∧ twice.1.2 = None.
Proof.
  intros Hnd once twice. subst once twice. unfold Gather. simpl.
  rewrite !Gather_loop_acc. simpl.
  assert (Hfix : sorted_family <$> (sorted_family <$> r) = sorted_family <$> r).
  { rewrite <- map_fmap_compose. apply map_fmap_ext.
    intros name fam Hfam. simpl. apply sort_family_twice. eapply Hnd, Hfam. }
  split_and!; [exact Hfix | | reflexivity].
  rewrite (rangeFams_Permutation (sorted_family <$> r)), (rangeFams_Permutation r).
  transitivity ((map_to_list (sorted_family <$> (sorted_family <$> r))).*2).
  - rewrite (map_to_list_fmap sorted_family (sorted_family <$> r)).
    rewrite <- !list_fmap_compose. reflexivity.
  - rewrite Hfix. rewrite (map_to_list_fmap sorted_family r).
    rewrite <- !list_fmap_compose. reflexivity.
Qed.

End GathererMore.

(** *** The meta-metrics *)

Lemma tally_range (P : task -> bool) (k : string) (ts : list task) :
  0 <= tally P k ts.
Proof. induction ts as [|t ts IH]; simpl; [lia|]. destruct (_ && _); lia. Qed.

Lemma tally_app (P : task -> bool) (k : string) (ts ts' : list task) :
  tally P k (ts ++ ts') = tally P k ts + tally P k ts'.
Proof. induction ts as [|t ts IH]; simpl; [reflexivity | rewrite IH; lia]. Qed.

Lemma tally_insert (P : task -> bool) (k : string) (ts : list task) (i : nat) (t t' : task) :
  ts !! i = Some t -> script (t_req t') = script (t_req t) ->
  tally P k (<[i := t']> ts)
  = tally P k ts
    + (if bool_decide (script (t_req t) = k) then Z.b2z (P t') - Z.b2z (P t) else 0).
Proof.
  revert i. induction ts as [|t0 ts IH]; intros i H Hs; [discriminate|].
  destruct i as [|i]; simpl in *.
  - inversion H; subst. rewrite Hs.
    destruct (P t), (P t'), (bool_decide (script (t_req t) = k)); simpl; lia.
  - rewrite (IH _ H Hs). lia.
Qed.

Lemma tally_le (P Q : task -> bool) (k : string) (ts : list task) :
  (∀ t, P t = true -> Q t = true) -> tally P k ts <= tally Q k ts.
Proof.
  intros H. induction ts as [|t ts IH]; simpl; [lia|].
  specialize (H t). destruct (P t) eqn:EP; simpl.
  - rewrite (H eq_refl). simpl. lia.
  - destruct (Q t && bool_decide _); lia.
Qed.

Lemma tally_none (P : task -> bool) (k : string) (ts : list task) :
  Forall (fun t => P t = false) ts -> tally P k ts = 0.
Proof. induction 1 as [|t ts Ht _ IH]; simpl; [reflexivity|]. rewrite Ht, IH. reflexivity. Qed.

Lemma tally_all (P Q : task -> bool) (k : string) (ts : list task) :
  Forall (fun t => P t = Q t) ts -> tally P k ts = tally Q k ts.
Proof. induction 1 as [|t ts Ht _ IH]; simpl; [reflexivity|]. rewrite Ht, IH. reflexivity. Qed.

Lemma requests_for_app (k : string) (reqs reqs' : list runreq) :
  requests_for k (reqs ++ reqs') = requests_for k reqs + requests_for k reqs'.
Proof. induction reqs as [|r reqs IH]; simpl; [reflexivity | rewrite IH; lia]. Qed.

Lemma requests_for_range (k : string) (reqs : list runreq) : 0 <= requests_for k reqs.
Proof. induction reqs as [|r reqs IH]; simpl; [lia|]. destruct (bool_decide _); lia. Qed.

Lemma requests_for_take_S (k : string) (reqs : list runreq) (id : nat) (req : runreq) :
  reqs !! id = Some req ->
  requests_for k (take (S id) reqs)
  = requests_for k (take id reqs) + (if bool_decide (script req = k) then 1 else 0).
Proof.
  intros H. rewrite (take_S_r _ _ _ H), requests_for_app. simpl. lia.
Qed.

Lemma requests_for_take_le (k : string) (reqs : list runreq) (n : nat) :
  requests_for k (take n reqs) <= requests_for k reqs.
Proof.
  rewrite <- (take_drop n reqs) at 2. rewrite requests_for_app.
  pose proof (requests_for_range k (drop n reqs)). lia.
Qed.

Lemma meters_inv_init (reqs : list runreq) : meters_inv reqs (init reqs).
Proof. intros k. cbn. split_and!; first [reflexivity | lia]. Qed.

Ltac meters_simpl :=
  cbn [ctrs mRuns mErrors mTimeouts mRunning mConcExceeds add_Runs add_Errors add_Timeouts
       add_Running add_ConcExceeds loop_gauged loop_exceeded] in *.

Lemma get_add_other (m : gmap string Z) (k k' : string) (d : Z) :
  get (add m k d) k' = get m k' + (if bool_decide (k = k') then d else 0).
Proof.
  unfold add. rewrite get_insert. case_decide; case_bool_decide; try congruence; subst; lia.
Qed.

Lemma meters_inv_loop_step (scriptWorkers : Z) (reqs : list runreq) (s s' : State) :
  channel_inv scriptWorkers reqs s -> meters_inv reqs s ->
  loop_step scriptWorkers s = Some s' -> meters_inv reqs s'.
Proof.
  intros (_ & _ & [Hhand _] & _) HM H k. specialize (HM k).
  destruct HM as (M1 & M2 & M3 & M4 & M5 & M6).
  unfold settled in *.
  loop_cases H; state_simpl; meters_simpl;
    rewrite ?get_add_other, ?tally_app; cbn [tally andb t_pc t_req past_167 past_176
      past_179 before_186]; try (split_and!; try case_bool_decide; lia).
  - (* a request is received *)
    simpl. split_and!; lia.
  - (* the request is sent its rejection *)
    destruct Hhand as [Hn Hr]. rewrite Hn in *. simpl in M5.
    rewrite (requests_for_take_S _ _ _ _ Hr). split_and!; lia.
  - (* the goroutine is started *)
    destruct Hhand as [Hn Hr]. rewrite Hn in *. simpl in M5.
    rewrite (requests_for_take_S _ _ _ _ Hr). split_and!; lia.
Qed.

Lemma failed_at_pc (t : task) (p : task_pc) : failed (at_pc t p) = failed t.
Proof. reflexivity. Qed.

Lemma deadline_exceeded_at_pc (t : task) (p : task_pc) :
  deadline_exceeded (at_pc t p) = deadline_exceeded t.
Proof. reflexivity. Qed.

Lemma meters_inv_task_step (scriptWorkers : Z) (reqs : list runreq) (i : nat) (s s' : State) :
  channel_inv scriptWorkers reqs s -> meters_inv reqs s ->
  task_step i s = Some s' -> meters_inv reqs s'.
Proof.
  intros (_ & _ & _ & HT & _) HM H k. specialize (HM k).
  destruct HM as (M1 & M2 & M3 & M4 & M5 & M6).
  unfold settled in *.
  task_cases H t; state_simpl; meters_simpl.
  all: specialize (HT i t Ht); destruct HT as (_ & _ & Hret); rewrite Hpc in Hret;
       cbn [returned] in Hret.
  all: rewrite ?get_add_other, !(tally_insert _ _ _ _ _ _ Ht) by reflexivity.
  all: rewrite ?failed_at_pc, ?deadline_exceeded_at_pc; cbn [t_pc at_pc]; rewrite ?Hpc;
       cbn [past_167 past_176 past_179 before_186 andb Z.b2z].
  all: destruct (failed t) eqn:EF, (deadline_exceeded t) eqn:ED;
       unfold failed, deadline_exceeded in EF, ED; rewrite ?Hret in EF, ED;
       try discriminate; cbn [Z.b2z].
  all: split_and!; try case_bool_decide; lia.
Qed.

Lemma reachable_meters_inv (scriptWorkers : Z) (reqs : list runreq) (s : State) :
  reachable scriptWorkers reqs s -> meters_inv reqs s.
Proof.
  induction 1 as [|s t s' Hr IH Hstep].
  - apply meters_inv_init.
  - pose proof (reachable_channel_inv _ _ _ Hr) as Hch.
    destruct t as [|i]; simpl in Hstep.
    + eapply meters_inv_loop_step; eauto.
    + eapply meters_inv_task_step; eauto.
Qed.

Lemma dispatched_le (scriptWorkers : Z) (reqs : list runreq) (s : State) (k : string) :
  channel_inv scriptWorkers reqs s ->
  requests_for k (take (settled s) reqs) + loop_exceeded k (pc s) <= requests_for k reqs.
Proof.
  intros (_ & _ & [Hhand _] & _). unfold settled.
  destruct (pc s); cbn [in_hand loop_exceeded] in *;
    try (pose proof (requests_for_take_le k reqs (next s));
         pose proof (requests_for_take_le k reqs (Init.Nat.pred (next s))); lia).
  destruct Hhand as [Hn Hr]. rewrite Hn. simpl.
  pose proof (requests_for_take_le k reqs (S id)) as Hle.
  rewrite (requests_for_take_S _ _ _ _ Hr) in Hle. exact Hle.
Qed.

(** X20: the meta-metrics of a script are consistent in every state the
    handler reaches: timeouts are among the errors and errors among the
    runs, no counter is negative and neither is the gauge of running
    scripts, and runs and rejections together are no more than the
    requests for the script. *)
Theorem meta_metrics_consistent (scriptWorkers : Z) (reqs : list runreq) (s : State)
    (k : string) :
  reachable scriptWorkers reqs s ->
  0 <= get (mTimeouts (ctrs s)) k <= get (mErrors (ctrs s)) k ∧
  get (mErrors (ctrs s)) k <= get (mRuns (ctrs s)) k ∧
  0 <= get (mConcExceeds (ctrs s)) k ∧
  get (mRuns (ctrs s)) k + get (mConcExceeds (ctrs s)) k <= requests_for k reqs ∧
  0 <= get (mRunning (ctrs s)) k.
Proof.
  intros Hr. pose proof (reachable_channel_inv _ _ _ Hr) as Hch.
  destruct (reachable_meters_inv _ _ _ Hr k) as (M1 & M2 & M3 & M4 & M5 & M6).
  pose proof (dispatched_le _ _ _ k Hch) as Hd.
  rewrite M1, M2, M3, M4.
  pose proof (tally_range (fun t => past_179 (t_pc t) && deadline_exceeded t) k (tasks s)).
  pose proof (tally_range (fun t => before_186 (t_pc t)) k (tasks s)).
  assert (tally (fun t => past_179 (t_pc t) && deadline_exceeded t) k (tasks s)
          <= tally (fun t => past_176 (t_pc t) && failed t) k (tasks s)).
  { apply tally_le. intros t Ht. apply andb_prop in Ht as [Hp Hd'].
    apply andb_true_intro. split.
    - destruct (t_pc t); try discriminate; reflexivity.
    - unfold failed, deadline_exceeded in *.
      destruct (runCommand (child (t_req t))) as [[out [e|]]|]; try discriminate.
      reflexivity. }
  assert (tally (fun t => past_176 (t_pc t) && failed t) k (tasks s)
          <= tally (fun t => past_167 (t_pc t)) k (tasks s)).
  { apply tally_le. intros t Ht. apply andb_prop in Ht as [Hp _].
    destruct (t_pc t); try discriminate; reflexivity. }
  assert (tally (fun t => past_167 (t_pc t)) k (tasks s)
          <= tally (fun _ => true) k (tasks s)).
  { apply tally_le. reflexivity. }
  assert (0 <= loop_gauged k (pc s)).
  { unfold loop_gauged. destruct (pc s); try lia. case_bool_decide; lia. }
  lia.
Qed.

Lemma running_quiescent (k : string) (ts : list task) :
  Forall (fun t => t_pc t = TDone) ts -> running k ts = 0.
Proof.
  induction 1 as [|t ts Ht _ IH]; simpl; [reflexivity|].
  unfold counts_for. rewrite Ht, IH. reflexivity.
Qed.

(** X21: when nothing is left to do, the accounts are settled.  Every
    request for a script has been counted once, as a run or as a
    rejection; the errors counted are the runs that returned an error and
    the timeouts those that returned the error of the deadline; the gauge
    of running scripts and the entry of the script in the table are back
    at zero. *)
Theorem meta_metrics_settled (scriptWorkers : Z) (reqs : list runreq) (s : State)
    (k : string) :
  - 2 ^ 63 <= scriptWorkers < 2 ^ 63 ->
  reachable scriptWorkers reqs s -> quiescent s ->
  get (mRuns (ctrs s)) k + get (mConcExceeds (ctrs s)) k = requests_for k reqs ∧
  get (mRuns (ctrs s)) k = tally (fun _ => true) k (tasks s) ∧
  get (mErrors (ctrs s)) k = tally failed k (tasks s) ∧
  get (mTimeouts (ctrs s)) k = tally deadline_exceeded k (tasks s) ∧
  get (mRunning (ctrs s)) k = 0 ∧
  get (numChildren s) k = 0.
Proof.
  intros Hsw Hr (Hpc & Hq & Hall).
  destruct (reachable_channel_inv _ _ _ Hr) as (N1 & N2 & _).
  destruct (reachable_table_inv _ _ _ Hsw Hr) as (_ & (C1 & _) & _).
  destruct (reachable_meters_inv _ _ _ Hr k) as (M1 & M2 & M3 & M4 & M5 & M6).
  assert (Hnext : next s = length reqs).
  { rewrite Hq in N2. symmetry in N2. apply (f_equal (@length runreq)) in N2.
    rewrite length_drop in N2. simpl in N2. lia. }
  unfold settled in M5. rewrite Hpc in *. cbn [in_hand loop_gauged loop_exceeded] in *.
  rewrite Hnext, firstn_all in M5.
  assert (E1 : tally (fun t => past_167 (t_pc t)) k (tasks s)
               = tally (fun _ => true) k (tasks s)).
  { apply tally_all. eapply Forall_impl; [exact Hall|]. intros t ->. reflexivity. }
  assert (E2 : tally (fun t => past_176 (t_pc t) && failed t) k (tasks s)
               = tally failed k (tasks s)).
  { apply tally_all. eapply Forall_impl; [exact Hall|]. intros t ->. reflexivity. }
  assert (E3 : tally (fun t => past_179 (t_pc t) && deadline_exceeded t) k (tasks s)
               = tally deadline_exceeded k (tasks s)).
  { apply tally_all. eapply Forall_impl; [exact Hall|]. intros t ->. reflexivity. }
  assert (E4 : tally (fun t => before_186 (t_pc t)) k (tasks s) = 0).
  { apply tally_none. eapply Forall_impl; [exact Hall|]. intros t ->. reflexivity. }
  split_and!; try lia.
  rewrite C1, (running_quiescent k _ Hall). reflexivity.
Qed.

(** *** Capacity *)

Lemma running_le_tally (k : string) (ts : list task) :
  running k ts <= tally (fun _ => true) k ts.
Proof.
  induction ts as [|t ts IH]; simpl; [lia|].
  unfold counts_for. destruct (counted (t_pc t)); simpl; destruct (bool_decide _); lia.
Qed.

Lemma capacity_inv_init (scriptWorkers : Z) (reqs : list runreq) :
  capacity_inv scriptWorkers reqs (init reqs).
Proof.
  split_and!; cbn.
  - intros k. apply requests_for_range.
  - exact I.
  - intros id req Hid. lia.
Qed.

Lemma has_task_insert (ts : list task) (i : nat) (t : task) (p : task_pc) (id : nat) :
  ts !! i = Some t ->
  (∃ j t0, ts !! j = Some t0 ∧ t_id t0 = id) ->
  ∃ j t0, <[i := at_pc t p]> ts !! j = Some t0 ∧ t_id t0 = id.
Proof.
  intros Hi (j & t0 & Hj & Hid). destruct (decide (j = i)) as [->|Hne].
  - exists i, (at_pc t p). rewrite list_lookup_insert_eq by (eapply lookup_lt_Some, Hi).
    split; [reflexivity|]. simpl. congruence.
  - exists j, t0. rewrite list_lookup_insert_ne by congruence. auto.
Qed.

Section Capacity.

Variable scriptWorkers : Z.
Variable reqs : list runreq.

Lemma capacity_inv_loop_step (s s' : State) :
  channel_inv scriptWorkers reqs s -> count_inv s -> capacity_inv scriptWorkers reqs s ->
  loop_step scriptWorkers s = Some s' -> capacity_inv scriptWorkers reqs s'.
Proof.
  intros (_ & _ & [Hhand _] & _) (C1 & _) (K1 & K2 & K3) H.
  unfold capacity_inv, settled, pending in *.
  loop_cases H; state_simpl; try (split_and!; auto; fail).
  - (* the count is read *)
    split_and!; auto. specialize (C1 (script req)). simpl in C1.
    pose proof (running_le_tally (script req) (tasks s)).
    specialize (K1 (script req)). lia.
  - (* the count is at least the maximum *)
    apply Z.leb_le in Hc. split_and!; auto. lia.
  - (* the request is sent its rejection *)
    destruct Hhand as [Hn Hr]. rewrite Hn in *. simpl in *. split_and!; auto.
    + intros k. specialize (K1 k). rewrite (requests_for_take_S _ _ _ _ Hr).
      case_bool_decide; lia.
    + intros id' req' Hid Hr' Hlt. destruct (decide (id' = id)) as [->|Hne].
      * assert (req' = req) by congruence. subst. lia.
      * apply (K3 id' req'); [lia | assumption..].
  - (* the goroutine is started *)
    destruct Hhand as [Hn Hr]. rewrite Hn in *. simpl in *. split_and!; auto.
    + intros k. specialize (K1 k). rewrite (requests_for_take_S _ _ _ _ Hr), tally_app.
      simpl. lia.
    + intros id' req' Hid Hr' Hlt. destruct (decide (id' = id)) as [->|Hne].
      * exists (length (tasks s)), {| t_id := id; t_req := req; t_pc := T167 |}.
        split; [|reflexivity]. rewrite lookup_app_r by lia.
        rewrite Nat.sub_diag. reflexivity.
      * destruct (K3 id' req') as (i & t & Ht & Hid'); [lia | assumption..|].
        exists i, t. split; [apply lookup_app_l_Some, Ht | exact Hid'].
Qed.

Lemma capacity_inv_task_step (i : nat) (s s' : State) :
  capacity_inv scriptWorkers reqs s -> task_step i s = Some s' ->
  capacity_inv scriptWorkers reqs s'.
Proof.
  intros (K1 & K2 & K3) H. unfold capacity_inv, settled in *.
  task_cases H t; state_simpl.
  all: split_and!;
    [ intros k; rewrite (tally_insert _ _ _ _ _ _ Ht) by reflexivity;
      specialize (K1 k); case_bool_decide; simpl; lia
    | exact K2
    | intros id req Hid Hr Hlt; eapply has_task_insert; [exact Ht | eauto] ].
Qed.

End Capacity.

Lemma reachable_capacity_inv (scriptWorkers : Z) (reqs : list runreq) (s : State) :
  - 2 ^ 63 <= scriptWorkers < 2 ^ 63 ->
  reachable scriptWorkers reqs s -> capacity_inv scriptWorkers reqs s.
Proof.
  intros Hsw. induction 1 as [|s t s' Hr IH Hstep].
  - apply capacity_inv_init.
  - pose proof (reachable_channel_inv _ _ _ Hr) as Hch.
    destruct (reachable_table_inv _ _ _ Hsw Hr) as (_ & HC & _).
    destruct t as [|i]; simpl in Hstep.
    + eapply capacity_inv_loop_step; eauto.
    + eapply capacity_inv_task_step; eauto.
Qed.

(** X22: a request is not rejected for want of a worker that was never
    taken: whatever the schedule, a request that comes after fewer
    requests for the same script than the maximum is given a goroutine,
    and its channel is sent the result of [runCommand] and nothing
    else. *)
Theorem admitted_under_capacity (scriptWorkers : Z) (reqs : list runreq) (s : State)
    (id : nat) (req : runreq) :
  - 2 ^ 63 <= scriptWorkers < 2 ^ 63 ->
  reachable scriptWorkers reqs s ->
  (id < settled s)%nat -> reqs !! id = Some req ->
  requests_for (script req) (take id reqs) < scriptWorkers ->
  admitted s id ∧ ¬ turned_down scriptWorkers reqs s id.
Proof.
  intros Hsw Hr Hid Hreq Hlt.
  destruct (reachable_capacity_inv _ _ _ Hsw Hr) as (_ & _ & K3).
  destruct (K3 id req Hid Hreq Hlt) as (i & t & Ht & Hti).
  assert (Hnot : ¬ turned_down scriptWorkers reqs s id).
  { intros (Hno & _). eapply Hno; eauto. }
  split; [|exact Hnot].
  destruct (reachable_channel_inv _ _ _ Hr) as (_ & _ & _ & _ & _ & _ & HD).
  destruct (HD id Hid) as [Ha|Hd]; [exact Ha | contradiction].
Qed.

(** *** No worker *)

Lemma idle_inv_loop_step (scriptWorkers : Z) (s s' : State) :
  scriptWorkers <= 0 -> idle_inv s -> loop_step scriptWorkers s = Some s' -> idle_inv s'.
Proof.
  intros Hsw (I1 & I2 & I3) H. unfold idle_inv in *.
  loop_cases H; state_simpl; try contradiction; try (split_and!; auto; fail).
  - split_and!; auto. rewrite I2. reflexivity.
  - apply Z.leb_gt in Hc. lia.
Qed.

Lemma idle_inv_task_step (i : nat) (s s' : State) :
  idle_inv s -> task_step i s = Some s' -> idle_inv s'.
Proof.
  intros (I1 & _) H. unfold task_step in H. rewrite I1 in H. discriminate.
Qed.

(** X23: with a maximum of zero, or a negative one, the handler runs
    nothing: in every state it reaches no goroutine has been started, the
    table is empty, and every request it has dealt with was rejected. *)
Theorem no_worker_no_run (scriptWorkers : Z) (reqs : list runreq) (s : State) :
  scriptWorkers <= 0 -> reachable scriptWorkers reqs s ->
  tasks s = [] ∧ numChildren s = ∅ ∧
  ∀ id, (id < settled s)%nat -> turned_down scriptWorkers reqs s id.
Proof.
  intros Hsw Hr.
  assert (Hidle : idle_inv s).
  { induction Hr as [|s t s' Hr IH Hstep].
    - split_and!; reflexivity.
    - destruct t as [|i]; simpl in Hstep.
      + eapply idle_inv_loop_step; eauto.
      + eapply idle_inv_task_step; eauto. }
  destruct Hidle as (I1 & I2 & _). split_and!; [exact I1 | exact I2|].
  intros id Hid.
  destruct (reachable_channel_inv _ _ _ Hr) as (_ & _ & _ & _ & _ & _ & HD).
  destruct (HD id Hid) as [(i & t & Ht & _)|Hd]; [|exact Hd].
  rewrite I1 in Ht. discriminate.
Qed.

(** X24: the table counts the goroutines.  In every state the handler
    reaches, the entry of a script is the number of its goroutines that
    have not stored their decrement yet, and one more when the loop has
    stored the increment for the request in hand and not started its
    goroutine yet. *)
Theorem numChildren_counts (scriptWorkers : Z) (reqs : list runreq) (s : State) (k : string) :
  - 2 ^ 63 <= scriptWorkers < 2 ^ 63 ->
  reachable scriptWorkers reqs s ->
  get (numChildren s) k = running k (tasks s) + pending k (pc s).
Proof.
  intros Hsw Hr. destruct (reachable_table_inv _ _ _ Hsw Hr) as (_ & (C1 & _) & _).
  apply C1.
Qed.

(** ** Instances *)

Lemma makeValidPromName_ascii_witness :
  makeValidPromName "sys.cpu-0/user" = "sys_cpu_0_user".
Proof.
  rewrite makeValidPromName_ascii.
  - vm_compute. reflexivity.
  - apply (bool_decide_unpack _). vm_compute. exact I.
  - vm_compute. reflexivity.
Defined.

Lemma makeValidPromName_fixed_witness :
  Z.of_nat (String.length "script_runs_total") < 2 ^ 63 ∧
  makeValidPromName "script_runs_total" = "script_runs_total".
Proof.
  assert (H : Z.of_nat (String.length "script_runs_total") < 2 ^ 63)
    by (vm_compute; reflexivity).
  split; [exact H|].
  apply (proj2 (makeValidPromName_fixed "script_runs_total" H)).
  apply (bool_decide_unpack _). vm_compute. exact I.
Defined.

Lemma parseTcollectorValue_sound_witness :
  ∃ dp, parse_eval "a.a 1000 9 l1=v1" = Ok dp ∧
        opentsdb.ValidTSDBString (dp_Metric dp) = true ∧
        - 2 ^ 63 <= dp_Timestamp dp < 2 ^ 63.
Proof.
  destruct (parse_eval "a.a 1000 9 l1=v1") as [dp|] eqn:E; [|vm_compute in E; discriminate].
  exists dp. split; [reflexivity|].
  destruct (parseTcollectorValue_sound _ _ _ _ _ E)
    as (sp1 & sp2 & rest & x & _ & HM & _ & HR & _).
  split; [exact HM | exact HR].
Defined.

Lemma parseTcollectorValue_last_tag_wins_witness :
  ∃ dp, parse_eval overriding_line = Ok dp ∧ dp_Tags dp !! "k" = Some "b".
Proof.
  destruct (parse_eval overriding_line) as [dp|] eqn:E; [|vm_compute in E; discriminate].
  exists dp. split; [reflexivity|].
  apply (parseTcollectorValue_last_tag_wins _ _ _ _ _ _ _ E).
  exists "m", "1000", "9", ["k=a"], "k=b", [], {["k" := "b"]}.
  split_and!; [vm_compute; reflexivity | vm_compute; reflexivity | reflexivity | constructor].
Defined.

Lemma fits_scanner_broken_input : fits_scanner broken_input.
Proof. decide_by_evaluation. Qed.

Lemma translateOpenTsdb_first_error_witness :
  translate_eval broken_input = ([], Some "bad line: oops").
Proof.
  apply (translateOpenTsdb_first_error _ _ _ _ _ _ broken_input
           ["a.a 1000 9 l1=v1"] ["neither this"] "oops").
  - exact fits_scanner_broken_input.
  - vm_compute. reflexivity.
  - intros l Hl _. apply list_elem_of_singleton in Hl as ->. eexists. vm_compute. reflexivity.
  - unfold blank. vm_compute. discriminate.
  - vm_compute. reflexivity.
Defined.

Lemma metric_label_names_witness :
  dom (constLabels (desc (metric_of (fun _ m => map_to_list m)
    prometheus.IsValidMetricName prometheus.checkLabelName 0 colliding_point)))
  = ({["a_b"]} : gset string).
Proof.
  rewrite (proj1 (metric_label_names (fun _ m => map_to_list m)
    prometheus.IsValidMetricName prometheus.checkLabelName 0 colliding_point
                    (reflexivity _))).
  - apply (bool_decide_unpack _). vm_compute. exact I.
  - apply accepted_by_evaluation; vm_compute; reflexivity.
Defined.

Lemma respond_runCommand_witness :
  respond_eval default_handler "echo" {| output := test_input; err := None |} ∅
  = {| body := promhttp_HandlerFor
                 [Registry {| metrics := (translate_eval test_input).1 |}];
       logged := []; mParseErrors := ∅ |}.
Proof.
  pose proof (respond_runCommand ParseFloat_integers opentsdb.ValidTSDBString
                opentsdb.ParseTags (fun _ m => map_to_list m)
    prometheus.IsValidMetricName prometheus.checkLabelName (fun _ => Err "not read")
                default_handler ∅ "echo" good_run test_input None eq_refl) as (H & _).
  destruct H as (g & Ho & Hg & _).
  - repeat split.
  - vm_compute. reflexivity.
  - destruct (Hg eq_refl) as (ms & Hms & ->).
    unfold respond_eval. rewrite Ho. unfold translate_eval.
    change (stdout good_run) with test_input in Hms. rewrite Hms. reflexivity.
Defined.

Lemma Gather_twice_witness :
  (Gather merge_sort_labels map_to_list
     (Gather merge_sort_labels map_to_list parsed).2).2
  = (Gather merge_sort_labels map_to_list parsed).2.
Proof.
  apply (Gather_twice merge_sort_labels map_to_list).
  - intros l. apply merge_sort_Permutation.
  - apply merge_sort_labels_sorted.
  - reflexivity.
  - intros name fam H. unfold parsed in H. apply lookup_singleton_Some in H as [_ <-].
    apply (bool_decide_unpack _). vm_compute. exact I.
Defined.

Lemma meta_metrics_consistent_witness :
  get (mErrors (ctrs after_rejection)) "echo" <= get (mRuns (ctrs after_rejection)) "echo" ∧
  get (mRuns (ctrs after_rejection)) "echo"
  + get (mConcExceeds (ctrs after_rejection)) "echo" <= 2.
Proof.
  destruct (meta_metrics_consistent 1 two_requests after_rejection "echo"
              after_rejection_reachable) as (_ & H1 & _ & H2 & _).
  split; [exact H1 | exact H2].
Defined.

Lemma all_done_run : run 1 (repeat (Task 0) 8) after_rejection = Some all_done.
Proof. vm_compute. reflexivity. Qed.

Lemma all_done_reachable : reachable 1 two_requests all_done.
Proof.
  eapply run_reachable; [exact after_rejection_reachable | exact all_done_run].
Qed.

Lemma all_done_quiescent : quiescent all_done.
Proof. vm_compute. split_and!; try reflexivity. repeat constructor. Qed.

Lemma meta_metrics_settled_witness :
  get (mRuns (ctrs all_done)) "echo" + get (mConcExceeds (ctrs all_done)) "echo" = 2 ∧
  get (mRunning (ctrs all_done)) "echo" = 0 ∧ get (numChildren all_done) "echo" = 0.
Proof.
  destruct (meta_metrics_settled 1 two_requests all_done "echo" ltac:(lia)
              all_done_reachable all_done_quiescent) as (H1 & _ & _ & _ & H2 & H3).
  split_and!; assumption.
Defined.

Lemma admitted_under_capacity_witness : admitted after_rejection 0.
Proof.
  apply (admitted_under_capacity 1 two_requests after_rejection 0 echo_request).
  - lia.
  - exact after_rejection_reachable.
  - vm_compute. lia.
  - reflexivity.
  - vm_compute. reflexivity.
Defined.

Lemma idle_run : run 0 (repeat Loop 7) (init two_requests) = Some idle.
Proof. vm_compute. reflexivity. Qed.

Lemma idle_reachable : reachable 0 two_requests idle.
Proof. eapply run_reachable; [apply reachable_init | exact idle_run]. Qed.

Lemma no_worker_no_run_witness :
  tasks idle = [] ∧ turned_down 0 two_requests idle 0.
Proof.
  destruct (no_worker_no_run 0 two_requests idle ltac:(lia) idle_reachable) as (H1 & _ & H2).
  split; [exact H1|]. apply H2. vm_compute. lia.
Defined.

Lemma numChildren_counts_witness : get (numChildren after_rejection) "echo" = 1.
Proof.
  rewrite (numChildren_counts 1 two_requests after_rejection "echo" ltac:(lia)
             after_rejection_reachable).
  vm_compute. reflexivity.
Defined.
